(** * txt-reader: the window-side task scheduler and closure marshaller

    A shallow embedding of [src/txt-reader.ts]: the [TxtReader] class that
    queues tasks for a single worker, the promise-backed [TxtReaderTask], and
    [getItertorConfigMessage], which turns the functions of an iterator
    config into source text.

    JavaScript objects live in an explicit heap, because the marshaller
    updates objects in place and the callers hand it a deep clone.  Tasks are
    referred to by their position in [taskList] (the array is only ever
    pushed to), promises by their position in the promise store. *)

From Stdlib Require Import ZArith QArith Ascii.
From stdpp Require Import base tactics option list strings pretty.

Local Open Scope Z_scope.
Local Open Scope nat_scope.

(** ** Completions and a small state monad *)

(** What JavaScript code can throw in this file: the two string throws of the
    message handler, the engine's RangeError when the call stack is used up
    and a TypeError for a property read or a call on null or undefined. *)
Inductive exn :=
  | ThrownString (s : string)
  | RangeError
  | TypeError.

Inductive completion (A : Type) :=
  | Normal (a : A)
  | Thrown (e : exn).
Arguments Normal {A} a.
Arguments Thrown {A} e.

Definition M (S A : Type) : Type := S → completion A * S.

Definition ret {S A} (a : A) : M S A := λ s, (Normal a, s).
Definition throw {S A} (e : exn) : M S A := λ s, (Thrown e, s).
Definition bind {S A B} (c : M S A) (k : A → M S B) : M S B :=
  λ s, match c s with
       | (Normal a, s') => k a s'
       | (Thrown e, s') => (Thrown e, s')
       end.
Definition gets {S A} (f : S → A) : M S A := λ s, (Normal (f s), s).
Definition modify {S} (f : S → S) : M S unit := λ s, (Normal tt, f s).

Notation "'let*' x ':=' c 'in' k" := (bind c (λ x, k))
  (at level 10, x name, c at level 100, k at level 200).
Notation "c ;;; k" := (bind c (λ _, k))
  (at level 100, right associativity).

(** [for (... of l) body] *)
Fixpoint forEach {S A} (l : list A) (body : A → M S unit) : M S unit :=
  match l with
  | [] => ret tt
  | x :: l' => body x ;;; forEach l' body
  end.

(** ** JavaScript values *)

Module JS.

(** A [number] is a double; a finite double is the rational it denotes, which
    is all that the comparisons of this program look at. *)
Inductive number :=
  | Finite (q : Q)
  | PosInfinity
  | NegInfinity
  | NotANumber.

(** [n >= q] and [n <= q] for a rational bound [q]; false on NaN. *)
Definition geq (n : number) (q : Q) : bool :=
  match n with
  | Finite x => Qle_bool q x
  | PosInfinity => true
  | NegInfinity | NotANumber => false
  end.
Definition leq (n : number) (q : Q) : bool :=
  match n with
  | Finite x => Qle_bool x q
  | NegInfinity => true
  | PosInfinity | NotANumber => false
  end.

Inductive prim :=
  | PUndefined
  | PNull
  | PBool (b : bool)
  | PNum (n : number)
  | PStr (s : string).

Abbreviation loc := nat.

(** A value held in a variable or a property: a primitive, a function (known
    by the text [toString] gives for it) or a reference to a heap object. *)
Inductive value :=
  | VPrim (p : prim)
  | VFun (src : string)
  | VRef (l : loc).

Definition undefined : value := VPrim PUndefined.

(** An object is its own enumerable properties in [for-in] order; an array
    is the object whose keys are its indices. *)
Abbreviation object := (list (string * value)).
Abbreviation heap := (list (list (string * value))).

Inductive type_tag := TyUndefined | TyObject | TyBoolean | TyNumber | TyString | TyFunction.

Definition typeof (v : value) : type_tag :=
  match v with
  | VPrim PUndefined => TyUndefined
  | VPrim PNull => TyObject
  | VPrim (PBool _) => TyBoolean
  | VPrim (PNum _) => TyNumber
  | VPrim (PStr _) => TyString
  | VFun _ => TyFunction
  | VRef _ => TyObject
  end.

Definition is_object (v : value) : bool :=
  match typeof v with TyObject => true | _ => false end.
Definition is_function (v : value) : bool :=
  match typeof v with TyFunction => true | _ => false end.

(** Truthiness, as [||] and [!] test it. *)
Definition truthy (v : value) : bool :=
  match v with
  | VPrim PUndefined | VPrim PNull => false
  | VPrim (PBool b) => b
  | VPrim (PNum (Finite q)) => negb (Qeq_bool q 0)
  | VPrim (PNum NotANumber) => false
  | VPrim (PNum _) => true
  | VPrim (PStr s) => negb (String.eqb s "")
  | VFun _ | VRef _ => true
  end.

(** [o[k]] on one object. *)
Fixpoint lookupProp (k : string) (o : object) : value :=
  match o with
  | [] => undefined
  | (k', v) :: o' => if String.eqb k k' then v else lookupProp k o'
  end.

(** [o[k] = v]: an existing property keeps its place, a new one goes last. *)
Fixpoint storeProp (k : string) (v : value) (o : object) : object :=
  match o with
  | [] => [(k, v)]
  | (k', v') :: o' =>
      if String.eqb k k' then (k, v) :: o' else (k', v') :: storeProp k v o'
  end.

Definition keys (o : object) : list string := o.*1.

(** [obj[k]] through the heap. *)
Definition getProp (h : heap) (obj : value) (k : string) : value :=
  match obj with
  | VRef l => match h !! l with Some o => lookupProp k o | None => undefined end
  | _ => undefined
  end.

(** [obj[k] = v] through the heap. *)
Definition setProp (h : heap) (obj : value) (k : string) (v : value) : heap :=
  match obj with
  | VRef l => alter (storeProp k v) l h
  | _ => h
  end.

(** The keys a [for (let i in obj)] visits; none for null. *)
Definition forInKeys (h : heap) (obj : value) : list string :=
  match obj with
  | VRef l => match h !! l with Some o => keys o | None => [] end
  | _ => []
  end.

(** [{}] or [new Array(n)]: a fresh object, returned by reference. *)
Definition alloc (o : object) (h : heap) : value * heap :=
  (VRef (length h), h ++ [o]).

End JS.
Import JS.

(** The double quote of the template literal in [functionToString]. *)
Definition dquote : string := String (Ascii.ascii_of_nat 34) EmptyString.

(** ** The closure marshaller: [TxtReader.getItertorConfigMessage] *)

(** What the marshaller works on: the heap and the local [functionMap]
    array that the inner function pushes to. *)
Record MarshalState := {
  mheap : heap;
  functionMap : list string
}.

Definition readProp (obj : value) (k : string) : M MarshalState value :=
  gets (λ s, getProp (mheap s) obj k).
Definition writeProp (obj : value) (k : string) (v : value) : M MarshalState unit :=
  modify (λ s, {| mheap := setProp (mheap s) obj k v; functionMap := functionMap s |}).
Definition pushPath (p : string) : M MarshalState unit :=
  modify (λ s, {| mheap := mheap s; functionMap := functionMap s ++ [p] |}).

(** [obj[i].toString()] for a function; only functions reach it. *)
Definition sourceText (v : value) : value :=
  match v with
  | VFun src => VPrim (PStr src)
  | _ => v
  end.

(** The body of the [for (let i in obj)] loop of [functionToString], with
    the recursive call as [recurse]. *)
Definition visitProperty (recurse : value → string → M MarshalState value)
    (obj : value) (path i : string) : M MarshalState unit :=
  let pathi := path +:+ "[" +:+ dquote +:+ i +:+ dquote +:+ "]" in
  let* v := readProp obj i in
  if is_function v then
    writeProp obj i (sourceText v) ;;;
    pushPath pathi
  else if is_object v then
    let* v' := recurse v pathi in
    writeProp obj i v'
  else ret tt.

(** The inner [functionToString(obj, entry)].  [stack] is the number of
    frames the engine still has; a call with none left is the RangeError of
    a cyclic scope. *)
Fixpoint functionToString (stack : nat) (obj : value) (entry : string)
    : M MarshalState value :=
  match stack with
  | O => throw RangeError
  | S stack' =>
      let path := entry in
      if is_object obj then
        let* ks := gets (λ s, forInKeys (mheap s) obj) in
        forEach ks (visitProperty (functionToString stack') obj path) ;;;
        ret obj
      else ret obj
  end.

(** The message sent in place of an [IIteratorConfig]. *)
Record IIteratorConfigMessage := {
  msg_eachLine : string;
  msg_scope : value;
  msg_functionMap : list string
}.

(** [config.eachLine.toString()].  [eachLine] is typed as a function; a
    missing one is the TypeError of [undefined.toString()], and a value of
    any other type, which the interface rules out, is treated like a missing
    one. *)
Definition eachLineSource (h : heap) (config : value) : completion string :=
  match getProp h config "eachLine" with
  | VFun src => Normal src
  | _ => Thrown TypeError
  end.

(** [getItertorConfigMessage(config)], on the heap.  The fields of the
    returned literal are evaluated in order: [eachLine], then [scope] (with
    [|| {}] allocating an empty object), then [functionMap]. *)
Definition getItertorConfigMessage (stack : nat) (config : value) (h : heap)
    : completion IIteratorConfigMessage * heap :=
  match eachLineSource h config with
  | Thrown e => (Thrown e, h)
  | Normal src =>
      match functionToString stack (getProp h config "scope") ""
              {| mheap := h; functionMap := [] |} with
      | (Thrown e, s) => (Thrown e, mheap s)
      | (Normal scope, s) =>
          let '(scope', h') :=
            if truthy scope then (scope, mheap s) else alloc [] (mheap s) in
          (Normal {| msg_eachLine := src; msg_scope := scope';
                     msg_functionMap := functionMap s |}, h')
      end
  end.

(** ** Scope graphs that are trees *)

(** A scope without sharing or cycles, as a caller writes it down in an
    object literal. *)
#[local] Unset Elimination Schemes.
Inductive tree :=
  | TPrim (p : prim)
  | TFun (src : string)
  | TObj (fields : list (string * tree)).
#[local] Set Elimination Schemes.

(** The value that stands for [t] when its objects start at [base]. *)
Definition rootval (t : tree) (base : loc) : value :=
  match t with
  | TPrim p => VPrim p
  | TFun src => VFun src
  | TObj _ => VRef base
  end.

(** Number of heap objects of [t]. *)
Fixpoint nobjects (t : tree) : nat :=
  match t with
  | TObj fs => S (foldr (λ kc n, nobjects kc.2 + n) 0 fs)
  | _ => 0
  end.

Definition sizeFields (fs : list (string * tree)) : nat :=
  foldr (λ kc n, nobjects kc.2 + n) 0 fs.

(** Frames [functionToString] needs on [t]. *)
Fixpoint height (t : tree) : nat :=
  match t with
  | TObj fs => S (foldr (λ kc n, height kc.2 `max` n) 0 fs)
  | _ => 1
  end.

(** The properties of an object whose children are laid out from [b] on. *)
Fixpoint fieldProps (fs : list (string * tree)) (b : loc) : object :=
  match fs with
  | [] => []
  | (k, c) :: fs' => (k, rootval c b) :: fieldProps fs' (b + nobjects c)
  end.

(** The objects of [t] in allocation order: an object first, then the
    objects of its properties, left to right. *)
Fixpoint layout (t : tree) (base : loc) : list object :=
  match t with
  | TObj fs =>
      fieldProps fs (S base) ::
      (fix cells (fs : list (string * tree)) (b : loc) : list object :=
         match fs with
         | [] => []
         | (k, c) :: fs' => layout c b ++ cells fs' (b + nobjects c)
         end) fs (S base)
  | _ => []
  end.

Fixpoint fieldCells (fs : list (string * tree)) (b : loc) : list object :=
  match fs with
  | [] => []
  | (k, c) :: fs' => layout c b ++ fieldCells fs' (b + nobjects c)
  end.

(** Following the spec's words: a callable value becomes its source text,
    an object is recursed into, anything else passes through. *)
Fixpoint marshal (t : tree) : tree :=
  match t with
  | TPrim p => TPrim p
  | TFun src => TPrim (PStr src)
  | TObj fs => TObj (map (λ kc, (kc.1, marshal kc.2)) fs)
  end.

Definition marshalFields (fs : list (string * tree)) : list (string * tree) :=
  map (λ kc, (kc.1, marshal kc.2)) fs.

(** The scope itself is not a property of anything: a function passed as
    the whole scope is returned as it is. *)
Definition marshalRoot (t : tree) : tree :=
  match t with
  | TFun src => TFun src
  | _ => marshal t
  end.

Definition accessPath (entry key : string) : string :=
  entry +:+ "[" +:+ dquote +:+ key +:+ dquote +:+ "]".

(** Following the spec's words: the access paths of the callable values
    below the property at [path], depth first. *)
Fixpoint paths (t : tree) (path : string) {struct t} : list string :=
  match t with
  | TPrim _ => []
  | TFun _ => [path]
  | TObj fs => flat_map (λ kc, paths kc.2 (accessPath path kc.1)) fs
  end.

Definition rootPaths (t : tree) (entry : string) : list string :=
  match t with
  | TFun _ => []
  | _ => paths t entry
  end.

(** No object of [t] has two properties of the same name. *)
Fixpoint wf (t : tree) : Prop :=
  match t with
  | TObj fs => NoDup fs.*1 ∧ foldr (λ kc P, wf kc.2 ∧ P) True fs
  | _ => True
  end.

Module Example.
Definition f_src : string := "function (raw, progress, lineNumber) { this.n += this.util.double(this.factor); }".
Definition g_src : string := "function (x) { return 2 * x; }".
Definition three : prim := PNum (Finite 3).

Definition scope : tree :=
  TObj [("util", TObj [("double", TFun g_src)]); ("factor", TPrim three)].
Definition config : tree :=
  TObj [("eachLine", TFun f_src); ("scope", scope)].
End Example.

(** ** [cloneDeep] *)

(** Modelled from the library's documented behaviour: [lodash.clonedeep] is
    a dependency of this repository, not part of its sources.  [cloneDeep]
    returns primitives as they are, copies objects and arrays recursively
    into fresh objects (the clone is created first and its properties are
    assigned in key order), keeps a table of the objects already copied so
    that shared and circular references are copied once, and leaves a
    function that sits inside an object as the same function.  A function
    cloned on its own becomes an empty object. *)
Record CloneState := {
  cheap : heap;
  seen : list (loc * loc)
}.

Fixpoint stacked (l : loc) (table : list (loc * loc)) : option loc :=
  match table with
  | [] => None
  | (l', r) :: table' => if Nat.eqb l l' then Some r else stacked l table'
  end.

Definition allocClone : M CloneState value :=
  λ s, let '(r, h) := alloc [] (cheap s) in
       (Normal r, {| cheap := h; seen := seen s |}).
Definition remember (l : loc) (result : value) : M CloneState unit :=
  modify (λ s, {| cheap := cheap s;
                  seen := match result with
                          | VRef r => seen s ++ [(l, r)]
                          | _ => seen s
                          end |}).
Definition assignValue (result : value) (key : string) (v : value) : M CloneState unit :=
  modify (λ s, {| cheap := setProp (cheap s) result key v; seen := seen s |}).

(** The body of the loop over the properties in [baseClone], with the
    recursive call as [recurse]. *)
Definition cloneProperty (recurse : value → bool → M CloneState value)
    (v result : value) (key : string) : M CloneState unit :=
  let* sub := gets (λ s, getProp (cheap s) v key) in
  let* c := recurse sub true in
  assignValue result key c.

Fixpoint baseClone (stack : nat) (v : value) (inObject : bool) : M CloneState value :=
  match stack with
  | O => throw RangeError
  | S stack' =>
      match v with
      | VPrim _ => ret v
      | VFun _ => if inObject then ret v else allocClone
      | VRef l =>
          let* hit := gets (λ s, stacked l (seen s)) in
          match hit with
          | Some r => ret (VRef r)
          | None =>
              let* result := allocClone in
              remember l result ;;;
              let* ks := gets (λ s, forInKeys (cheap s) v) in
              forEach ks (cloneProperty (baseClone stack') v result) ;;;
              ret result
          end
      end
  end.

Definition cloneDeep (stack : nat) (v : value) (h : heap) : completion value * heap :=
  let '(r, s) := baseClone stack v false {| cheap := h; seen := [] |} in
  (r, cheap s).

(** ** Messages between the window and the worker *)

(** A [File] handed in by the caller; the scheduler only passes it on. *)
Inductive File := FileObject (name : string).

(** What a response carries in [result]: structured data made by the
    worker.  [RDecoded raw] is the string that [utf8decoder.decode(raw)]
    returns. *)
#[local] Unset Elimination Schemes.
Inductive payload :=
  | RPrim (p : prim)
  | RBytes (bytes : list N)
  | RDecoded (raw : payload)
  | RArray (items : list payload)
  | RObject (fields : list (string * payload)).
#[local] Set Elimination Schemes.

(** [result.lineCount] for a result that is not null or undefined. *)
Fixpoint lookupField (k : string) (fs : list (string * payload)) : payload :=
  match fs with
  | [] => RPrim PUndefined
  | (k', v) :: fs' => if String.eqb k k' then v else lookupField k fs'
  end.

(** The [data] of a request, by the action that builds it.  [ErrorData] is
    [new Error(message)], the only data whose class is Error. *)
Inductive RequestData :=
  | NoData
  | SniffLinesData (file : File) (lineNumber : number) (decode : bool)
  | LoadFileData (file : File) (config : option IIteratorConfigMessage)
  | ChunkSizeData (chunkSize : number)
  | LinesRangesData (linesRanges : value)
  | GetLinesData (start count : number)
  | SporadicLinesData (linesRanges : value) (decode : bool)
  | IterateLinesData (config : IIteratorConfigMessage) (start count : option number)
  | IterateSporadicLinesData (config : IIteratorConfigMessage) (lines : value)
  | ErrorData (message : string).

(** [Object.prototype.toString.call(data) === '[object Error]'] *)
Definition isError (d : RequestData) : bool :=
  match d with ErrorData _ => true | _ => false end.

(** [(data as Error).message] *)
Definition errorMessage (d : RequestData) : string :=
  match d with ErrorData m => m | _ => "" end.

Module RequestMessage.
Record t := {
  action : string;
  data : RequestData;
  taskId : option Z   (* unset until the task constructor stamps it *)
}.
(** [new RequestMessage(action, data)] *)
Definition new (action : string) (data : RequestData) : t :=
  {| action := action; data := data; taskId := None |}.
End RequestMessage.

Module IResponseMessage.
Record t := {
  success : bool;
  message : string;
  result : payload;
  done : bool;
  taskId : Z
}.
End IResponseMessage.

Module ITaskResponse.
Record t := {
  timeTaken : Z;
  message : string;
  result : payload
}.
End ITaskResponse.

(** ** Promises *)

(** The functions this file hands to [then]: the three that the public
    methods chain themselves, and the caller's, known by a name. *)
Inductive Callback :=
  | LoadFileThen (file : File)
  | GetLines2Then
  | GetLinesThen (decode : bool)
  | UserCallback (name : nat).

Inductive PromiseState :=
  | Pending
  | Fulfilled (v : ITaskResponse.t)
  | Rejected (reason : string).

(** [task.then(cb)] reacts to fulfilment only (its rejection is swallowed
    by the trailing [catch]); [task.catch(cb)] reacts to rejection only. *)
Inductive Reaction :=
  | OnFulfilled (cb : Callback)
  | OnRejected (name : nat).

Record Promise := {
  pstate : PromiseState;
  reactions : list Reaction
}.

(** A reaction job waiting in the microtask queue. *)
Record Job := {
  job_promise : nat;
  job_reaction : Reaction
}.

(** ** Tasks *)

Inductive TxtReaderTaskState :=
  | Initialized
  | Queued
  | Running
  | Completed.

Module Task.
Record t := {
  id : Z;
  requestMessage : RequestMessage.t;
  state : TxtReaderTaskState;
  onProgress : option nat;
  promise : option nat;
  resolve : option nat;
  reject : option nat;
  startTime : Z
}.

Definition set_state (st : TxtReaderTaskState) (task : t) : t :=
  {| id := id task; requestMessage := requestMessage task; state := st;
     onProgress := onProgress task; promise := promise task;
     resolve := resolve task; reject := reject task;
     startTime := startTime task |}.

(** [run()] *)
Definition run (now : Z) (task : t) : t :=
  {| id := id task; requestMessage := requestMessage task; state := Running;
     onProgress := onProgress task; promise := promise task;
     resolve := resolve task; reject := reject task;
     startTime := now |}.

(** [dispose()] *)
Definition dispose (task : t) : t :=
  {| id := id task; requestMessage := requestMessage task; state := state task;
     onProgress := onProgress task; promise := None;
     resolve := None; reject := None;
     startTime := startTime task |}.

(** [progress(onProgress)] *)
Definition progress (cb : nat) (task : t) : t :=
  {| id := id task; requestMessage := requestMessage task; state := state task;
     onProgress := Some cb; promise := promise task;
     resolve := resolve task; reject := reject task;
     startTime := startTime task |}.
End Task.

(** What the caller's functions were called with, oldest first. *)
Inductive Invocation :=
  | CalledThen (promise : nat) (name : nat) (response : ITaskResponse.t)
  | CalledCatch (promise : nat) (name : nat) (reason : string)
  | CalledProgress (task : nat) (name : nat) (progress : number).

Inductive ConsoleLine :=
  | LogReceived (event : IResponseMessage.t)
  | LogGetLines2 (linesRanges : value).

(** ** The reader and what it touches *)

(** The fields of a [TxtReader] ([taskList] to [file]; [utf8decoder] never
    changes and is left out) followed by the parts of the page it acts on:
    the worker, the heap, the promises and their job queue, the timers, the
    console, and the record of the calls made to the caller's functions. *)
Record World := {
  taskList : list Task.t;   (* the tasks created so far, in order; a task is referred to by its position *)
  runningTask : option nat;
  queuedTaskList : list nat;
  verboseLogging : bool;
  lineCount : payload;
  file : option File;
  worker : list RequestMessage.t;   (* the requests given to [worker.postMessage], oldest first *)
  jsheap : heap;   (* the objects of the page: the callers' configs and their clones *)
  promises : list Promise;   (* the promise made by each task constructor *)
  microtasks : list Job;   (* reaction jobs not yet run *)
  timers : list nat;   (* the [setTimeout(..., 0)] callbacks not yet run, each holding its task *)
  console : list ConsoleLine;
  calls : list Invocation
}.

Definition set_taskList (x : list Task.t) (w : World) : World :=
  {| taskList := x; runningTask := runningTask w;
     queuedTaskList := queuedTaskList w; verboseLogging := verboseLogging w;
     lineCount := lineCount w; file := file w; worker := worker w;
     jsheap := jsheap w; promises := promises w; microtasks := microtasks w;
     timers := timers w; console := console w; calls := calls w |}.
Definition set_runningTask (x : option nat) (w : World) : World :=
  {| taskList := taskList w; runningTask := x;
     queuedTaskList := queuedTaskList w; verboseLogging := verboseLogging w;
     lineCount := lineCount w; file := file w; worker := worker w;
     jsheap := jsheap w; promises := promises w; microtasks := microtasks w;
     timers := timers w; console := console w; calls := calls w |}.
Definition set_queuedTaskList (x : list nat) (w : World) : World :=
  {| taskList := taskList w; runningTask := runningTask w;
     queuedTaskList := x; verboseLogging := verboseLogging w;
     lineCount := lineCount w; file := file w; worker := worker w;
     jsheap := jsheap w; promises := promises w; microtasks := microtasks w;
     timers := timers w; console := console w; calls := calls w |}.
Definition set_verboseLogging (x : bool) (w : World) : World :=
  {| taskList := taskList w; runningTask := runningTask w;
     queuedTaskList := queuedTaskList w; verboseLogging := x;
     lineCount := lineCount w; file := file w; worker := worker w;
     jsheap := jsheap w; promises := promises w; microtasks := microtasks w;
     timers := timers w; console := console w; calls := calls w |}.
Definition set_lineCount (x : payload) (w : World) : World :=
  {| taskList := taskList w; runningTask := runningTask w;
     queuedTaskList := queuedTaskList w; verboseLogging := verboseLogging w;
     lineCount := x; file := file w; worker := worker w; jsheap := jsheap w;
     promises := promises w; microtasks := microtasks w; timers := timers w;
     console := console w; calls := calls w |}.
Definition set_file (x : option File) (w : World) : World :=
  {| taskList := taskList w; runningTask := runningTask w;
     queuedTaskList := queuedTaskList w; verboseLogging := verboseLogging w;
     lineCount := lineCount w; file := x; worker := worker w;
     jsheap := jsheap w; promises := promises w; microtasks := microtasks w;
     timers := timers w; console := console w; calls := calls w |}.
Definition set_worker (x : list RequestMessage.t) (w : World) : World :=
  {| taskList := taskList w; runningTask := runningTask w;
     queuedTaskList := queuedTaskList w; verboseLogging := verboseLogging w;
     lineCount := lineCount w; file := file w; worker := x;
     jsheap := jsheap w; promises := promises w; microtasks := microtasks w;
     timers := timers w; console := console w; calls := calls w |}.
Definition set_jsheap (x : heap) (w : World) : World :=
  {| taskList := taskList w; runningTask := runningTask w;
     queuedTaskList := queuedTaskList w; verboseLogging := verboseLogging w;
     lineCount := lineCount w; file := file w; worker := worker w;
     jsheap := x; promises := promises w; microtasks := microtasks w;
     timers := timers w; console := console w; calls := calls w |}.
Definition set_promises (x : list Promise) (w : World) : World :=
  {| taskList := taskList w; runningTask := runningTask w;
     queuedTaskList := queuedTaskList w; verboseLogging := verboseLogging w;
     lineCount := lineCount w; file := file w; worker := worker w;
     jsheap := jsheap w; promises := x; microtasks := microtasks w;
     timers := timers w; console := console w; calls := calls w |}.
Definition set_microtasks (x : list Job) (w : World) : World :=
  {| taskList := taskList w; runningTask := runningTask w;
     queuedTaskList := queuedTaskList w; verboseLogging := verboseLogging w;
     lineCount := lineCount w; file := file w; worker := worker w;
     jsheap := jsheap w; promises := promises w; microtasks := x;
     timers := timers w; console := console w; calls := calls w |}.
Definition set_timers (x : list nat) (w : World) : World :=
  {| taskList := taskList w; runningTask := runningTask w;
     queuedTaskList := queuedTaskList w; verboseLogging := verboseLogging w;
     lineCount := lineCount w; file := file w; worker := worker w;
     jsheap := jsheap w; promises := promises w; microtasks := microtasks w;
     timers := x; console := console w; calls := calls w |}.
Definition set_console (x : list ConsoleLine) (w : World) : World :=
  {| taskList := taskList w; runningTask := runningTask w;
     queuedTaskList := queuedTaskList w; verboseLogging := verboseLogging w;
     lineCount := lineCount w; file := file w; worker := worker w;
     jsheap := jsheap w; promises := promises w; microtasks := microtasks w;
     timers := timers w; console := x; calls := calls w |}.
Definition set_calls (x : list Invocation) (w : World) : World :=
  {| taskList := taskList w; runningTask := runningTask w;
     queuedTaskList := queuedTaskList w; verboseLogging := verboseLogging w;
     lineCount := lineCount w; file := file w; worker := worker w;
     jsheap := jsheap w; promises := promises w; microtasks := microtasks w;
     timers := timers w; console := console w; calls := x |}.

(** ** Promise operations *)

Definition reacts (st : PromiseState) (r : Reaction) : bool :=
  match st, r with
  | Fulfilled _, OnFulfilled _ => true
  | Rejected _, OnRejected _ => true
  | _, _ => false
  end.

Definition jobsFor (p : nat) (st : PromiseState) (rs : list Reaction) : list Job :=
  map (λ r, {| job_promise := p; job_reaction := r |}) (List.filter (reacts st) rs).

(** The resolving functions of promise [p]: the first call settles it and
    queues the jobs of its reactions; a later call does nothing. *)
Definition settleNow (p : nat) (st : PromiseState) (w : World) : World :=
  match promises w !! p with
  | Some pr =>
      match pstate pr with
      | Pending =>
          set_microtasks (microtasks w ++ jobsFor p st (reactions pr))
            (set_promises
               (<[p := {| pstate := st; reactions := [] |}]> (promises w)) w)
      | _ => w
      end
  | None => w
  end.

Definition settle (p : nat) (st : PromiseState) : M World unit :=
  modify (settleNow p st).

(** [this.resolve(v)] or [this.reject(v)]: a call of the field's value,
    which is null after [dispose]. *)
Definition callSettler (f : option nat) (st : PromiseState) : M World unit :=
  match f with
  | Some p => settle p st
  | None => throw TypeError
  end.

(** [promise.then] and [promise.catch] of the platform: a pending promise
    keeps the reaction; a settled one queues its job at once. *)
Definition reactNow (p : nat) (r : Reaction) (w : World) : World :=
  match promises w !! p with
  | Some pr =>
      match pstate pr with
      | Pending =>
          set_promises
            (<[p := {| pstate := Pending; reactions := reactions pr ++ [r] |}]>
               (promises w)) w
      | st => set_microtasks (microtasks w ++ jobsFor p st [r]) w
      end
  | None => w
  end.

Definition react (p : nat) (r : Reaction) : M World unit :=
  modify (reactNow p r).

(** ** [TxtReaderTask], on the task at position [i] *)

Definition deref (i : nat) : M World Task.t :=
  λ w, match taskList w !! i with
       | Some task => (Normal task, w)
       | None => (Thrown TypeError, w)
       end.

Definition updateTask (i : nat) (f : Task.t → Task.t) : M World unit :=
  modify (λ w, set_taskList (alter f i (taskList w)) w).

(** The constructor: it stamps the request and makes the promise. *)
Definition newTxtReaderTask (id : Z) (reqMsg : RequestMessage.t) : M World Task.t :=
  λ w, let p := length (promises w) in
       (Normal {| Task.id := id;
                  Task.requestMessage :=
                    {| RequestMessage.action := RequestMessage.action reqMsg;
                       RequestMessage.data := RequestMessage.data reqMsg;
                       RequestMessage.taskId := Some id |};
                  Task.state := Initialized;
                  Task.onProgress := None;
                  Task.promise := Some p;
                  Task.resolve := Some p;
                  Task.reject := Some p;
                  Task.startTime := 0 |},
        set_promises (promises w ++ [{| pstate := Pending; reactions := [] |}]) w).

(** [complete(response)]; [now] is [new Date().getTime()]. *)
Definition complete (i : nat) (response : IResponseMessage.t) (now : Z) : M World unit :=
  updateTask i (Task.set_state Completed) ;;;
  let* task := deref i in
  let timeTaken := (now - Task.startTime task)%Z in
  (if IResponseMessage.success response then
     let taskResponse :=
       {| ITaskResponse.timeTaken := timeTaken;
          ITaskResponse.message := IResponseMessage.message response;
          ITaskResponse.result := IResponseMessage.result response |} in
     callSettler (Task.resolve task) (Fulfilled taskResponse)
   else
     callSettler (Task.reject task) (Rejected (IResponseMessage.message response))) ;;;
  updateTask i Task.dispose.

(** [updateProgress(progress)] *)
Definition updateProgress (i : nat) (progress : number) : M World unit :=
  let* task := deref i in
  match Task.onProgress task with
  | Some cb => modify (λ w, set_calls (calls w ++ [CalledProgress i cb progress]) w)
  | None => ret tt
  end.

(** [then(onFulFilled)] *)
Definition then_ (i : nat) (onFulFilled : Callback) : M World nat :=
  let* task := deref i in
  match Task.promise task with
  | Some p => react p (OnFulfilled onFulFilled)
  | None => ret tt
  end ;;;
  ret i.

(** [catch(onFailed)] *)
Definition catch (i : nat) (onFailed : nat) : M World nat :=
  let* task := deref i in
  match Task.promise task with
  | Some p => react p (OnRejected onFailed)
  | None => ret tt
  end ;;;
  ret i.

(** [progress(onProgress)] *)
Definition progress (i : nat) (onProgress : nat) : M World nat :=
  updateTask i (Task.progress onProgress) ;;;
  ret i.

(** ** [TxtReader] *)

(** The state the constructor leaves, on a page whose heap is [h]. *)
Definition init (h : heap) : World :=
  {| taskList := []; runningTask := None; queuedTaskList := [];
     verboseLogging := false; lineCount := RPrim (PNum (Finite 0));
     file := None; worker := []; jsheap := h; promises := [];
     microtasks := []; timers := []; console := []; calls := [] |}.

Definition newTaskId : M World Z :=
  gets (λ w, match last (taskList w) with
             | None => 1%Z
             | Some task => (Task.id task + 1)%Z
             end).

Definition postMessage (m : RequestMessage.t) : M World unit :=
  modify (λ w, set_worker (worker w ++ [m]) w).

Definition setTimeout (i : nat) : M World unit :=
  modify (λ w, set_timers (timers w ++ [i]) w).

Definition runTask (i : nat) (now : Z) : M World unit :=
  modify (set_runningTask (Some i)) ;;;
  let* task := deref i in
  (if negb (isError (RequestMessage.data (Task.requestMessage task))) then
     postMessage (Task.requestMessage task)
   else
     setTimeout i) ;;;
  updateTask i (Task.run now).

Definition runNextTask (now : Z) : M World unit :=
  let* queued := gets queuedTaskList in
  match queued with
  | [] => ret tt
  | i :: rest =>
      modify (set_queuedTaskList rest) ;;;
      runTask i now
  end.

Definition completeTask (response : IResponseMessage.t) (now : Z) : M World unit :=
  let* running := gets runningTask in
  match running with
  | Some r =>
      complete r response now ;;;
      modify (set_runningTask None) ;;;
      runNextTask now
  | None => ret tt
  end.

(** The function given to [setTimeout] in [runTask]. *)
Definition timeoutCallback (i : nat) (now : Z) : M World unit :=
  let* task := deref i in
  let response :=
    {| IResponseMessage.success := false;
       IResponseMessage.message :=
         errorMessage (RequestMessage.data (Task.requestMessage task));
       IResponseMessage.result := RPrim PNull;
       IResponseMessage.done := true;
       IResponseMessage.taskId := Task.id task |} in
  completeTask response now.

Definition newTask (action : string) (data : RequestData) (now : Z) : M World nat :=
  let reqMsg := RequestMessage.new action data in
  let* id := newTaskId in
  let* task := newTxtReaderTask id reqMsg in
  let* i := gets (λ w, length (taskList w)) in
  modify (λ w, set_taskList (taskList w ++ [task]) w) ;;;
  let* running := gets runningTask in
  match running with
  | None => runTask i now
  | Some _ =>
      modify (λ w, set_queuedTaskList (queuedTaskList w ++ [i]) w) ;;;
      updateTask i (Task.set_state Queued)
  end ;;;
  ret i.

(** [Object.prototype.toString.call(result).toLowerCase() === '[object number]'
     && result >= 0 && result <= 100] *)
Definition isProgress (result : payload) : option number :=
  match result with
  | RPrim (PNum n) => if geq n 0 && leq n 100 then Some n else None
  | _ => None
  end.

Definition mismatchMessage (received running : Z) : string :=
  "Received task ID (" +:+ pretty received +:+
  ") does not match the running task ID (" +:+ pretty running +:+ ").".

(** The listener the constructor adds to the worker. *)
Definition onmessage (event : IResponseMessage.t) (now : Z) : M World unit :=
  let* verbose := gets verboseLogging in
  (if verbose then modify (λ w, set_console (console w ++ [LogReceived event]) w)
   else ret tt) ;;;
  let* running := gets runningTask in
  match running with
  | None => ret tt
  | Some r =>
      let response := event in
      let* task := deref r in
      if negb (IResponseMessage.taskId response =? Task.id task)%Z then
        throw (ThrownString
                 (mismatchMessage (IResponseMessage.taskId response) (Task.id task)))
      else if IResponseMessage.done response then
        completeTask response now
      else
        match isProgress (IResponseMessage.result response) with
        | Some n => updateProgress r n
        | None => throw (ThrownString "Unkown message type")
        end
  end.

(** [this.getItertorConfigMessage(cloneDeep(config))]; [stack] is the room
    left on the call stack when the method is entered. *)
Definition marshalConfig (stack : nat) (config : value) : M World IIteratorConfigMessage :=
  λ w, let '(r, h) := cloneDeep stack config (jsheap w) in
       match r with
       | Thrown e => (Thrown e, set_jsheap h w)
       | Normal clone =>
           let '(r', h') := getItertorConfigMessage stack clone h in
           (r', set_jsheap h' w)
       end.

Definition noFileYet : string := "TxtReader has not loaded a file yet.".

Definition sniffLines (file : File) (lineNumber : number) (decode : bool) (now : Z)
    : M World nat :=
  newTask "sniffLines" (SniffLinesData file lineNumber decode) now.

Definition loadFile (file : File) (config : value) (now : Z) (stack : nat)
    : M World nat :=
  modify (λ w, set_lineCount (RPrim (PNum (Finite 0))) (set_file None w)) ;;;
  let* config' :=
    (if truthy config then
       let* m := marshalConfig stack config in ret (Some m)
     else ret None) in
  let* task := newTask "loadFile" (LoadFileData file config') now in
  then_ task (LoadFileThen file).

Definition setChunkSize (chunkSize : number) (now : Z) : M World nat :=
  newTask "setChunkSize" (ChunkSizeData chunkSize) now.

Definition enableVerbose (now : Z) : M World nat :=
  modify (set_verboseLogging true) ;;;
  newTask "enableVerbose" NoData now.

Definition getLines2 (linesRanges : value) (decode : bool) (now : Z) : M World nat :=
  let* f := gets file in
  match f with
  | None => newTask "getLines2" (ErrorData noFileYet) now
  | Some _ =>
      modify (λ w, set_console (console w ++ [LogGetLines2 linesRanges]) w) ;;;
      let* task := newTask "getLines2" (LinesRangesData linesRanges) now in
      then_ task GetLines2Then
  end.

Definition getLines (start count : number) (decode : bool) (now : Z) : M World nat :=
  let* f := gets file in
  match f with
  | None => newTask "getLines" (ErrorData noFileYet) now
  | Some _ =>
      let* task := newTask "getLines" (GetLinesData start count) now in
      then_ task (GetLinesThen decode)
  end.

Definition getSporadicLines (linesRanges : value) (decode : bool) (now : Z)
    : M World nat :=
  newTask "getSporadicLines" (SporadicLinesData linesRanges decode) now.

Definition iterateLines (config : value) (start count : option number)
    (now : Z) (stack : nat) : M World nat :=
  let* f := gets file in
  match f with
  | None => newTask "getLines" (ErrorData noFileYet) now
  | Some _ =>
      let* m := marshalConfig stack config in
      newTask "iterateLines" (IterateLinesData m start count) now
  end.

Definition iterateSporadicLines (config : value) (linesRanges : value)
    (now : Z) (stack : nat) : M World nat :=
  let* m := marshalConfig stack config in
  newTask "iterateSporadicLines" (IterateSporadicLinesData m linesRanges) now.

(** ** Reaction jobs *)

(** What the [then] of [getLines] does to the response it is given, which
    every later handler of the same task sees. *)
Definition decodeLines (decode : bool) (result : payload) : payload :=
  match result with
  | RArray items => if decode then RArray (map RDecoded items) else result
  | _ => result
  end.

(** What the [then] of [loadFile] reads as [response.result.lineCount];
    [None] when the read throws. *)
Definition resultLineCount (result : payload) : option payload :=
  match result with
  | RPrim PUndefined | RPrim PNull => None
  | RObject fs => Some (lookupField "lineCount" fs)
  | _ => Some (RPrim PUndefined)
  end.

Definition fulfilledJob (p : nat) (cb : Callback) (v : ITaskResponse.t) (w : World)
    : World :=
  match cb with
  | LoadFileThen f =>
      match resultLineCount (ITaskResponse.result v) with
      | Some n => set_file (Some f) (set_lineCount n w)
      | None => w
      end
  | GetLines2Then => w
  | GetLinesThen decode =>
      let v' := {| ITaskResponse.timeTaken := ITaskResponse.timeTaken v;
                   ITaskResponse.message := ITaskResponse.message v;
                   ITaskResponse.result := decodeLines decode (ITaskResponse.result v) |} in
      set_promises (alter (λ pr, {| pstate := Fulfilled v'; reactions := reactions pr |})
                      p (promises w)) w
  | UserCallback name => set_calls (calls w ++ [CalledThen p name v]) w
  end.

Definition runJob (w : World) (j : Job) : World :=
  match promises w !! job_promise j with
  | Some pr =>
      match pstate pr, job_reaction j with
      | Fulfilled v, OnFulfilled cb => fulfilledJob (job_promise j) cb v w
      | Rejected reason, OnRejected name =>
          set_calls (calls w ++ [CalledCatch (job_promise j) name reason]) w
      | _, _ => w
      end
  | None => w
  end.

(** The microtask checkpoint at the end of a turn of the event loop. *)
Definition runMicrotasks (w : World) : World :=
  foldl runJob (set_microtasks [] w) (microtasks w).

(** ** Turns of the event loop *)

(** A call of one of the public methods. *)
Inductive Action :=
  | SniffLines (file : File) (lineNumber : number) (decode : bool)
  | LoadFile (file : File) (config : value)
  | SetChunkSize (chunkSize : number)
  | EnableVerbose
  | GetLines2 (linesRanges : value) (decode : bool)
  | GetLines (start count : number) (decode : bool)
  | GetSporadicLines (linesRanges : value) (decode : bool)
  | IterateLines (config : value) (start count : option number)
  | IterateSporadicLines (config : value) (linesRanges : value).

(** [now] is what the clock reads during the call and [stack] the room on
    the call stack; the result is the task returned. *)
Definition perform (a : Action) (now : Z) (stack : nat) : M World nat :=
  match a with
  | SniffLines f n d => sniffLines f n d now
  | LoadFile f c => loadFile f c now stack
  | SetChunkSize n => setChunkSize n now
  | EnableVerbose => enableVerbose now
  | GetLines2 r d => getLines2 r d now
  | GetLines s c d => getLines s c d now
  | GetSporadicLines r d => getSporadicLines r d now
  | IterateLines c s n => iterateLines c s n now stack
  | IterateSporadicLines c r => iterateSporadicLines c r now stack
  end.

(** What can happen to a reader: a call of a public method, a call of
    [then], [catch] or [progress] on a task it returned, a message from the
    worker, and the oldest zero-delay timer running.

    What is taken from the platform: a turn runs to completion and is
    followed by the microtask checkpoint; [postMessage] and [setTimeout] do
    not throw; the clock is read once in a turn; task ids are integers
    without a bound.  The functions of the caller are known by a name and
    their calls are recorded in [calls]: they return, and what they do to
    the reader is a turn of its own. *)
Inductive Event :=
  | Call (a : Action)
  | Then (task : nat) (name : nat)
  | Catch (task : nat) (name : nat)
  | Progress (task : nat) (name : nat)
  | Message (event : IResponseMessage.t)
  | Timeout.

Definition discard {A} (c : M World A) : M World unit := c ;;; ret tt.

Definition handle (e : Event) (now : Z) (stack : nat) : M World unit :=
  match e with
  | Call a => discard (perform a now stack)
  | Then i name => discard (then_ i (UserCallback name))
  | Catch i name => discard (catch i name)
  | Progress i name => discard (progress i name)
  | Message event => onmessage event now
  | Timeout =>
      let* ts := gets timers in
      match ts with
      | [] => ret tt
      | i :: rest => modify (set_timers rest) ;;; timeoutCallback i now
      end
  end.

(** A turn: the handler, then the microtask checkpoint. *)
Definition step (e : Event) (now : Z) (stack : nat) (w : World) : World :=
  runMicrotasks (handle e now stack w).2.

Inductive reachable : World → Prop :=
  | reachable_init (h : heap) : reachable (init h)
  | reachable_step (w : World) (e : Event) (now : Z) (stack : nat) :
      reachable w → reachable (step e now stack w).

(** A run: the turns in order, each with its clock reading and stack. *)
Fixpoint run (turns : list (Event * Z * nat)) (w : World) : World :=
  match turns with
  | [] => w
  | (e, now, stack) :: turns' => run turns' (step e now stack w)
  end.

Definition slotBody (stack' : nat) : value → string → string → M MarshalState unit :=
  visitProperty (functionToString stack').

Definition objHeap (pre post : heap) (fs : list (string * tree)) : heap :=
  pre ++ layout (TObj fs) (length pre) ++ post.

Definition marshals (t : tree) : Prop :=
  ∀ stack pre post entry fm, wf t → height t ≤ stack →
    functionToString stack (rootval t (length pre)) entry
      {| mheap := pre ++ layout t (length pre) ++ post; functionMap := fm |}
    = (Normal (rootval t (length pre)),
       {| mheap := pre ++ layout (marshalRoot t) (length pre) ++ post;
          functionMap := fm ++ rootPaths t entry |}).

(** The two fields of an [IIteratorConfig], as the interface types them. *)
Record IIteratorConfig := {
  eachLine : string;
  scope : option (list (string * tree))
}.

Definition configTree (c : IIteratorConfig) : tree :=
  TObj (("eachLine", TFun (eachLine c)) ::
        match scope c with
        | Some fs => [("scope", TObj fs)]
        | None => []
        end).

(** The config after marshalling: its scope has been rewritten in place,
    its own [eachLine] is still the function. *)
Definition marshalledConfigTree (c : IIteratorConfig) : tree :=
  TObj (("eachLine", TFun (eachLine c)) ::
        match scope c with
        | Some fs => [("scope", marshal (TObj fs))]
        | None => []
        end).

Definition configCell (src : string) (base : loc) : object :=
  [("eachLine", VFun src); ("scope", VRef (S base))].

Definition cloneBody (stack' : nat) : value → value → string → M CloneState unit :=
  cloneProperty (baseClone stack').




(** ** Marshalling never touches the caller's objects *)

Definition fresh (n0 : nat) (v : value) : Prop :=
  match v with
  | VRef r => n0 ≤ r
  | _ => True
  end.

(** The objects from [n0] on only refer to objects from [n0] on. *)
Definition closed (n0 : nat) (h : heap) : Prop :=
  ∀ l o k v, n0 ≤ l → h !! l = Some o → (k, v) ∈ o → fresh n0 v.

Definition tableFresh (n0 : nat) (table : list (loc * loc)) : Prop :=
  ∀ l r, stacked l table = Some r → n0 ≤ r.

(** What [functionToString] keeps when started on an object from [n0] on:
    the objects below [n0], and the closure of those above. *)
Definition marshalKeeps (n0 : nat) (h0 : heap) (s : MarshalState) : Prop :=
  take n0 (mheap s) = h0 ∧ closed n0 (mheap s).

Definition cloneKeeps (n0 : nat) (h0 : heap) (s : CloneState) : Prop :=
  take n0 (cheap s) = h0 ∧ n0 ≤ length (cheap s) ∧
  closed n0 (cheap s) ∧ tableFresh n0 (seen s).

Definition nextId (w : World) : Z :=
  match last (taskList w) with
  | None => 1%Z
  | Some task => (Task.id task + 1)%Z
  end.

Definition freshTask (action : string) (data : RequestData) (w : World) : Task.t :=
  {| Task.id := nextId w;
     Task.requestMessage :=
       {| RequestMessage.action := action; RequestMessage.data := data;
          RequestMessage.taskId := Some (nextId w) |};
     Task.state := Initialized; Task.onProgress := None;
     Task.promise := Some (length (promises w));
     Task.resolve := Some (length (promises w));
     Task.reject := Some (length (promises w));
     Task.startTime := 0 |}.

Definition dispatched (i : nat) (task : Task.t) (now : Z) (w : World) : World :=
  set_taskList (<[i := Task.run now task]> (taskList w))
    ((if isError (RequestMessage.data (Task.requestMessage task))
      then set_timers (timers w ++ [i])
      else set_worker (worker w ++ [Task.requestMessage task]))
       (set_runningTask (Some i) w)).

Definition spawned (action : string) (data : RequestData) (now : Z) (w : World) : World :=
  let i := length (taskList w) in
  let task := freshTask action data w in
  let w1 := set_taskList (taskList w ++ [task])
              (set_promises (promises w ++ [{| pstate := Pending; reactions := [] |}]) w) in
  match runningTask w with
  | None => dispatched i task now w1
  | Some _ =>
      set_taskList (<[i := Task.set_state Queued task]> (taskList w1))
        (set_queuedTaskList (queuedTaskList w ++ [i]) w1)
  end.

(** The outcome [complete] computes from a response. *)
Definition outcome (response : IResponseMessage.t) (task : Task.t) (now : Z) : PromiseState :=
  if IResponseMessage.success response then
    Fulfilled {| ITaskResponse.timeTaken := now - Task.startTime task;
                 ITaskResponse.message := IResponseMessage.message response;
                 ITaskResponse.result := IResponseMessage.result response |}
  else Rejected (IResponseMessage.message response).

Definition finished (i p : nat) (task : Task.t) (st : PromiseState) (w : World) : World :=
  let w' := settleNow p st w in
  set_taskList (<[i := Task.dispose (Task.set_state Completed task)]> (taskList w')) w'.

(** ** The invariant of the scheduler *)

Definition pendingAt (ps : list Promise) (i : nat) : Prop :=
  ∃ rs, ps !! i = Some {| pstate := Pending; reactions := rs |}.

Definition settledAt (ps : list Promise) (i : nat) : Prop :=
  ∃ pr, ps !! i = Some pr ∧ pstate pr ≠ Pending.

Definition holdsPromise (task : Task.t) (i : nat) : Prop :=
  Task.promise task = Some i ∧ Task.resolve task = Some i ∧ Task.reject task = Some i.

Definition disposed (task : Task.t) : Prop :=
  Task.promise task = None ∧ Task.resolve task = None ∧ Task.reject task = None.

Record task_inv (w : World) (i : nat) (task : Task.t) : Prop := {
  ti_id : Task.id task = Z.of_nat (S i);
  ti_req : RequestMessage.taskId (Task.requestMessage task) = Some (Task.id task);
  ti_state : Task.state task ≠ Initialized;
  ti_live : Task.state task ≠ Completed →
            holdsPromise task i ∧ pendingAt (promises w) i;
  ti_done : Task.state task = Completed →
            disposed task ∧ settledAt (promises w) i;
  ti_running : Task.state task = Running ↔ runningTask w = Some i;
  ti_queued : Task.state task = Queued ↔ i ∈ queuedTaskList w
}.

Record Inv (w : World) : Prop := {
  inv_tasks : ∀ i task, taskList w !! i = Some task → task_inv w i task;
  inv_running : ∀ r, runningTask w = Some r → r < length (taskList w);
  inv_queue_nodup : NoDup (queuedTaskList w);
  inv_queue : ∀ q, q ∈ queuedTaskList w → q < length (taskList w);
  inv_promises : length (promises w) = length (taskList w);
  inv_worker : ∀ m, m ∈ worker w →
    ∃ i task, taskList w !! i = Some task ∧ m = Task.requestMessage task ∧
              isError (RequestMessage.data m) = false ∧ Task.state task ≠ Queued;
  inv_timers : ∀ i, i ∈ timers w →
    ∃ task, taskList w !! i = Some task ∧
            isError (RequestMessage.data (Task.requestMessage task)) = true ∧
            Task.state task ≠ Queued
}.

Definition retired (r : nat) (task : Task.t) (st : PromiseState) (rs : list Reaction)
    (w : World) : World :=
  set_runningTask None
    (set_taskList (<[r := Task.dispose (Task.set_state Completed task)]> (taskList w))
       (set_microtasks (microtasks w ++ jobsFor r st rs)
          (set_promises (<[r := {| pstate := st; reactions := [] |}]> (promises w)) w))).

(** ** Every turn keeps the invariant *)

Definition keeps {A} (c : M World A) : Prop := ∀ w, Inv w → Inv (c w).2.

(** * What the properties of the reader are stated with *)

Definition sameScheduler (w w' : World) : Prop :=
  taskList w' = taskList w ∧ runningTask w' = runningTask w ∧
  queuedTaskList w' = queuedTaskList w ∧ worker w' = worker w ∧
  timers w' = timers w ∧ jsheap w' = jsheap w ∧ console w' = console w ∧
  verboseLogging w' = verboseLogging w.

(** [w'] differs from [w] at most in what the scheduler does not look at. *)
Definition sameTasks (w w' : World) : Prop :=
  taskList w' = taskList w ∧ runningTask w' = runningTask w ∧
  queuedTaskList w' = queuedTaskList w ∧ worker w' = worker w ∧
  timers w' = timers w ∧ promises w' = promises w ∧
  microtasks w' = microtasks w ∧ calls w' = calls w.

(** The reader after the handler's optional log line. *)
Definition logged (event : IResponseMessage.t) (w : World) : World :=
  if verboseLogging w then set_console (console w ++ [LogReceived event]) w else w.

Definition validProgress (result : payload) : Prop :=
  ∃ q, result = RPrim (PNum (Finite q)) ∧ (0 <= q)%Q ∧ (q <= 100)%Q.

(** The task an invocation is about. *)
Definition invocationTask (c : Invocation) : nat :=
  match c with
  | CalledThen p _ _ => p
  | CalledCatch p _ _ => p
  | CalledProgress i _ _ => i
  end.

(** What the handler of a turn leaves for the checkpoint. *)
Definition handlerSettles (w w1 : World) : Prop :=
  ∃ r task rs st,
    runningTask w = Some r ∧ taskList w !! r = Some task ∧
    promises w !! r = Some {| pstate := Pending; reactions := rs |} ∧
    st ≠ Pending ∧
    promises w1 = <[r := {| pstate := st; reactions := [] |}]> (promises w) ∧
    microtasks w1 = jobsFor r st rs ∧ calls w1 = calls w.

Definition handlerQuiet (w w1 : World) : Prop :=
  microtasks w1 = [] ∧
  (∀ p pr, promises w !! p = Some pr → pstate pr ≠ Pending →
           promises w1 !! p = Some pr) ∧
  ∃ new, calls w1 = calls w ++ new ∧
         ∀ c, c ∈ new → runningTask w = Some (invocationTask c).

(** Two states of one promise that differ at most by what the [then] of
    [getLines] does to the result in place. *)
Definition sameOutcome (st st' : PromiseState) : Prop :=
  match st, st' with
  | Pending, Pending => True
  | Rejected a, Rejected b => a = b
  | Fulfilled v, Fulfilled v' =>
      ITaskResponse.message v' = ITaskResponse.message v ∧
      ITaskResponse.timeTaken v' = ITaskResponse.timeTaken v
  | _, _ => False
  end.

Definition sameRequests (l l' : list Task.t) : Prop :=
  ∀ i task, l !! i = Some task →
    ∃ task', l' !! i = Some task' ∧
             Task.requestMessage task' = Task.requestMessage task.

Definition keptSettled (ps ps' : list Promise) : Prop :=
  ∀ i pr, ps !! i = Some pr → pstate pr ≠ Pending →
    ∃ pr', ps' !! i = Some pr' ∧ sameOutcome (pstate pr) (pstate pr').

(** [w'] comes after [w]: the tasks of [w] are there with their requests,
    and the promises settled in [w] are settled the same way. *)
Definition later (w w' : World) : Prop :=
  sameRequests (taskList w) (taskList w') ∧ keptSettled (promises w) (promises w').

Definition isLoadFile (task : Task.t) : Prop :=
  RequestMessage.action (Task.requestMessage task) = "loadFile".

Definition fulfilledAt (ps : list Promise) (i : nat) : Prop :=
  ∃ pr v, ps !! i = Some pr ∧ pstate pr = Fulfilled v.

(** A [loadFile] has completed successfully. *)
Definition loadFileFulfilled (w : World) : Prop :=
  ∃ i task, taskList w !! i = Some task ∧ isLoadFile task ∧
            fulfilledAt (promises w) i.

Definition loadReaction (r : Reaction) : Prop := ∃ f, r = OnFulfilled (LoadFileThen f).

Definition loadFileAt (w : World) (p : nat) : Prop :=
  ∃ task, taskList w !! p = Some task ∧ isLoadFile task.

(** Where [file] comes from: it is set by the reaction that [loadFile]
    chains to the promise of its own task, and by nothing else. *)
Record Loaded (w : World) : Prop := {
  ld_file : file w ≠ None → loadFileFulfilled w;
  ld_reactions : ∀ p pr r, promises w !! p = Some pr → r ∈ reactions pr →
                   loadReaction r → loadFileAt w p;
  ld_jobs : ∀ j, j ∈ microtasks w → loadReaction (job_reaction j) →
              loadFileAt w (job_promise j)
}.

Definition advance {A} (c : M World A) : Prop :=
  ∀ w, Inv w → Loaded w → Loaded (c w).2 ∧ later w (c w).2.

(** [w'] has every object of [w], unchanged, and possibly new ones. *)
Definition heapKept (w w' : World) : Prop :=
  take (length (jsheap w)) (jsheap w') = jsheap w.

Definition frames {A} (c : M World A) : Prop := ∀ w, heapKept w (c w).2.



(** The worker sends a message only for a request it was posted. *)
Definition solicited (w : World) (e : Event) : Prop :=
  match e with
  | Message event =>
      ∃ m, m ∈ worker w ∧
           RequestMessage.taskId m = Some (IResponseMessage.taskId event)
  | _ => True
  end.

(** The states a reader reaches with such a worker. *)
Inductive answered : World → Prop :=
  | answered_init (h : heap) : answered (init h)
  | answered_step (w : World) (e : Event) (now : Z) (stack : nat) :
      answered w → solicited w e → answered (step e now stack w).

Fixpoint answeredRun (turns : list (Event * Z * nat)) (w : World) : Prop :=
  match turns with
  | [] => True
  | (e, now, stack) :: turns' =>
      solicited w e ∧ answeredRun turns' (step e now stack w)
  end.

Definition errorTask (task : Task.t) : bool :=
  isError (RequestMessage.data (Task.requestMessage task)).

(** The timers there should be: one, for the running task, if its request
    data is an error. *)
Definition errorRunning (w : World) : list nat :=
  match runningTask w with
  | Some r =>
      match taskList w !! r with
      | Some task => if errorTask task then [r] else []
      | None => []
      end
  | None => []
  end.

Definition localOutcome (task : Task.t) (st : PromiseState) : Prop :=
  st = Pending ∨
  st = Rejected (errorMessage (RequestMessage.data (Task.requestMessage task))).

Definition errorsLocal (w : World) : Prop :=
  ∀ i task pr, taskList w !! i = Some task → errorTask task = true →
               promises w !! i = Some pr → localOutcome task (pstate pr).

(** With a worker that only answers, the only timer is the one of the
    running task, and a task whose data is an error is settled by its
    timer or not at all. *)
Definition Timed (w : World) : Prop :=
  timers w = errorRunning w ∧ errorsLocal w.

(** ** Some runs of a reader *)

Module Scenario.
(** The terminal response to the task with id [id]. *)
Definition answer (id : Z) (ok : bool) : IResponseMessage.t :=
  {| IResponseMessage.success := ok;
     IResponseMessage.message := if ok then "done" else "failed";
     IResponseMessage.result := RPrim PNull;
     IResponseMessage.done := true;
     IResponseMessage.taskId := id |}.

(** A progress message for the task with id [id]. *)
Definition report (id : Z) (percent : Q) : IResponseMessage.t :=
  {| IResponseMessage.success := true;
     IResponseMessage.message := "";
     IResponseMessage.result := RPrim (PNum (Finite percent));
     IResponseMessage.done := false;
     IResponseMessage.taskId := id |}.

(** A new reader on an empty page. *)
Definition start : World := init [].

(** [setChunkSize(1024)] has been called and is running, with observers
    registered on it. *)
Definition busy : World :=
  run [(Call (SetChunkSize (Finite 1024)), 0%Z, 0);
       (Then 0 7, 1%Z, 0); (Catch 0 8, 1%Z, 0); (Progress 0 9, 1%Z, 0)] start.

(** ... and a second call has been queued behind it. *)
Definition waiting : World :=
  run [(Call (SniffLines (FileObject "a.txt") (Finite 10) true), 2%Z, 0)] busy.

(** The first call has been answered. *)
Definition settled : World := run [(Message (answer 1 true), 5%Z, 0)] busy.

(** Verbose logging is on and no task is running. *)
Definition verbose : World :=
  run [(Call EnableVerbose, 0%Z, 0); (Message (answer 1 true), 5%Z, 0)] start.

(** The config of the example, as the interface types it, and a page
    that holds it. *)
Definition config : IIteratorConfig :=
  {| eachLine := Example.f_src;
     scope := Some [("util", TObj [("double", TFun Example.g_src)]);
                    ("factor", TPrim Example.three)] |}.
Definition page : heap := layout (configTree config) 0.
End Scenario.

Lemma tree_ind (P : tree → Prop) :
  (∀ p, P (TPrim p)) → (∀ src, P (TFun src)) →
  (∀ fs, Forall (λ kc, P kc.2) fs → P (TObj fs)) → ∀ t, P t.
Proof.
  intros Hp Hf Ho. fix IH 1. intros [p|src|fs]; [apply Hp|apply Hf|].
  apply Ho. induction fs as [|[k c] fs IHfs]; constructor; [apply IH|apply IHfs].
Qed.

Lemma layout_TObj fs base :
  layout (TObj fs) base = fieldProps fs (S base) :: fieldCells fs (S base).
Proof. reflexivity. Qed.

Lemma nobjects_TObj fs : nobjects (TObj fs) = S (sizeFields fs).
Proof. reflexivity. Qed.

Lemma nobjects_marshal t : nobjects (marshal t) = nobjects t.
Proof.
  induction t as [p|src|fs IH] using tree_ind; [done..|].
  simpl. f_equal. induction IH as [|[k c] fs Hc _ IHfs]; [done|].
  simpl in *. by rewrite Hc, IHfs.
Qed.

Lemma sizeFields_marshal fs : sizeFields (marshalFields fs) = sizeFields fs.
Proof.
  induction fs as [|[k c] fs IH]; [done|].
  unfold sizeFields in *. simpl. by rewrite nobjects_marshal, IH.
Qed.


Lemma length_layout t base : length (layout t base) = nobjects t.
Proof.
  revert base. induction t as [p|src|fs IH] using tree_ind; intros base; [done..|].
  rewrite layout_TObj, nobjects_TObj. simpl. f_equal.
  generalize (S base). induction IH as [|[k c] fs Hc _ IHfs]; intros b; [done|].
  simpl. rewrite length_app, Hc, IHfs. done.
Qed.

Lemma length_fieldCells fs b : length (fieldCells fs b) = sizeFields fs.
Proof.
  revert b. induction fs as [|[k c] fs IH]; intros b; [done|].
  simpl. rewrite length_app, length_layout, IH. done.
Qed.

Lemma fieldProps_app fs1 fs2 b :
  fieldProps (fs1 ++ fs2) b = fieldProps fs1 b ++ fieldProps fs2 (b + sizeFields fs1).
Proof.
  revert b. induction fs1 as [|[k c] fs1 IH]; intros b; simpl.
  - by rewrite Nat.add_0_r.
  - rewrite IH. do 3 f_equal. unfold sizeFields. simpl. lia.
Qed.

Lemma fieldCells_app fs1 fs2 b :
  fieldCells (fs1 ++ fs2) b = fieldCells fs1 b ++ fieldCells fs2 (b + sizeFields fs1).
Proof.
  revert b. induction fs1 as [|[k c] fs1 IH]; intros b; simpl.
  - by rewrite Nat.add_0_r.
  - rewrite IH, <- app_assoc. do 3 f_equal. unfold sizeFields. simpl. lia.
Qed.

Lemma keys_fieldProps fs b : keys (fieldProps fs b) = fs.*1.
Proof.
  revert b. induction fs as [|[k c] fs IH]; intros b; [done|].
  unfold keys in *. simpl. by rewrite IH.
Qed.

Lemma lookupProp_app_r k o1 o2 :
  k ∉ keys o1 → lookupProp k (o1 ++ o2) = lookupProp k o2.
Proof.
  unfold keys. induction o1 as [|[k' v] o1 IH]; intros Hk; [done|].
  simpl in *. apply not_elem_of_cons in Hk as [Hne Hk].
  destruct (String.eqb_spec k k'); [done|]. by apply IH.
Qed.

Lemma lookupProp_here k v o : lookupProp k ((k, v) :: o) = v.
Proof. simpl. by rewrite String.eqb_refl. Qed.

Lemma storeProp_app_r k v o1 o2 :
  k ∉ keys o1 → storeProp k v (o1 ++ o2) = o1 ++ storeProp k v o2.
Proof.
  unfold keys. induction o1 as [|[k' v'] o1 IH]; intros Hk; [done|].
  simpl in *. apply not_elem_of_cons in Hk as [Hne Hk].
  destruct (String.eqb_spec k k'); [done|]. by rewrite IH.
Qed.

Lemma storeProp_here k v v' o : storeProp k v ((k, v') :: o) = (k, v) :: o.
Proof. simpl. by rewrite String.eqb_refl. Qed.

Lemma functionToString_S stack' obj entry :
  functionToString (S stack') obj entry =
  if is_object obj then
    let* ks := gets (λ s, forInKeys (mheap s) obj) in
    forEach ks (slotBody stack' obj entry) ;;; ret obj
  else ret obj.
Proof. reflexivity. Qed.

Lemma objHeap_lookup pre post fs :
  objHeap pre post fs !! length pre = Some (fieldProps fs (S (length pre))).
Proof.
  unfold objHeap. rewrite lookup_app_r by lia. by rewrite Nat.sub_diag.
Qed.

Lemma objHeap_alter f pre post fs :
  alter f (length pre) (objHeap pre post fs) =
  pre ++ (f (fieldProps fs (S (length pre))) :: fieldCells fs (S (length pre))) ++ post.
Proof.
  unfold objHeap. rewrite layout_TObj.
  replace (length pre) with (length pre + 0) at 1 by lia.
  by rewrite alter_app_r.
Qed.

Lemma objHeap_split pre post A k c B :
  let bc := S (length pre) + sizeFields A in
  objHeap pre post (A ++ (k, c) :: B) =
  (pre ++ fieldProps (A ++ (k, c) :: B) (S (length pre)) :: fieldCells A (S (length pre)))
    ++ layout c bc ++ (fieldCells B (bc + nobjects c) ++ post).
Proof.
  intros bc. unfold objHeap. rewrite layout_TObj, fieldCells_app. simpl.
  rewrite <- ?app_assoc. simpl. by rewrite <- ?app_assoc.
Qed.

Lemma objHeap_split_length pre A (o : object) :
  length (pre ++ o :: fieldCells A (S (length pre))) = S (length pre) + sizeFields A.
Proof. rewrite length_app. simpl. rewrite length_fieldCells. lia. Qed.

(** Replacing one child by another of the same shape moves nothing. *)
Lemma fieldProps_replace A k c c' B b :
  nobjects c' = nobjects c →
  fieldProps (A ++ (k, c') :: B) b =
  fieldProps A b ++ (k, rootval c' (b + sizeFields A)) :: fieldProps B (b + sizeFields A + nobjects c).
Proof. intros Hn. rewrite fieldProps_app. simpl. by rewrite Hn. Qed.

Lemma fieldCells_replace A k c c' B b :
  nobjects c' = nobjects c →
  fieldCells (A ++ (k, c') :: B) b =
  fieldCells A b ++ layout c' (b + sizeFields A) ++ fieldCells B (b + sizeFields A + nobjects c).
Proof. intros Hn. rewrite fieldCells_app. simpl. by rewrite Hn. Qed.

Lemma rootval_marshal_object c b :
  is_function (rootval c b) = false → rootval (marshal c) b = rootval c b.
Proof. by destruct c. Qed.

Lemma slotBody_spec stack' pre post entry fm A k c B :
  marshals c → wf c → height c ≤ stack' → k ∉ A.*1 →
  slotBody stack' (VRef (length pre)) entry k
    {| mheap := objHeap pre post (A ++ (k, c) :: B); functionMap := fm |}
  = (Normal tt,
     {| mheap := objHeap pre post (A ++ (k, marshal c) :: B);
        functionMap := fm ++ paths c (accessPath entry k) |}).
Proof.
  intros IH Hwf Hh Hk.
  assert (Hread : getProp (objHeap pre post (A ++ (k, c) :: B)) (VRef (length pre)) k
                  = rootval c (S (length pre) + sizeFields A)).
  { unfold getProp. rewrite objHeap_lookup, fieldProps_app.
    rewrite lookupProp_app_r by (by rewrite keys_fieldProps).
    apply lookupProp_here. }
  assert (Hstore : ∀ v, storeProp k v (fieldProps (A ++ (k, c) :: B) (S (length pre)))
     = fieldProps A (S (length pre)) ++ (k, v) ::
       fieldProps B (S (length pre) + sizeFields A + nobjects c)).
  { intros v. rewrite fieldProps_app.
    rewrite storeProp_app_r by (by rewrite keys_fieldProps).
    simpl. by rewrite String.eqb_refl. }
  unfold slotBody, visitProperty, bind, readProp, gets. cbn [mheap functionMap]. rewrite Hread.
  fold (accessPath entry k).
  destruct (is_function (rootval c _)) eqn:Hfun.
  - destruct c as [p|src|fs]; [by destruct p|clear Hfun|done].
    unfold writeProp, pushPath, modify. simpl.
    f_equal. f_equal. rewrite objHeap_alter, Hstore.
    unfold objHeap. rewrite layout_TObj.
    rewrite (fieldProps_replace A k (TFun src) (TPrim (PStr src))) by done.
    rewrite (fieldCells_replace A k (TFun src) (TPrim (PStr src))) by done.
    rewrite (fieldCells_replace A k (TFun src) (TFun src)) by done.
    done.
  - destruct (is_object (rootval c _)) eqn:Hobj.
    + rewrite objHeap_split.
      rewrite <- (objHeap_split_length pre A (fieldProps (A ++ (k, c) :: B) (S (length pre)))).
      rewrite IH by done.
      assert (marshalRoot c = marshal c) as -> by (by destruct c).
      assert (rootPaths c (accessPath entry k) = paths c (accessPath entry k)) as ->
        by (by destruct c).
      unfold writeProp, modify. simpl. f_equal. f_equal.
      rewrite objHeap_split_length.
      assert (Hn := nobjects_marshal c).
      assert (Heq : (pre ++ fieldProps (A ++ (k, c) :: B) (S (length pre)) :: fieldCells A (S (length pre))) ++
         layout (marshal c) (S (length pre) + sizeFields A) ++
         fieldCells B (S (length pre) + sizeFields A + nobjects c) ++ post
         = objHeap pre post (A ++ (k, marshal c) :: B)).
      { rewrite objHeap_split. simpl. rewrite Hn.
        rewrite (fieldProps_replace A k c c), (fieldProps_replace A k c (marshal c)) by done.
        by rewrite rootval_marshal_object. }
      rewrite Heq. rewrite objHeap_alter.
      unfold objHeap. rewrite layout_TObj. do 2 f_equal.
      rewrite (fieldProps_replace A k c (marshal c)) by done.
      rewrite storeProp_app_r by (by rewrite keys_fieldProps).
      rewrite storeProp_here. by rewrite rootval_marshal_object.
    + destruct c as [p|src|fs]; [|done..]. simpl. by rewrite app_nil_r.
Qed.

Lemma wf_TObj fs : wf (TObj fs) ↔ NoDup fs.*1 ∧ Forall (λ kc, wf kc.2) fs.
Proof.
  simpl. apply and_iff_compat_l.
  induction fs as [|[k c] fs IH]; simpl.
  - split; [intros; constructor | done].
  - rewrite Forall_cons. simpl. by rewrite IH.
Qed.

Lemma height_TObj fs stack' :
  height (TObj fs) ≤ S stack' ↔ Forall (λ kc, height kc.2 ≤ stack') fs.
Proof.
  simpl. rewrite <- Nat.succ_le_mono.
  induction fs as [|[k c] fs IH]; simpl.
  - split; [intros; constructor | lia].
  - rewrite Forall_cons. simpl. rewrite <- IH. lia.
Qed.

Lemma forEach_slots stack' pre post entry todo : ∀ done fm,
  Forall (λ kc, marshals kc.2) todo →
  Forall (λ kc, wf kc.2) todo →
  Forall (λ kc, height kc.2 ≤ stack') todo →
  NoDup (done ++ todo).*1 →
  forEach todo.*1 (slotBody stack' (VRef (length pre)) entry)
    {| mheap := objHeap pre post (done ++ todo); functionMap := fm |}
  = (Normal tt,
     {| mheap := objHeap pre post (done ++ marshalFields todo);
        functionMap := fm ++ flat_map (λ kc, paths kc.2 (accessPath entry kc.1)) todo |}).
Proof.
  induction todo as [|[k c] todo IH]; intros done fm HP Hwf Hh Hnd.
  - simpl. by rewrite !app_nil_r.
  - apply Forall_cons in HP as [HPc HP]. apply Forall_cons in Hwf as [Hwfc Hwf].
    apply Forall_cons in Hh as [Hhc Hh]. simpl in HPc, Hwfc, Hhc.
    assert (Hk : k ∉ done.*1).
    { rewrite fmap_app in Hnd. apply NoDup_app in Hnd as (_ & Hnd & _).
      intros Hin. apply (Hnd k Hin). simpl. left. }
    simpl. unfold bind at 1. rewrite slotBody_spec by done.
    replace (done ++ (k, marshal c) :: todo) with ((done ++ [(k, marshal c)]) ++ todo)
      by (by rewrite <- app_assoc).
    rewrite IH; [|done..|].
    + rewrite <- !app_assoc. done.
    + rewrite <- app_assoc. simpl. by rewrite !fmap_app in *.
Qed.

Theorem functionToString_layout t : marshals t.
Proof.
  induction t as [p|src|fs IH] using tree_ind;
    intros stack pre post entry fm Hwf Hh.
  - destruct stack as [|stack']; [simpl in Hh; lia|].
    rewrite functionToString_S. simpl.
    destruct p; simpl; by rewrite ?app_nil_r.
  - destruct stack as [|stack']; [simpl in Hh; lia|].
    simpl. by rewrite app_nil_r.
  - destruct stack as [|stack']; [simpl in Hh; lia|].
    apply wf_TObj in Hwf as [Hnd Hwf]. apply height_TObj in Hh.
    rewrite functionToString_S.
    change (rootval (TObj fs) (length pre)) with (VRef (length pre)).
    change (is_object (VRef (length pre))) with true. cbn iota.
    fold (objHeap pre post fs).
    unfold bind at 1. unfold gets, forInKeys. cbn [mheap].
    rewrite objHeap_lookup, keys_fieldProps.
    unfold bind at 1.
    pose proof (forEach_slots stack' pre post entry fs [] fm IH Hwf Hh Hnd) as Hloop.
    change ([] ++ fs) with fs in Hloop. rewrite Hloop.
    done.
Qed.

Lemma fieldCells_cons k c fs b :
  fieldCells ((k, c) :: fs) b = layout c b ++ fieldCells fs (b + nobjects c).
Proof. reflexivity. Qed.

Lemma fieldProps_cons k c fs b :
  fieldProps ((k, c) :: fs) b = (k, rootval c b) :: fieldProps fs (b + nobjects c).
Proof. reflexivity. Qed.

Lemma configHeap_scope src scope pre post :
  nobjects scope = S (sizeFields match scope with TObj fs => fs | _ => [] end) →
  pre ++ layout (TObj [("eachLine", TFun src); ("scope", scope)]) (length pre) ++ post =
  (pre ++ [configCell src (length pre)]) ++ layout scope (S (length pre)) ++ post.
Proof.
  intros Hobj. destruct scope as [p|f|fs]; [done..|].
  rewrite (layout_TObj [_; _]), !fieldCells_cons, !fieldProps_cons.
  change (nobjects (TFun src)) with 0. rewrite !Nat.add_0_r.
  change (layout (TFun src) _) with (@nil object).
  change (fieldCells [] _) with (@nil object). change (fieldProps [] _) with (@nil (string * value)).
  change (rootval (TFun src) _) with (VFun src).
  change (rootval (TObj fs) (S (length pre))) with (VRef (S (length pre))).
  unfold configCell. rewrite app_nil_r, <- app_assoc. reflexivity.
Qed.

Theorem getItertorConfigMessage_layout (c : IIteratorConfig) stack pre post :
  1 ≤ stack →
  (∀ fs, scope c = Some fs → wf (TObj fs) ∧ height (TObj fs) ≤ stack) →
  let h := pre ++ layout (configTree c) (length pre) ++ post in
  getItertorConfigMessage stack (VRef (length pre)) h =
  match scope c with
  | Some fs =>
      (Normal {| msg_eachLine := eachLine c;
                 msg_scope := VRef (S (length pre));
                 msg_functionMap := paths (TObj fs) "" |},
       pre ++ layout (marshalledConfigTree c) (length pre) ++ post)
  | None =>
      (Normal {| msg_eachLine := eachLine c;
                 msg_scope := VRef (length h);
                 msg_functionMap := [] |},
       h ++ [[]])
  end.
Proof.
  intros Hstack Hscope h. unfold getItertorConfigMessage, eachLineSource.
  assert (Hcell : h !! length pre = Some (fieldProps
            (("eachLine", TFun (eachLine c)) ::
             match scope c with Some fs => [("scope", TObj fs)] | None => [] end)
            (S (length pre)))).
  { apply (objHeap_lookup pre post). }
  unfold getProp. rewrite Hcell. rewrite fieldProps_cons.
  change (lookupProp "eachLine" _) with (VFun (eachLine c)). cbv iota.
  change (lookupProp "scope" (("eachLine", ?v) :: ?o)) with (lookupProp "scope" o).
  subst h. unfold configTree, marshalledConfigTree.
  destruct (scope c) as [fs|] eqn:Hsc.
  - destruct (Hscope fs eq_refl) as [Hwf Hh].
    rewrite fieldProps_cons.
    change (nobjects (TFun (eachLine c))) with 0. rewrite Nat.add_0_r.
    change (lookupProp "scope" _) with (VRef (S (length pre))).
    change (marshal (TObj fs)) with (TObj (marshalFields fs)).
    rewrite !configHeap_scope by reflexivity.
    pose proof (functionToString_layout (TObj fs) stack
                  (pre ++ [configCell (eachLine c) (length pre)])
                  post "" [] Hwf Hh) as Hfts.
    rewrite length_app, Nat.add_comm in Hfts.
    change (rootval (TObj fs) _) with (VRef (S (length pre))) in Hfts.
    change (length [configCell (eachLine c) (length pre)] + length pre)
      with (S (length pre)) in Hfts.
    rewrite Hfts. reflexivity.
  - change (lookupProp "scope" _) with undefined.
    destruct stack as [|stack']; [lia|]. reflexivity.
Qed.

Lemma lookupProp_elem k o :
  lookupProp k o = undefined ∨ (k, lookupProp k o) ∈ o.
Proof.
  induction o as [|[k' v] o IH]; [by left|]. simpl.
  destruct (String.eqb_spec k k') as [->|Hne].
  - right. left.
  - destruct IH as [IH|IH]; [by left|]. right. by right.
Qed.

Lemma storeProp_elem k v o k' v' :
  (k', v') ∈ storeProp k v o → (k', v') = (k, v) ∨ (k', v') ∈ o.
Proof.
  induction o as [|[k0 v0] o IH]; simpl.
  - intros ->%list_elem_of_singleton. by left.
  - destruct (String.eqb_spec k k0) as [->|Hne].
    + intros [->|H]%elem_of_cons; [by left|]. right. by right.
    + intros [->|H]%elem_of_cons; [right; left|].
      destruct (IH H) as [?|?]; [by left|]. right. by right.
Qed.

Lemma getProp_fresh n0 h obj k :
  closed n0 h → fresh n0 obj → fresh n0 (getProp h obj k).
Proof.
  intros Hc Hf. destruct obj as [p|src|l]; try done. simpl in *.
  destruct (h !! l) as [o|] eqn:Hl; [|done].
  destruct (lookupProp_elem k o) as [->|Hin]; [done|]. by eapply Hc.
Qed.

Lemma setProp_frame n0 h obj k v :
  fresh n0 obj → take n0 (setProp h obj k v) = take n0 h.
Proof.
  intros Hf. destruct obj as [p|src|l]; try done. simpl in *.
  apply list_eq. intros i. rewrite !lookup_take.
  case_decide; [|done]. rewrite list_lookup_alter_ne by lia. done.
Qed.

Lemma setProp_closed n0 h obj k v :
  closed n0 h → fresh n0 v → closed n0 (setProp h obj k v).
Proof.
  intros Hc Hv. destruct obj as [p|src|l]; try done. simpl.
  intros l' o k' v' Hl' Ho Hin.
  destruct (decide (l' = l)) as [->|Hne].
  - rewrite list_lookup_alter_eq in Ho.
    apply fmap_Some in Ho as (o0 & Hl & ->).
    apply storeProp_elem in Hin as [[= -> ->]|Hin]; [done|]. by eapply (Hc l).
  - rewrite list_lookup_alter_ne in Ho by done. by eapply Hc.
Qed.

Lemma length_setProp h obj k v : length (setProp h obj k v) = length h.
Proof. destruct obj; try done. simpl. by rewrite length_alter. Qed.

Lemma forEach_keeps {S A} (P : S → Prop) (body : A → M S unit) (l : list A) :
  (∀ x s, P s → P (body x s).2) → ∀ s, P s → P (forEach l body s).2.
Proof.
  intros Hbody. induction l as [|x l IH]; intros s Hs; [done|].
  simpl. unfold bind. specialize (Hbody x s Hs).
  destruct (body x s) as [[[]|e] s']; [by apply IH|done].
Qed.

Lemma functionToString_frame n0 h0 stack : ∀ obj entry s r s',
  fresh n0 obj → marshalKeeps n0 h0 s →
  functionToString stack obj entry s = (r, s') →
  marshalKeeps n0 h0 s' ∧ ∀ c, r = Normal c → fresh n0 c.
Proof.
  induction stack as [|stack' IH]; intros obj entry s r s' Hobj Hs Heq.
  { injection Heq as <- <-. by split. }
  simpl in Heq. destruct (is_object obj).
  2: { injection Heq as <- <-. split; [done|]. by intros c [= <-]. }
  unfold bind at 1, gets in Heq.
  set (body := visitProperty (functionToString stack') obj entry) in Heq.
  assert (Hbody : ∀ i s, marshalKeeps n0 h0 s → marshalKeeps n0 h0 (body i s).2).
  { intros i s0 [Ht Hc]. unfold body, visitProperty, bind, readProp, gets.
    pose proof (getProp_fresh n0 (mheap s0) obj i Hc Hobj) as Hv.
    destruct (is_function _) eqn:Hfun.
    - cbn -[setProp]. split; cbn -[setProp]; [by rewrite setProp_frame|].
      apply setProp_closed; [done|]. by destruct (getProp _ _ _).
    - destruct (is_object _) eqn:Ho; [|done].
      destruct (functionToString stack' _ _ s0) as [[c|e] s1] eqn:Hrec.
      + destruct (IH _ _ _ _ _ Hv (conj Ht Hc) Hrec) as [[Ht' Hc'] Hr].
        cbn -[setProp]. split; cbn -[setProp]; [by rewrite setProp_frame|].
        apply setProp_closed; [done|]. by apply Hr.
      + by destruct (IH _ _ _ _ _ Hv (conj Ht Hc) Hrec). }
  pose proof (forEach_keeps _ body (forInKeys (mheap s) obj) Hbody s Hs) as Hloop.
  unfold bind in Heq. destruct (forEach _ body s) as [[[]|e] s1];
    injection Heq as <- <-; (split; [done|]); by intros c [= <-].
Qed.

Lemma stacked_app l table l' r :
  stacked l (table ++ [(l', r)]) =
  match stacked l table with
  | Some x => Some x
  | None => if Nat.eqb l l' then Some r else None
  end.
Proof.
  induction table as [|[a b] table IH]; simpl; [done|].
  by destruct (Nat.eqb l a).
Qed.

Lemma closed_alloc n0 h : closed n0 h → closed n0 (h ++ [[]]).
Proof.
  intros Hc l o k v Hl [[_ Ho]|[-> <-]]%lookup_snoc_Some Hin.
  - by eapply Hc.
  - by apply elem_of_nil in Hin.
Qed.

Lemma baseClone_ref stack' l inObject s :
  stacked l (seen s) = None →
  baseClone (S stack') (VRef l) inObject s =
  (let* result := allocClone in
   remember l result ;;;
   let* ks := gets (λ s, forInKeys (cheap s) (VRef l)) in
   forEach ks (cloneBody stack' (VRef l) result) ;;;
   ret result) s.
Proof. intros H. simpl. unfold bind at 1, gets. by rewrite H. Qed.

Lemma baseClone_frame n0 h0 stack : ∀ v inObject s r s',
  cloneKeeps n0 h0 s →
  baseClone stack v inObject s = (r, s') →
  cloneKeeps n0 h0 s' ∧ ∀ c, r = Normal c → fresh n0 c.
Proof.
  induction stack as [|stack' IH]; intros v inObject s r s' Hs Heq.
  { injection Heq as <- <-. by split. }
  destruct Hs as (Ht & Hlen & Hc & Hm).
  assert (Halloc : ∀ s1, s1 = {| cheap := cheap s ++ [[]]; seen := seen s |} →
            cloneKeeps n0 h0 s1).
  { intros s1 ->. unfold cloneKeeps. cbn. rewrite take_app_le, length_app by done.
    split; [done|]. split; [lia|]. split; [by apply closed_alloc|done]. }
  destruct v as [p|src|l].
  - injection Heq as <- <-. split; [done|]. by intros c [= <-].
  - simpl in Heq. destruct inObject.
    + injection Heq as <- <-. split; [done|]. by intros c [= <-].
    + unfold allocClone, alloc in Heq. cbn in Heq. injection Heq as <- <-.
      split; [by apply Halloc|]. intros c [= <-]. done.
  - destruct (stacked l (seen s)) as [hit|] eqn:Hhit.
    { simpl in Heq. unfold bind, gets in Heq. rewrite Hhit in Heq.
      injection Heq as <- <-. split; [done|]. intros c [= <-]. by apply (Hm l). }
    rewrite baseClone_ref in Heq by done.
    unfold bind at 1 in Heq. unfold allocClone, alloc in Heq.
    unfold bind at 1 in Heq. unfold remember, modify in Heq.
    unfold bind at 1 in Heq. unfold gets in Heq.
    cbn [cheap seen] in Heq. fold (cloneBody stack') in Heq.
    set (body := cloneBody stack' (VRef l) (VRef (length (cheap s)))) in Heq.
    assert (Hs1 : cloneKeeps n0 h0
              {| cheap := cheap s ++ [[]]; seen := seen s ++ [(l, length (cheap s))] |}).
    { unfold cloneKeeps. cbn. rewrite take_app_le, length_app by done.
      split; [done|]. split; [lia|]. split; [by apply closed_alloc|].
      intros a b. rewrite stacked_app.
      destruct (stacked a (seen s)) eqn:Ha; [intros [= <-]; by apply (Hm a)|].
      destruct (Nat.eqb a l); [|done]. intros [= <-]. done. }
    assert (Hbody : ∀ key s, cloneKeeps n0 h0 s → cloneKeeps n0 h0 (body key s).2).
    { intros key s0 Hs0. unfold body, cloneBody, cloneProperty, bind, gets.
      destruct (baseClone stack' _ true s0) as [[c|e] s2] eqn:Hrec.
      - destruct (IH _ _ _ _ _ Hs0 Hrec) as [(Ht2 & Hlen2 & Hc2 & Hm2) Hr].
        cbn -[setProp].
        split; cbn -[setProp]; [by rewrite setProp_frame|].
        split; [by rewrite length_setProp|].
        split; [|done]. apply setProp_closed; [done|]. by apply Hr.
      - by destruct (IH _ _ _ _ _ Hs0 Hrec). }
    unfold bind in Heq.
    match type of Heq with
    | context [forEach ?ks body ?st] =>
        pose proof (forEach_keeps _ body ks Hbody st Hs1) as Hloop;
        destruct (forEach ks body st) as [[[]|e] s2]
    end; injection Heq as <- <-; (split; [done|]); by intros c [= <-].
Qed.

Lemma closed_top h : closed (length h) h.
Proof.
  intros l o k v Hl Ho Hin. apply lookup_lt_Some in Ho. lia.
Qed.

Lemma cloneDeep_frame stack v h r h' :
  cloneDeep stack v h = (r, h') →
  take (length h) h' = h ∧ closed (length h) h' ∧
  ∀ c, r = Normal c → fresh (length h) c.
Proof.
  unfold cloneDeep. intros Heq.
  destruct (baseClone _ _ _ _) as [r0 s] eqn:Hc. injection Heq as <- <-.
  assert (Hs0 : cloneKeeps (length h) h {| cheap := h; seen := [] |}).
  { unfold cloneKeeps. cbn. rewrite firstn_all.
    split; [done|]. split; [done|]. split; [apply closed_top|done]. }
  destruct (baseClone_frame _ _ _ _ _ _ _ _ Hs0 Hc) as [(Ht & _ & Hcl & _) Hr].
  done.
Qed.

Lemma take_length_le {A} (l l' : list A) n : take n l' = l → n = length l → n ≤ length l'.
Proof.
  intros <- Hn. rewrite length_take in Hn. lia.
Qed.

Lemma getItertorConfigMessage_frame n0 stack config h r h' :
  closed n0 h → fresh n0 config → n0 ≤ length h →
  getItertorConfigMessage stack config h = (r, h') →
  take n0 h' = take n0 h ∧ ∀ m, r = Normal m → fresh n0 (msg_scope m).
Proof.
  intros Hc Hf Hlen. unfold getItertorConfigMessage.
  destruct (eachLineSource h config) as [src|e].
  2: { intros [= <- <-]. by split. }
  destruct (functionToString _ _ _ _) as [r0 s] eqn:Hfts.
  assert (Hs0 : marshalKeeps n0 (take n0 h) {| mheap := h; functionMap := [] |})
    by (by split).
  destruct (functionToString_frame n0 (take n0 h) _ _ _ _ _ _
              (getProp_fresh n0 h config "scope" Hc Hf) Hs0 Hfts)
    as [[Ht Hcl] Hr].
  destruct r0 as [scope|e]; [|by intros [= <- <-]].
  destruct (truthy scope).
  - intros [= <- <-]. split; [done|]. intros m [= <-]. by apply Hr.
  - unfold alloc. intros [= <- <-]. split.
    + rewrite take_app_le; [done|].
      apply (take_length_le (take n0 h)); [done|]. rewrite length_take. lia.
    + intros m [= <-]. cbn.
      apply (take_length_le (take n0 h)); [done|]. rewrite length_take. lia.
Qed.

(** [marshalConfig] changes nothing but the heap, and there only adds. *)
Lemma marshalConfig_frame stack config w r w' :
  marshalConfig stack config w = (r, w') →
  take (length (jsheap w)) (jsheap w') = jsheap w ∧
  w' = set_jsheap (jsheap w') w ∧
  ∀ m, r = Normal m → fresh (length (jsheap w)) (msg_scope m).
Proof.
  unfold marshalConfig. destruct (cloneDeep _ _ _) as [rc h1] eqn:Hclone.
  destruct (cloneDeep_frame _ _ _ _ _ Hclone) as (Ht & Hcl & Hr).
  destruct rc as [clone|e]; [|by intros [= <- <-]].
  destruct (getItertorConfigMessage _ _ _) as [rm h2] eqn:Hmsg.
  assert (Hlen : length (jsheap w) ≤ length h1) by (by eapply take_length_le).
  destruct (getItertorConfigMessage_frame _ _ _ _ _ _ Hcl (Hr _ eq_refl) Hlen Hmsg)
    as [Ht2 Hr2].
  intros [= <- <-]. cbn. split; [by rewrite Ht2|]. done.
Qed.










Lemma alter_push {A} (f : A → A) (l : list A) (x : A) :
  alter f (length l) (l ++ [x]) = l ++ [f x].
Proof.
  replace (length l) with (length l + 0) by lia. by rewrite alter_app_r.
Qed.

Lemma lookup_push {A} (l : list A) (x : A) : (l ++ [x]) !! length l = Some x.
Proof. rewrite lookup_app_r by lia. by rewrite Nat.sub_diag. Qed.

Lemma alter_lookup {A} (f : A → A) (l : list A) (i : nat) (x : A) :
  l !! i = Some x → alter f i l = <[i := f x]> l.
Proof.
  revert i. induction l as [|y l IH]; intros [|i] H; simplify_eq/=; [done|].
  f_equal. by apply IH.
Qed.

Lemma alter_None {A} (f : A → A) (l : list A) (i : nat) :
  l !! i = None → alter f i l = l.
Proof.
  revert i. induction l as [|y l IH]; intros [|i] H; simplify_eq/=; [done..|].
  f_equal. by apply IH.
Qed.

Lemma runTask_eq i task now w :
  taskList w !! i = Some task →
  runTask i now w = (Normal tt, dispatched i task now w).
Proof.
  intros Hi. unfold runTask, bind, modify, deref, dispatched. cbn.
  rewrite Hi. unfold updateTask, postMessage, setTimeout, modify.
  destruct (isError _); cbn; by rewrite (alter_lookup _ _ _ _ Hi).
Qed.

Lemma newTask_eq action data now w :
  newTask action data now w = (Normal (length (taskList w)), spawned action data now w).
Proof.
  unfold newTask, spawned, bind, newTaskId, newTxtReaderTask, gets, modify. cbn.
  fold (nextId w). fold (freshTask action data w).
  destruct (runningTask w) as [r|] eqn:Hr.
  - unfold updateTask, modify, ret. cbn.
    by rewrite (alter_lookup _ _ _ _ (lookup_push _ _)).
  - rewrite (runTask_eq _ (freshTask action data w)) by apply lookup_push.
    done.
Qed.

Lemma taskList_settleNow p st w : taskList (settleNow p st w) = taskList w.
Proof. unfold settleNow. by repeat case_match. Qed.

Lemma settleNow_set_taskList p st l w :
  settleNow p st (set_taskList l w) = set_taskList l (settleNow p st w).
Proof. unfold settleNow. cbn. by repeat case_match. Qed.

Lemma complete_eq i p task response now w :
  taskList w !! i = Some task →
  Task.resolve task = Some p → Task.reject task = Some p →
  complete i response now w = (Normal tt, finished i p task (outcome response task now) w).
Proof.
  intros Hi Hres Hrej.
  assert (Hlt : i < length (taskList w)) by (by eapply lookup_lt_Some).
  unfold complete, bind, updateTask, modify, deref, finished. cbn.
  rewrite (alter_lookup _ _ _ _ Hi), list_lookup_insert_eq by done. cbn.
  assert (Hsettle : ∀ f st, f = Some p →
    callSettler f st (set_taskList (<[i:=Task.set_state Completed task]> (taskList w)) w)
    = (Normal tt, set_taskList (<[i:=Task.set_state Completed task]> (taskList w))
                    (settleNow p st w))).
  { intros f st ->. unfold callSettler, settle, modify.
    by rewrite settleNow_set_taskList. }
  unfold outcome.
  destruct (IResponseMessage.success response); cbn;
    rewrite Hsettle by done; cbn;
    rewrite taskList_settleNow;
    (erewrite alter_lookup; [|by apply list_lookup_insert_eq]);
    by rewrite list_insert_insert_eq.
Qed.

Lemma runNextTask_nil now w :
  queuedTaskList w = [] → runNextTask now w = (Normal tt, w).
Proof. intros H. unfold runNextTask, bind, gets. by rewrite H. Qed.

Lemma runNextTask_cons now w i rest task :
  queuedTaskList w = i :: rest → taskList w !! i = Some task →
  runNextTask now w = (Normal tt, dispatched i task now (set_queuedTaskList rest w)).
Proof.
  intros H Hi. unfold runNextTask, bind, gets, modify. rewrite H.
  by rewrite (runTask_eq i task now (set_queuedTaskList rest w)).
Qed.

Lemma completeTask_idle response now w :
  runningTask w = None → completeTask response now w = (Normal tt, w).
Proof. intros H. unfold completeTask, bind, gets. by rewrite H. Qed.

Lemma completeTask_eq r p task response now w :
  runningTask w = Some r → taskList w !! r = Some task →
  Task.resolve task = Some p → Task.reject task = Some p →
  completeTask response now w =
  runNextTask now (set_runningTask None (finished r p task (outcome response task now) w)).
Proof.
  intros Hr Hi Hres Hrej. unfold completeTask, bind at 1, gets. rewrite Hr.
  unfold bind at 1. rewrite (complete_eq r p task) by done.
  unfold bind, modify. by destruct (runNextTask _ _) as [[]].
Qed.

Lemma Inv_init h : Inv (init h).
Proof.
  split; cbn; try done.
  - constructor.
  - intros q Hq. by apply elem_of_nil in Hq.
  - intros m Hm. by apply elem_of_nil in Hm.
  - intros m Hm. by apply elem_of_nil in Hm.
Qed.

Lemma nextId_inv w : Inv w → nextId w = Z.of_nat (S (length (taskList w))).
Proof.
  intros HI. unfold nextId.
  destruct (taskList w) as [|t0 l] eqn:Hl using rev_ind; [done|].
  clear IHl. rewrite last_snoc.
  assert (Ht : taskList w !! length l = Some t0) by (rewrite Hl; apply lookup_push).
  rewrite (ti_id _ _ _ (inv_tasks _ HI _ _ Ht)), length_app. cbn. lia.
Qed.

Lemma insert_push {A} (l : list A) (x y : A) : <[length l := y]> (l ++ [x]) = l ++ [y].
Proof.
  replace (length l) with (length l + 0) by lia. by rewrite insert_app_r.
Qed.

Lemma lookup_push_Some {A} (l : list A) (x y : A) (i : nat) :
  (l ++ [x]) !! i = Some y ↔ l !! i = Some y ∨ (i = length l ∧ y = x).
Proof.
  rewrite lookup_app_Some. split.
  - intros [H|[H1 H2]]; [by left|]. right.
    destruct (i - length l) as [|k] eqn:Hk; cbn in H2; [|by destruct k].
    injection H2 as ->. split; [lia|done].
  - intros [H|[-> ->]]; [by left|]. right. split; [done|]. by rewrite Nat.sub_diag.
Qed.

Lemma pendingAt_push ps i pr : pendingAt ps i → pendingAt (ps ++ [pr]) i.
Proof. intros [rs H]. exists rs. by apply lookup_app_l_Some. Qed.

Lemma settledAt_push ps i pr : settledAt ps i → settledAt (ps ++ [pr]) i.
Proof. intros (pr' & H & Hne). exists pr'. split; [|done]. by apply lookup_app_l_Some. Qed.

Lemma spawned_busy action data now w r :
  runningTask w = Some r →
  spawned action data now w =
  set_taskList (taskList w ++ [Task.set_state Queued (freshTask action data w)])
    (set_queuedTaskList (queuedTaskList w ++ [length (taskList w)])
       (set_promises (promises w ++ [{| pstate := Pending; reactions := [] |}]) w)).
Proof. intros Hr. unfold spawned. rewrite Hr. cbn. by rewrite insert_push. Qed.

Lemma spawned_idle action data now w :
  runningTask w = None →
  spawned action data now w =
  set_taskList (taskList w ++ [Task.run now (freshTask action data w)])
    ((if isError data then set_timers (timers w ++ [length (taskList w)])
      else set_worker (worker w ++ [Task.requestMessage (freshTask action data w)]))
       (set_runningTask (Some (length (taskList w)))
          (set_promises (promises w ++ [{| pstate := Pending; reactions := [] |}]) w))).
Proof.
  intros Hr. unfold spawned. rewrite Hr. unfold dispatched. cbn.
  rewrite insert_push. by destruct (isError data).
Qed.

Lemma Inv_spawned action data now w : Inv w → Inv (spawned action data now w).
Proof.
  intros HI.
  pose proof (nextId_inv w HI) as Hid.
  pose proof (inv_promises w HI) as Hlen.
  destruct (runningTask w) as [r|] eqn:Hr.
  - rewrite (spawned_busy _ _ _ _ r Hr).
    pose proof (inv_running w HI r Hr) as Hrlt.
    split; cbn.
    + intros i task [Hold|[-> ->]]%lookup_push_Some.
      * pose proof (lookup_lt_Some _ _ _ Hold) as Hlt.
        destruct (inv_tasks w HI i task Hold) as [H1 H2 H3 H4 H5 H6 H7].
        split; cbn; try done.
        -- intros Hs. destruct (H4 Hs). split; [done|]. by apply pendingAt_push.
        -- intros Hs. destruct (H5 Hs). split; [done|]. by apply settledAt_push.
        -- rewrite H7, elem_of_app, list_elem_of_singleton. split; [tauto|].
           intros [?|?]; [done|lia].
      * split; cbn; try done.
        -- intros _. rewrite <- Hlen. split; [by repeat split|]. eexists. apply lookup_push.
        -- rewrite Hr. split; [done|]. intros [= ->]. lia.
        -- rewrite elem_of_app, list_elem_of_singleton. tauto.
    + rewrite Hr. intros r' [= <-]. rewrite length_app. cbn. lia.
    + apply NoDup_app. split; [apply (inv_queue_nodup w HI)|]. split.
      * intros q Hq ->%list_elem_of_singleton.
        apply (inv_queue w HI) in Hq. lia.
      * apply NoDup_singleton.
    + intros q [Hq| ->%list_elem_of_singleton]%elem_of_app; rewrite length_app; cbn.
      * apply (inv_queue w HI) in Hq. lia.
      * lia.
    + rewrite !length_app. cbn. lia.
    + intros m Hm. destruct (inv_worker w HI m Hm) as (i & task & Hi & -> & He & Hs).
      exists i, task. split; [|done]. by apply lookup_app_l_Some.
    + intros i Hi. destruct (inv_timers w HI i Hi) as (task & Ht & He & Hs).
      exists task. split; [|done]. by apply lookup_app_l_Some.
  - rewrite (spawned_idle _ _ _ _ Hr).
    split; cbn.
    + intros i task [Hold|[-> ->]]%lookup_push_Some.
      * pose proof (lookup_lt_Some _ _ _ Hold) as Hlt.
        destruct (inv_tasks w HI i task Hold) as [H1 H2 H3 H4 H5 H6 H7].
        split; try done; destruct (isError data); cbn.
        all: try (intros Hs; destruct (H4 Hs); split; [done|]; by apply pendingAt_push).
        all: try (intros Hs; destruct (H5 Hs); split; [done|]; by apply settledAt_push).
        all: try (split; [intros Hs%H6; congruence | intros [= Heq]; lia]).
        all: done.
      * assert (Hnq : length (taskList w) ∉ queuedTaskList w).
        { intros Hq%(inv_queue w HI). lia. }
        split; try done; destruct (isError data); cbn; try done.
        all: try (intros _; rewrite <- Hlen; (split; [by repeat split|]);
                  eexists; apply lookup_push).
        all: split; done.
    + destruct (isError data); cbn; intros r' [= <-]; rewrite length_app; cbn; lia.
    + destruct (isError data); cbn; apply (inv_queue_nodup w HI).
    + intros q. destruct (isError data); cbn; intros Hq;
        apply (inv_queue w HI) in Hq; rewrite length_app; cbn; lia.
    + destruct (isError data); cbn; rewrite !length_app; cbn; lia.
    + intros m. destruct (isError data) eqn:He; cbn.
      * intros Hm. destruct (inv_worker w HI m Hm) as (i & task & Hi & -> & He' & Hs).
        exists i, task. split; [|done]. by apply lookup_app_l_Some.
      * intros [Hm| ->%list_elem_of_singleton]%elem_of_app.
        -- destruct (inv_worker w HI m Hm) as (i & task & Hi & -> & He' & Hs).
           exists i, task. split; [|done]. by apply lookup_app_l_Some.
        -- eexists _, _. split; [apply lookup_push|]. done.
    + intros i. destruct (isError data) eqn:He; cbn.
      * intros [Hi| ->%list_elem_of_singleton]%elem_of_app.
        -- destruct (inv_timers w HI i Hi) as (task & Ht & He' & Hs).
           exists task. split; [|done]. by apply lookup_app_l_Some.
        -- eexists. split; [apply lookup_push|]. done.
      * intros Hi. destruct (inv_timers w HI i Hi) as (task & Ht & He' & Hs).
        exists task. split; [|done]. by apply lookup_app_l_Some.
Qed.

Lemma outcome_settled response task now : outcome response task now ≠ Pending.
Proof. unfold outcome. by destruct (IResponseMessage.success response). Qed.

Lemma finished_eq r task st rs w :
  promises w !! r = Some {| pstate := Pending; reactions := rs |} →
  set_runningTask None (finished r r task st w) = retired r task st rs w.
Proof. intros Hp. unfold finished, settleNow, retired. by rewrite Hp. Qed.

(** What the invariant says about the running task. *)
Lemma running_task w r :
  Inv w → runningTask w = Some r →
  ∃ task rs, taskList w !! r = Some task ∧ Task.state task = Running ∧
             holdsPromise task r ∧
             promises w !! r = Some {| pstate := Pending; reactions := rs |}.
Proof.
  intros HI Hr.
  destruct (lookup_lt_is_Some_2 _ _ (inv_running w HI r Hr)) as [task Ht].
  destruct (inv_tasks w HI r task Ht) as [_ _ _ H4 _ H6 _].
  apply H6 in Hr. destruct H4 as [Hh [rs Hp]]; [congruence|].
  by exists task, rs.
Qed.

Lemma Inv_retired r task st rs w :
  Inv w → runningTask w = Some r → taskList w !! r = Some task →
  promises w !! r = Some {| pstate := Pending; reactions := rs |} →
  st ≠ Pending →
  Inv (retired r task st rs w).
Proof.
  intros HI Hr Ht Hp Hst.
  pose proof (lookup_lt_Some _ _ _ Ht) as Hrlt.
  pose proof (lookup_lt_Some _ _ _ Hp) as Hplt.
  destruct (inv_tasks w HI r task Ht) as [R1 R2 R3 R4 R5 R6 R7].
  assert (Hrun : Task.state task = Running) by (by apply R6).
  split; cbn.
  - intros i t Hi. destruct (decide (i = r)) as [->|Hne].
    + rewrite list_lookup_insert_eq in Hi by done. injection Hi as <-.
      split; cbn; try done.
      * intros _. split; [done|]. eexists. split; [by apply list_lookup_insert_eq|done].
      * split; [done|]. intros Hq%R7. congruence.
    + rewrite list_lookup_insert_ne in Hi by done.
      destruct (inv_tasks w HI i t Hi) as [H1 H2 H3 H4 H5 H6 H7].
      split; cbn; try done.
      * intros Hs. destruct (H4 Hs) as [? [rs' ?]]. split; [done|]. exists rs'.
        by rewrite list_lookup_insert_ne.
      * intros Hs. destruct (H5 Hs) as [? (pr & ? & ?)]. split; [done|]. exists pr.
        by rewrite list_lookup_insert_ne.
      * split; [|done]. intros Hs%H6. congruence.
  - done.
  - apply (inv_queue_nodup w HI).
  - intros q Hq. rewrite length_insert. by apply (inv_queue w HI).
  - rewrite !length_insert. apply (inv_promises w HI).
  - intros m Hm. destruct (inv_worker w HI m Hm) as (i & t & Hi & -> & He & Hs).
    destruct (decide (i = r)) as [->|Hne].
    + eexists r, _. split; [by apply list_lookup_insert_eq|]. simplify_eq. done.
    + exists i, t. by rewrite list_lookup_insert_ne.
  - intros i Hi. destruct (inv_timers w HI i Hi) as (t & Hti & He & Hs).
    destruct (decide (i = r)) as [->|Hne].
    + eexists. split; [by apply list_lookup_insert_eq|]. simplify_eq. done.
    + exists t. by rewrite list_lookup_insert_ne.
Qed.

Lemma task_inv_ext w w' i task :
  promises w' = promises w → runningTask w' = runningTask w →
  queuedTaskList w' = queuedTaskList w →
  task_inv w i task → task_inv w' i task.
Proof. intros Hp Hr Hq [H1 H2 H3 H4 H5 H6 H7]. split; by rewrite ?Hp, ?Hr, ?Hq. Qed.

Lemma Inv_dispatched i rest task now w :
  Inv w → runningTask w = None → queuedTaskList w = i :: rest →
  taskList w !! i = Some task →
  Inv (dispatched i task now (set_queuedTaskList rest w)).
Proof.
  intros HI Hr Hq Ht.
  pose proof (lookup_lt_Some _ _ _ Ht) as Hlt.
  pose proof (inv_queue_nodup w HI) as Hnd. rewrite Hq in Hnd.
  apply NoDup_cons in Hnd as [Hni Hnd].
  destruct (inv_tasks w HI i task Ht) as [R1 R2 R3 R4 R5 R6 R7].
  assert (Hqd : Task.state task = Queued) by (apply R7; rewrite Hq; left).
  assert (Htasks : ∀ j t, <[i := Task.run now task]> (taskList w) !! j = Some t →
            task_inv (set_runningTask (Some i) (set_queuedTaskList rest w)) j t).
  { intros j t Hj. destruct (decide (j = i)) as [->|Hne].
    - rewrite list_lookup_insert_eq in Hj by done. injection Hj as <-.
      split; cbn; try done.
      intros _. apply R4. congruence.
    - rewrite list_lookup_insert_ne in Hj by done.
      destruct (inv_tasks w HI j t Hj) as [H1 H2 H3 H4 H5 H6 H7].
      split; cbn; try done.
      + split; [intros Hs'%H6; congruence|intros [= ->]; done].
      + rewrite H7, Hq, elem_of_cons. split; [intros [?|?]; done|tauto]. }
  unfold dispatched.
  destruct (isError (RequestMessage.data (Task.requestMessage task))) eqn:He.
  all: split; cbn.
  1,8: (intros j t Hj; eapply task_inv_ext; [..|by apply Htasks]; done).
  all: try (rewrite length_insert).
  all: try (apply (inv_promises w HI)).
  all: try done.
  all: try (intros q Hin; apply (inv_queue w HI); rewrite Hq; by right).
  all: try (intros r [= <-]; done).
  - intros m Hm. destruct (inv_worker w HI m Hm) as (j & t & Hj & -> & He' & Hs).
    exists j, t. rewrite list_lookup_insert_ne; [done|]. intros ->. simplify_eq.
  - intros j [Hj| ->%list_elem_of_singleton]%elem_of_app.
    + destruct (inv_timers w HI j Hj) as (t & Htj & He' & Hs).
      exists t. rewrite list_lookup_insert_ne; [done|]. intros ->. simplify_eq.
    + eexists. split; [by apply list_lookup_insert_eq|]. done.
  - intros m [Hm| ->%list_elem_of_singleton]%elem_of_app.
    + destruct (inv_worker w HI m Hm) as (j & t & Hj & -> & He' & Hs).
      exists j, t. rewrite list_lookup_insert_ne; [done|]. intros ->. simplify_eq.
    + eexists i, _. split; [by apply list_lookup_insert_eq|]. done.
  - intros j Hj. destruct (inv_timers w HI j Hj) as (t & Htj & He' & Hs).
    exists t. rewrite list_lookup_insert_ne; [done|]. intros ->. simplify_eq.
Qed.

Lemma Inv_ext w w' :
  taskList w' = taskList w → runningTask w' = runningTask w →
  queuedTaskList w' = queuedTaskList w → promises w' = promises w →
  worker w' = worker w → timers w' = timers w →
  Inv w → Inv w'.
Proof.
  intros Ht Hr Hq Hp Hw Hti [I1 I2 I3 I4 I5 I6 I7].
  split; rewrite ?Ht, ?Hr, ?Hq, ?Hp, ?Hw, ?Hti; try done.
  intros i task Hi. eapply task_inv_ext; [..|by apply I1]; done.
Qed.

Lemma Inv_runNextTask now w :
  Inv w → runningTask w = None →
  (runNextTask now w).1 = Normal tt ∧ Inv (runNextTask now w).2.
Proof.
  intros HI Hr. destruct (queuedTaskList w) as [|i rest] eqn:Hq.
  - by rewrite runNextTask_nil.
  - assert (Hlt : i < length (taskList w)) by (apply (inv_queue w HI); rewrite Hq; left).
    destruct (lookup_lt_is_Some_2 _ _ Hlt) as [task Ht].
    rewrite (runNextTask_cons now w i rest task) by done. split; [done|].
    by apply Inv_dispatched.
Qed.

Lemma Inv_completeTask response now w :
  Inv w →
  (completeTask response now w).1 = Normal tt ∧ Inv (completeTask response now w).2.
Proof.
  intros HI. destruct (runningTask w) as [r|] eqn:Hr.
  - destruct (running_task w r HI Hr) as (task & rs & Ht & Hs & (Hp & Hres & Hrej) & Hpr).
    rewrite (completeTask_eq r r task) by done.
    rewrite (finished_eq r task _ rs) by done.
    apply Inv_runNextTask; [|done].
    apply Inv_retired; try done. apply outcome_settled.
  - by rewrite completeTask_idle.
Qed.

Lemma Inv_reactNow p r w : Inv w → Inv (reactNow p r w).
Proof.
  intros HI. unfold reactNow.
  destruct (promises w !! p) as [pr|] eqn:Hp; [|done].
  destruct (pstate pr) eqn:Hst; [|by eapply Inv_ext; [..|done]..].
  pose proof (lookup_lt_Some _ _ _ Hp) as Hlt.
  destruct HI as [I1 I2 I3 I4 I5 I6 I7]. split; cbn; try done.
  - intros i task Hi. destruct (I1 i task Hi) as [H1 H2 H3 H4 H5 H6 H7].
    split; cbn; try done.
    + intros Hs. destruct (H4 Hs) as [? [rs Hrs]]. split; [done|].
      destruct (decide (i = p)) as [->|Hne].
      * eexists. by apply list_lookup_insert_eq.
      * exists rs. by rewrite list_lookup_insert_ne.
    + intros Hs. destruct (H5 Hs) as [? (pr' & Hpr' & Hne')]. split; [done|].
      exists pr'. split; [|done]. rewrite list_lookup_insert_ne; [done|].
      intros ->. simplify_eq.
  - by rewrite length_insert.
Qed.

Lemma Inv_progress i cb w :
  Inv w → Inv (set_taskList (alter (Task.progress cb) i (taskList w)) w).
Proof.
  intros HI. destruct (taskList w !! i) as [task|] eqn:Ht.
  - rewrite (alter_lookup _ _ _ _ Ht).
    pose proof (lookup_lt_Some _ _ _ Ht) as Hlt.
    destruct HI as [I1 I2 I3 I4 I5 I6 I7]. split; cbn; rewrite ?length_insert; try done.
    + intros j t Hj. destruct (decide (j = i)) as [->|Hne].
      * rewrite list_lookup_insert_eq in Hj by done. injection Hj as <-.
        destruct (I1 i task Ht). by split.
      * rewrite list_lookup_insert_ne in Hj by done.
        destruct (I1 j t Hj). by split.
    + intros m Hm. destruct (I6 m Hm) as (j & t & Hj & -> & He & Hs).
      destruct (decide (j = i)) as [->|Hne].
      * eexists i, _. split; [by apply list_lookup_insert_eq|]. simplify_eq. done.
      * exists j, t. by rewrite list_lookup_insert_ne.
    + intros j Hj. destruct (I7 j Hj) as (t & Htj & He & Hs).
      destruct (decide (j = i)) as [->|Hne].
      * eexists. split; [by apply list_lookup_insert_eq|]. simplify_eq. done.
      * exists t. by rewrite list_lookup_insert_ne.
  - rewrite alter_None by done. by eapply Inv_ext; [..|done].
Qed.

Lemma Inv_runJob w j : Inv w → Inv (runJob w j).
Proof.
  intros HI. unfold runJob.
  destruct (promises w !! job_promise j) as [pr|] eqn:Hp; [|done].
  destruct (pstate pr) as [|v|reason] eqn:Hst, (job_reaction j) as [cb|name];
    try done; [|by eapply Inv_ext; [..|done]].
  destruct cb as [f| |decode|name]; cbn; try done.
  - destruct (resultLineCount _); [|done]. by eapply Inv_ext; [..|done].
  - rewrite (alter_lookup _ _ _ _ Hp).
    pose proof (lookup_lt_Some _ _ _ Hp) as Hlt.
    destruct HI as [I1 I2 I3 I4 I5 I6 I7]. split; cbn; rewrite ?length_insert; try done.
    intros i task Hi. destruct (I1 i task Hi) as [H1 H2 H3 H4 H5 H6 H7].
    split; cbn; try done.
    + intros Hs. destruct (H4 Hs) as [? [rs Hrs]]. split; [done|].
      exists rs. rewrite list_lookup_insert_ne; [done|]. intros Heq. subst i.
      rewrite Hp in Hrs. injection Hrs as ->. done.
    + intros Hs. destruct (H5 Hs) as [? (pr' & Hpr' & Hne')]. split; [done|].
      destruct (decide (i = job_promise j)) as [->|Hne].
      * eexists. split; [by apply list_lookup_insert_eq|done].
      * exists pr'. by rewrite list_lookup_insert_ne.
  - by eapply Inv_ext; [..|done].
Qed.

Lemma Inv_runMicrotasks w : Inv w → Inv (runMicrotasks w).
Proof.
  intros HI. unfold runMicrotasks.
  assert (HI' : Inv (set_microtasks [] w)) by (by eapply Inv_ext; [..|done]).
  revert HI'. generalize (set_microtasks [] w). clear HI.
  induction (microtasks w) as [|j js IH]; intros w0 HI; [done|].
  cbn. apply IH. by apply Inv_runJob.
Qed.

Lemma keeps_ret {A} (a : A) : keeps (ret a).
Proof. by intros w. Qed.

Lemma keeps_throw {A} (e : exn) : keeps (@throw World A e).
Proof. by intros w. Qed.

Lemma keeps_gets {A} (f : World → A) : keeps (gets f).
Proof. by intros w. Qed.

Lemma keeps_bind {A B} (c : M World A) (k : A → M World B) :
  keeps c → (∀ a, keeps (k a)) → keeps (bind c k).
Proof.
  intros Hc Hk w HI. unfold bind. specialize (Hc w HI).
  destruct (c w) as [[a|e] w']; [by apply Hk|done].
Qed.

Lemma keeps_modify (f : World → World) : (∀ w, Inv w → Inv (f w)) → keeps (modify f).
Proof. intros Hf w HI. by apply Hf. Qed.

Lemma keeps_newTask action data now : keeps (newTask action data now).
Proof. intros w HI. rewrite newTask_eq. by apply Inv_spawned. Qed.

Lemma keeps_deref i : keeps (deref i).
Proof. intros w HI. unfold deref. by destruct (taskList w !! i). Qed.

Lemma keeps_then i cb : keeps (then_ i cb).
Proof.
  apply keeps_bind; [apply keeps_deref|]. intros task.
  apply keeps_bind; [|intros; apply keeps_ret].
  destruct (Task.promise task); [|apply keeps_ret].
  apply keeps_modify. intros w. apply Inv_reactNow.
Qed.

Lemma keeps_catch i cb : keeps (catch i cb).
Proof.
  apply keeps_bind; [apply keeps_deref|]. intros task.
  apply keeps_bind; [|intros; apply keeps_ret].
  destruct (Task.promise task); [|apply keeps_ret].
  apply keeps_modify. intros w. apply Inv_reactNow.
Qed.

Lemma keeps_progress i cb : keeps (progress i cb).
Proof.
  apply keeps_bind; [|intros; apply keeps_ret].
  apply keeps_modify. intros w. apply Inv_progress.
Qed.

Lemma keeps_marshalConfig stack config : keeps (marshalConfig stack config).
Proof.
  intros w HI. unfold marshalConfig.
  destruct (cloneDeep _ _ _) as [[c|e] h]; [|by eapply Inv_ext; [..|done]].
  destruct (getItertorConfigMessage _ _ _) as [r h']. by eapply Inv_ext; [..|done].
Qed.

Lemma keeps_completeTask response now : keeps (completeTask response now).
Proof. intros w HI. by apply Inv_completeTask. Qed.

Lemma keeps_updateProgress i n : keeps (updateProgress i n).
Proof.
  apply keeps_bind; [apply keeps_deref|]. intros task.
  destruct (Task.onProgress task); [|apply keeps_ret].
  apply keeps_modify. intros w HI. by eapply Inv_ext; [..|done].
Qed.

Lemma keeps_onmessage event now : keeps (onmessage event now).
Proof.
  apply keeps_bind; [apply keeps_gets|]. intros verbose.
  apply keeps_bind.
  { destruct verbose; [|apply keeps_ret].
    apply keeps_modify. intros w HI. by eapply Inv_ext; [..|done]. }
  intros _. apply keeps_bind; [apply keeps_gets|]. intros [r|]; [|apply keeps_ret].
  apply keeps_bind; [apply keeps_deref|]. intros task.
  destruct (negb _); [apply keeps_throw|].
  destruct (IResponseMessage.done event); [apply keeps_completeTask|].
  destruct (isProgress _); [apply keeps_updateProgress|apply keeps_throw].
Qed.

Lemma Inv_set_timers_tail i rest w :
  Inv w → timers w = i :: rest → Inv (set_timers rest w).
Proof.
  intros [I1 I2 I3 I4 I5 I6 I7] Ht. split; try done.
  - intros j task Hj. eapply task_inv_ext; [..|by apply I1]; done.
  - cbn. intros j Hj. apply I7. rewrite Ht. by right.
Qed.

Lemma keeps_perform a now stack : keeps (perform a now stack).
Proof.
  destruct a; cbn.
  - apply keeps_newTask.
  - apply keeps_bind.
    { apply keeps_modify. intros w HI. by eapply Inv_ext; [..|done]. }
    intros _. apply keeps_bind.
    { destruct (truthy config); [|apply keeps_ret].
      apply keeps_bind; [apply keeps_marshalConfig|]. intros; apply keeps_ret. }
    intros c. apply keeps_bind; [apply keeps_newTask|]. intros i. apply keeps_then.
  - apply keeps_newTask.
  - apply keeps_bind; [|intros; apply keeps_newTask].
    apply keeps_modify. intros w HI. by eapply Inv_ext; [..|done].
  - apply keeps_bind; [apply keeps_gets|]. intros [f|]; [|apply keeps_newTask].
    apply keeps_bind.
    { apply keeps_modify. intros w HI. by eapply Inv_ext; [..|done]. }
    intros _. apply keeps_bind; [apply keeps_newTask|]. intros i. apply keeps_then.
  - apply keeps_bind; [apply keeps_gets|]. intros [f|]; [|apply keeps_newTask].
    apply keeps_bind; [apply keeps_newTask|]. intros i. apply keeps_then.
  - apply keeps_newTask.
  - apply keeps_bind; [apply keeps_gets|]. intros [f|]; [|apply keeps_newTask].
    apply keeps_bind; [apply keeps_marshalConfig|]. intros; apply keeps_newTask.
  - apply keeps_bind; [apply keeps_marshalConfig|]. intros; apply keeps_newTask.
Qed.

Lemma keeps_handle e now stack : keeps (handle e now stack).
Proof.
  destruct e; cbn; unfold discard.
  all: try (apply keeps_bind; [|intros; apply keeps_ret]).
  - apply keeps_perform.
  - apply keeps_then.
  - apply keeps_catch.
  - apply keeps_progress.
  - apply keeps_onmessage.
  - intros w HI. unfold bind, gets. destruct (timers w) as [|i rest] eqn:Ht; [done|].
    cbn. pose proof (Inv_set_timers_tail i rest w HI Ht) as HI'.
    revert HI'. generalize (set_timers rest w). intros w' HI'.
    apply (keeps_bind (deref i)); [apply keeps_deref| |done].
    intros task. apply keeps_completeTask.
Qed.

Theorem Inv_step e now stack w : Inv w → Inv (step e now stack w).
Proof. intros HI. apply Inv_runMicrotasks. by apply keeps_handle. Qed.

Theorem Inv_reachable w : reachable w → Inv w.
Proof. induction 1; [apply Inv_init|by apply Inv_step]. Qed.

(** * The reader, turn by turn *)

(** ** What the microtask checkpoint leaves alone *)

Lemma sameScheduler_refl w : sameScheduler w w.
Proof. by repeat split. Qed.

Lemma sameScheduler_trans w1 w2 w3 :
  sameScheduler w1 w2 → sameScheduler w2 w3 → sameScheduler w1 w3.
Proof.
  intros (?&?&?&?&?&?&?&?) (?&?&?&?&?&?&?&?). repeat split; congruence.
Qed.

Lemma runJob_sameScheduler w j : sameScheduler w (runJob w j).
Proof.
  unfold runJob. repeat case_match; try apply sameScheduler_refl.
  all: unfold fulfilledJob; repeat case_match; by repeat split.
Qed.

Lemma foldl_runJob_sameScheduler js : ∀ w, sameScheduler w (foldl runJob w js).
Proof.
  induction js as [|j js IH]; intros w; [apply sameScheduler_refl|].
  simpl. eapply sameScheduler_trans; [apply runJob_sameScheduler|apply IH].
Qed.

Lemma runMicrotasks_sameScheduler w : sameScheduler w (runMicrotasks w).
Proof.
  unfold runMicrotasks.
  eapply sameScheduler_trans; [|apply foldl_runJob_sameScheduler]. by repeat split.
Qed.

Lemma microtasks_runJob w j : microtasks (runJob w j) = microtasks w.
Proof.
  unfold runJob. repeat case_match; try done.
  all: unfold fulfilledJob; repeat case_match; done.
Qed.

Lemma microtasks_step e now stack w : microtasks (step e now stack w) = [].
Proof.
  unfold step, runMicrotasks.
  generalize (microtasks (handle e now stack w).2).
  assert (H : microtasks (set_microtasks [] (handle e now stack w).2) = []) by done.
  revert H. generalize (set_microtasks [] (handle e now stack w).2).
  intros w0 Hw0 js. revert w0 Hw0.
  induction js as [|j js IH]; intros w0 Hw0; [done|].
  simpl. apply IH. by rewrite microtasks_runJob.
Qed.

Lemma microtasks_reachable w : reachable w → microtasks w = [].
Proof. destruct 1; [done|apply microtasks_step]. Qed.

Lemma runMicrotasks_quiet w : microtasks w = [] → runMicrotasks w = w.
Proof.
  intros H. unfold runMicrotasks. rewrite H. simpl.
  destruct w. simpl in *. by subst.
Qed.

(** ** What a call of a public method does *)

Lemma sameTasks_refl w : sameTasks w w.
Proof. by repeat split. Qed.

Lemma sameTasks_trans w1 w2 w3 : sameTasks w1 w2 → sameTasks w2 w3 → sameTasks w1 w3.
Proof.
  intros (?&?&?&?&?&?&?&?) (?&?&?&?&?&?&?&?). repeat split; congruence.
Qed.

Lemma marshalConfig_sameTasks stack config w r w' :
  marshalConfig stack config w = (r, w') → sameTasks w w'.
Proof.
  intros H. destruct (marshalConfig_frame _ _ _ _ _ H) as (_ & -> & _).
  by repeat split.
Qed.

Lemma spawned_lookup action data now w :
  ∃ task, taskList (spawned action data now w) !! length (taskList w) = Some task ∧
          Task.promise task = Some (length (promises w)) ∧
          Task.requestMessage task = Task.requestMessage (freshTask action data w) ∧
          Task.id task = nextId w.
Proof.
  destruct (runningTask w) as [r|] eqn:Hr.
  - rewrite (spawned_busy _ _ _ _ r Hr). eexists. split; [apply lookup_push|done].
  - rewrite (spawned_idle _ _ _ _ Hr). eexists. cbn.
    split; [destruct (isError data); apply lookup_push|done].
Qed.

Lemma length_spawned action data now w :
  length (taskList (spawned action data now w)) = S (length (taskList w)).
Proof.
  destruct (runningTask w) as [r|] eqn:Hr.
  - rewrite (spawned_busy _ _ _ _ r Hr). cbn. rewrite length_app. simpl. lia.
  - rewrite (spawned_idle _ _ _ _ Hr). cbn.
    destruct (isError data); cbn; rewrite length_app; simpl; lia.
Qed.

Lemma then_spawned action data now w cb :
  then_ (length (taskList w)) cb (spawned action data now w) =
  (Normal (length (taskList w)),
   reactNow (length (promises w)) (OnFulfilled cb) (spawned action data now w)).
Proof.
  destruct (spawned_lookup action data now w) as (task & Ht & Hp & _).
  unfold then_, bind, deref. rewrite Ht, Hp. done.
Qed.

Lemma taskList_reactNow p r w : taskList (reactNow p r w) = taskList w.
Proof. unfold reactNow. by repeat case_match. Qed.

Lemma bind_eq {S A B} (c : M S A) (k : A → M S B) s a s1 :
  c s = (Normal a, s1) → bind c k s = k a s1.
Proof. intros H. unfold bind. by rewrite H. Qed.

Lemma bind_throw {S A B} (c : M S A) (k : A → M S B) s e s1 :
  c s = (Thrown e, s1) → bind c k s = (Thrown e, s1).
Proof. intros H. unfold bind. by rewrite H. Qed.

Lemma newTask_then action data now cb w :
  (let* task := newTask action data now in then_ task cb) w =
  (Normal (length (taskList w)),
   reactNow (length (promises w)) (OnFulfilled cb) (spawned action data now w)).
Proof. erewrite bind_eq by apply newTask_eq. apply then_spawned. Qed.

(** A call either throws while marshalling and creates nothing, or makes
    one task, at the end of [taskList], and returns it. *)
Lemma perform_outcome a now stack w r w' :
  perform a now stack w = (r, w') →
  (∃ e, r = Thrown e ∧ sameTasks w w') ∨
  (∃ action data w1,
      r = Normal (length (taskList w)) ∧ sameTasks w w1 ∧
      (w' = spawned action data now w1 ∨
       ∃ cb, w' = reactNow (length (promises w1)) (OnFulfilled cb)
                    (spawned action data now w1))).
Proof.
  intros H.
  assert (Hplain : ∀ action data w1, sameTasks w w1 →
            newTask action data now w1 = (r, w') →
            ∃ action data w1,
              r = Normal (length (taskList w)) ∧ sameTasks w w1 ∧
              (w' = spawned action data now w1 ∨
               ∃ cb, w' = reactNow (length (promises w1)) (OnFulfilled cb)
                            (spawned action data now w1))).
  { intros action data w1 Hs Hn. rewrite newTask_eq in Hn. injection Hn as <- <-.
    exists action, data, w1. pose proof Hs as (Ht & _). rewrite Ht.
    split; [done|]. split; [exact Hs|by left]. }
  assert (Hthen : ∀ action data cb w1, sameTasks w w1 →
            (let* task := newTask action data now in then_ task cb) w1 = (r, w') →
            ∃ action data w1,
              r = Normal (length (taskList w)) ∧ sameTasks w w1 ∧
              (w' = spawned action data now w1 ∨
               ∃ cb, w' = reactNow (length (promises w1)) (OnFulfilled cb)
                            (spawned action data now w1))).
  { intros action data cb w1 Hs Hn. rewrite newTask_then in Hn. injection Hn as <- <-.
    exists action, data, w1. pose proof Hs as (Ht & _). rewrite Ht.
    split; [done|]. split; [exact Hs|]. right. by exists cb. }
  destruct a; unfold perform in H.
  - right. by eapply Hplain; [apply sameTasks_refl|].
  - unfold loadFile in H. erewrite bind_eq in H by reflexivity.
    destruct (truthy config).
    + destruct (marshalConfig stack config
                  (set_lineCount (RPrim (PNum (Finite 0))) (set_file None w)))
        as [[m|e] w1] eqn:Hm.
      * erewrite bind_eq in H by (by erewrite bind_eq by exact Hm).
        right. eapply Hthen; [|exact H].
        eapply sameTasks_trans; [|by eapply marshalConfig_sameTasks]. by repeat split.
      * erewrite bind_throw in H by (by erewrite bind_throw by exact Hm).
        injection H as <- <-. left. eexists. split; [done|].
        eapply sameTasks_trans; [|by eapply marshalConfig_sameTasks]. by repeat split.
    + erewrite bind_eq in H by reflexivity. right. eapply Hthen; [|exact H].
      by repeat split.
  - right. by eapply Hplain; [apply sameTasks_refl|].
  - unfold enableVerbose in H. erewrite bind_eq in H by reflexivity.
    right. eapply Hplain; [|exact H]. by repeat split.
  - unfold getLines2 in H. erewrite bind_eq in H by reflexivity.
    destruct (file w).
    + erewrite bind_eq in H by reflexivity. right. eapply Hthen; [|exact H].
      by repeat split.
    + right. by eapply Hplain; [apply sameTasks_refl|].
  - unfold getLines in H. erewrite bind_eq in H by reflexivity.
    destruct (file w).
    + right. by eapply Hthen; [apply sameTasks_refl|].
    + right. by eapply Hplain; [apply sameTasks_refl|].
  - right. by eapply Hplain; [apply sameTasks_refl|].
  - unfold iterateLines in H. erewrite bind_eq in H by reflexivity.
    destruct (file w).
    + destruct (marshalConfig stack config w) as [[m|e] w1] eqn:Hm.
      * erewrite bind_eq in H by exact Hm. right. eapply Hplain; [|exact H].
        by eapply marshalConfig_sameTasks.
      * erewrite bind_throw in H by exact Hm. injection H as <- <-.
        left. eexists. split; [done|]. by eapply marshalConfig_sameTasks.
    + right. by eapply Hplain; [apply sameTasks_refl|].
  - unfold iterateSporadicLines in H.
    destruct (marshalConfig stack config w) as [[m|e] w1] eqn:Hm.
    + erewrite bind_eq in H by exact Hm. right. eapply Hplain; [|exact H].
      by eapply marshalConfig_sameTasks.
    + erewrite bind_throw in H by exact Hm. injection H as <- <-.
      left. eexists. split; [done|]. by eapply marshalConfig_sameTasks.
Qed.

Lemma nextId_sameTasks w w1 : sameTasks w w1 → nextId w1 = nextId w.
Proof. intros (Ht & _). unfold nextId. by rewrite Ht. Qed.

(** C2. The tasks of a reader have the ids 1, 2, 3, ... in the order of the
    calls that made them, whatever the action and whatever became of the
    task: the task at position [i] of [taskList] has id [i + 1], stamped
    into its request, and every call that returns makes exactly one task,
    at the end of the list. *)
Theorem C2_task_ids w :
  reachable w →
  (∀ i task, taskList w !! i = Some task →
     Task.id task = Z.of_nat (i + 1) ∧
     RequestMessage.taskId (Task.requestMessage task) = Some (Z.of_nat (i + 1))) ∧
  (∀ a now stack r w', perform a now stack w = (r, w') →
     match r with
     | Normal i =>
         i = length (taskList w) ∧
         length (taskList w') = S (length (taskList w)) ∧
         ∃ task, taskList w' !! i = Some task ∧
                 Task.id task = Z.of_nat (i + 1) ∧
                 RequestMessage.taskId (Task.requestMessage task) = Some (Z.of_nat (i + 1))
     | Thrown _ => taskList w' = taskList w
     end).
Proof.
  intros Hw. pose proof (Inv_reachable w Hw) as HI. split.
  - intros i task Hi. destruct (inv_tasks w HI i task Hi) as [H1 H2 _ _ _ _ _].
    rewrite H2, H1. by rewrite Nat.add_1_r.
  - intros a now stack r w' Hp.
    destruct (perform_outcome _ _ _ _ _ _ Hp) as [(e & -> & Hs)|(action & data & w1 & -> & Hs & Hw')].
    { by destruct Hs as (-> & _). }
    assert (Htl : taskList w' = taskList (spawned action data now w1)).
    { destruct Hw' as [->|(cb & ->)]; [done|apply taskList_reactNow]. }
    rewrite Htl. pose proof Hs as (Ht & _).
    split; [done|]. split; [by rewrite length_spawned, Ht|].
    destruct (spawned_lookup action data now w1) as (task & Hl & _ & Hreq & Hid).
    rewrite Ht in Hl. exists task. split; [done|].
    rewrite (nextId_sameTasks w w1 Hs), (nextId_inv w HI) in Hid.
    rewrite Hreq, Hid. cbn. rewrite (nextId_sameTasks w w1 Hs), (nextId_inv w HI).
    by rewrite Nat.add_1_r.
Qed.

(** No task is in the Running state exactly when the running slot is empty. *)
Lemma idle_iff w :
  Inv w →
  runningTask w = None ↔
  ∀ i task, taskList w !! i = Some task → Task.state task ≠ Running.
Proof.
  intros HI. split.
  - intros Hr i task Hi Hs. apply (ti_running _ _ _ (inv_tasks w HI i task Hi)) in Hs.
    congruence.
  - intros Hnone. destruct (runningTask w) as [r|] eqn:Hr; [|done].
    destruct (running_task w r HI Hr) as (task & _ & Ht & Hs & _).
    by destruct (Hnone r task Ht).
Qed.

(** What [completeTask] leaves when a task is running and another waits. *)
Lemma completeTask_next response now w r q rest tr tq rs :
  runningTask w = Some r → taskList w !! r = Some tr →
  holdsPromise tr r →
  promises w !! r = Some {| pstate := Pending; reactions := rs |} →
  queuedTaskList w = q :: rest → taskList w !! q = Some tq → q ≠ r →
  completeTask response now w =
  (Normal tt,
   dispatched q tq now
     (set_queuedTaskList rest (retired r tr (outcome response tr now) rs w))).
Proof.
  intros Hr Htr (Hp & Hres & Hrej) Hpr Hq Htq Hne.
  rewrite (completeTask_eq r r tr) by done.
  rewrite (finished_eq r tr _ rs) by done.
  apply runNextTask_cons; [done|]. cbn. by rewrite list_lookup_insert_ne.
Qed.

(** C1. Single flight.  In every state the reader can reach, at most one
    task is Running; [newTask] dispatches the new task at once when no task
    is running and otherwise queues it, at the tail, without posting; when
    the running task completes, the head of the queue becomes the running
    task and its request is posted then; and the request of a task that is
    still queued is not among the posted ones. *)
Theorem C1_single_flight w :
  reachable w →
  (∀ i j ti tj, taskList w !! i = Some ti → taskList w !! j = Some tj →
     Task.state ti = Running → Task.state tj = Running → i = j) ∧
  (∀ action data now,
     let n := length (taskList w) in
     let w' := (newTask action data now w).2 in
     (newTask action data now w).1 = Normal n ∧
     ∃ task, taskList w' !! n = Some task ∧
       ((∀ i ti, taskList w !! i = Some ti → Task.state ti ≠ Running) →
          Task.state task = Running ∧ runningTask w' = Some n ∧
          queuedTaskList w' = queuedTaskList w ∧
          worker w' = worker w ++
            (if isError data then [] else [Task.requestMessage task])) ∧
       ((∃ i ti, taskList w !! i = Some ti ∧ Task.state ti = Running) →
          Task.state task = Queued ∧
          queuedTaskList w' = queuedTaskList w ++ [n] ∧
          runningTask w' = runningTask w ∧
          worker w' = worker w ∧ timers w' = timers w)) ∧
  (∀ response now r q rest tq,
     runningTask w = Some r → queuedTaskList w = q :: rest →
     taskList w !! q = Some tq →
     let w' := (completeTask response now w).2 in
     runningTask w' = Some q ∧ queuedTaskList w' = rest ∧
     (∃ tq', taskList w' !! q = Some tq' ∧ Task.state tq' = Running) ∧
     (∃ tr', taskList w' !! r = Some tr' ∧ Task.state tr' = Completed) ∧
     worker w' = worker w ++
       (if isError (RequestMessage.data (Task.requestMessage tq)) then []
        else [Task.requestMessage tq])) ∧
  (∀ q tq m, q ∈ queuedTaskList w → taskList w !! q = Some tq →
     m ∈ worker w →
     RequestMessage.taskId m ≠ RequestMessage.taskId (Task.requestMessage tq)).
Proof.
  intros Hw. pose proof (Inv_reachable w Hw) as HI.
  split; [|split; [|split]].
  - intros i j ti tj Hi Hj Hsi Hsj.
    apply (ti_running _ _ _ (inv_tasks w HI i ti Hi)) in Hsi.
    apply (ti_running _ _ _ (inv_tasks w HI j tj Hj)) in Hsj. congruence.
  - intros action data now n w'. subst w'. rewrite newTask_eq. cbn [fst snd].
    split; [done|].
    destruct (runningTask w) as [r|] eqn:Hr.
    + rewrite (spawned_busy _ _ _ _ r Hr). eexists. split; [apply lookup_push|].
      split.
      * intros Hnone. apply (idle_iff w HI) in Hnone. congruence.
      * intros _. done.
    + rewrite (spawned_idle _ _ _ _ Hr). eexists. cbn.
      split; [destruct (isError data); apply lookup_push|].
      split.
      * intros _. destruct (isError data); cbn; by rewrite ?app_nil_r.
      * intros (i & ti & Hi & Hs). pose proof (proj1 (idle_iff w HI) Hr i ti Hi). done.
  - intros response now r q rest tq Hr Hq Htq w'. subst w'.
    destruct (running_task w r HI Hr) as (tr & rs & Htr & Hsr & Hhold & Hpr).
    assert (Hne : q ≠ r).
    { intros ->. assert (Task.state tr = Queued).
      { apply (ti_queued _ _ _ (inv_tasks w HI r tr Htr)). rewrite Hq. left. }
      simplify_eq. congruence. }
    pose proof (lookup_lt_Some _ _ _ Htq) as Hqlt.
    pose proof (lookup_lt_Some _ _ _ Htr) as Hrlt.
    rewrite (completeTask_next response now w r q rest tr tq rs) by done.
    unfold dispatched, retired. cbn [fst snd].
    destruct (isError (RequestMessage.data (Task.requestMessage tq))); cbn.
    all: rewrite ?app_nil_r.
    all: split; [done|]; split; [done|]; split;
      [eexists; split; [apply list_lookup_insert_eq; by rewrite length_insert|done]|].
    all: split; [|done].
    all: eexists; (split; [rewrite list_lookup_insert_ne by done;
                           by apply list_lookup_insert_eq|done]).
  - intros q tq m Hq Htq Hm.
    destruct (inv_worker w HI m Hm) as (i & ti & Hi & -> & _ & Hs).
    destruct (inv_tasks w HI i ti Hi) as [H1 H2 _ _ _ _ _].
    destruct (inv_tasks w HI q tq Htq) as [Q1 Q2 _ _ _ _ Q7].
    rewrite H2, Q2, H1, Q1. intros [= Heq].
    assert (i = q) by lia. subst i. simplify_eq. by apply Hs, Q7.
Qed.

(** ** The message handler *)

Lemma sameTasks_logged event w : sameTasks w (logged event w).
Proof. unfold logged. destruct (verboseLogging w); by repeat split. Qed.

Lemma Inv_sameTasks w w' : sameTasks w w' → Inv w → Inv w'.
Proof. intros (?&?&?&?&?&?&?&?). by apply Inv_ext. Qed.

Lemma onmessage_idle event now w :
  runningTask w = None → onmessage event now w = (Normal tt, logged event w).
Proof.
  intros Hr. unfold onmessage, logged.
  erewrite bind_eq by reflexivity.
  destruct (verboseLogging w); (erewrite bind_eq by reflexivity);
    (erewrite bind_eq by reflexivity); cbn; by rewrite Hr.
Qed.

Lemma onmessage_running event now w r task :
  runningTask w = Some r → taskList w !! r = Some task →
  onmessage event now w =
  if negb (IResponseMessage.taskId event =? Task.id task)%Z then
    (Thrown (ThrownString
               (mismatchMessage (IResponseMessage.taskId event) (Task.id task))),
     logged event w)
  else if IResponseMessage.done event then completeTask event now (logged event w)
  else match isProgress (IResponseMessage.result event) with
       | Some n => updateProgress r n (logged event w)
       | None => (Thrown (ThrownString "Unkown message type"), logged event w)
       end.
Proof.
  intros Hr Ht. unfold onmessage.
  erewrite bind_eq by reflexivity.
  assert (Hlog : (if verboseLogging w
                  then modify (λ w0, set_console (console w0 ++ [LogReceived event]) w0)
                  else ret ()) w = (Normal tt, logged event w)).
  { unfold logged. by destruct (verboseLogging w). }
  erewrite bind_eq by exact Hlog.
  pose proof (sameTasks_logged event w) as (Ht' & Hr' & _).
  erewrite bind_eq by reflexivity. cbn beta. rewrite Hr', Hr.
  erewrite bind_eq by (unfold deref; by rewrite Ht', Ht).
  destruct (negb _); [done|]. destruct (IResponseMessage.done event); [done|].
  by destruct (isProgress _).
Qed.

Lemma isProgress_valid result :
  (∃ n, isProgress result = Some n) ↔ validProgress result.
Proof.
  unfold validProgress. split.
  - intros [n Hn]. destruct result as [[| | |[q| | |]|]| | | |]; simplify_eq/=.
    destruct (Qle_bool 0 q) eqn:H0, (Qle_bool q 100) eqn:H1; simplify_eq/=.
    exists q. by rewrite <- !Qle_bool_iff.
  - intros (q & -> & H0 & H1). exists (Finite q). simpl.
    apply Qle_bool_iff in H0, H1. by rewrite H0, H1.
Qed.

Lemma updateProgress_eq r n w task :
  taskList w !! r = Some task →
  updateProgress r n w =
  (Normal tt,
   match Task.onProgress task with
   | Some cb => set_calls (calls w ++ [CalledProgress r cb n]) w
   | None => w
   end).
Proof.
  intros Ht. unfold updateProgress. erewrite bind_eq by (unfold deref; by rewrite Ht).
  by destruct (Task.onProgress task).
Qed.

(** What [completeTask] does to the running task and its promise. *)
Lemma completeTask_running response now w r task :
  Inv w → runningTask w = Some r → taskList w !! r = Some task →
  ∃ rs w1,
    promises w !! r = Some {| pstate := Pending; reactions := rs |} ∧
    completeTask response now w = (Normal tt, w1) ∧
    promises w1 = <[r := {| pstate := outcome response task now; reactions := [] |}]>
                    (promises w) ∧
    taskList w1 !! r = Some (Task.dispose (Task.set_state Completed task)) ∧
    microtasks w1 = microtasks w ++ jobsFor r (outcome response task now) rs ∧
    calls w1 = calls w ∧ jsheap w1 = jsheap w ∧ console w1 = console w ∧
    file w1 = file w.
Proof.
  intros HI Hr Ht.
  destruct (running_task w r HI Hr) as (task' & rs & Ht' & Hs & (Hp & Hres & Hrej) & Hpr).
  assert (task' = task) as -> by congruence.
  pose proof (lookup_lt_Some _ _ _ Ht) as Hlt.
  exists rs. rewrite (completeTask_eq r r task) by done.
  rewrite (finished_eq r task _ rs) by done.
  set (w0 := retired r task (outcome response task now) rs w).
  destruct (queuedTaskList w) as [|q rest] eqn:Hq.
  - exists w0. rewrite runNextTask_nil by done. split; [done|]. split; [done|].
    split; [done|]. split; [by apply list_lookup_insert_eq|done].
  - assert (Hqlt : q < length (taskList w)) by (apply (inv_queue w HI); rewrite Hq; left).
    destruct (lookup_lt_is_Some_2 _ _ Hqlt) as [tq Htq].
    assert (Hne : q ≠ r).
    { intros ->. assert (Task.state task = Queued).
      { apply (ti_queued _ _ _ (inv_tasks w HI r task Ht)). rewrite Hq. left. }
      simplify_eq. congruence. }
    rewrite (runNextTask_cons now w0 q rest tq);
      [|done|by cbn; rewrite list_lookup_insert_ne].
    eexists. split; [done|]. split; [done|]. unfold dispatched.
    destruct (isError _); cbn.
    all: split; [done|]; split; [|done].
    all: rewrite list_lookup_insert_ne by done; by apply list_lookup_insert_eq.
Qed.

(** C6. While a task is running, the message handler throws (and settles
    and changes nothing but the log) exactly when the response carries
    another task id, or is a progress message whose result is not a number
    in [0, 100]; a progress message with such a number is passed to the
    progress callback of the running task. *)
Theorem C6_protocol_errors w event now r task :
  reachable w → runningTask w = Some r → taskList w !! r = Some task →
  let res := onmessage event now w in
  ((∃ e, res.1 = Thrown e) ↔
     IResponseMessage.taskId event ≠ Task.id task ∨
     (IResponseMessage.done event = false ∧
      ¬ validProgress (IResponseMessage.result event))) ∧
  (∀ e, res.1 = Thrown e →
     (∃ s, e = ThrownString s) ∧ sameTasks w res.2) ∧
  (IResponseMessage.taskId event = Task.id task →
   IResponseMessage.done event = false →
   ∀ q, IResponseMessage.result event = RPrim (PNum (Finite q)) →
        (0 <= q)%Q → (q <= 100)%Q →
     res.1 = Normal tt ∧
     calls res.2 = calls w ++
       match Task.onProgress task with
       | Some cb => [CalledProgress r cb (Finite q)]
       | None => []
       end ∧
     promises res.2 = promises w ∧ taskList res.2 = taskList w).
Proof.
  intros Hw Hr Ht res. subst res.
  pose proof (Inv_reachable w Hw) as HI.
  pose proof (sameTasks_logged event w) as Hlog.
  pose proof (Inv_sameTasks _ _ Hlog HI) as HI'.
  pose proof Hlog as (Ht' & Hr' & _ & _ & _ & Hp' & _ & Hc').
  rewrite (onmessage_running event now w r task Hr Ht).
  destruct (Z.eqb_spec (IResponseMessage.taskId event) (Task.id task)) as [Heq|Hne]; cbn [negb].
  2: { split; [|split].
       - split; [by left|by eexists].
       - intros e [= <-]. split; [by eexists|done].
       - done. }
  destruct (IResponseMessage.done event) eqn:Hdone.
  { rewrite <- Hr', <- Ht' in *.
    destruct (completeTask_running event now _ r task HI' Hr Ht)
      as (rs & w1 & _ & -> & _).
    split; [|split].
    - split; [by intros [e ?]|]. intros [?|[? _]]; done.
    - done.
    - done. }
  destruct (isProgress (IResponseMessage.result event)) as [n|] eqn:Hprog.
  - rewrite (updateProgress_eq r _ _ task) by (by rewrite Ht').
    assert (Hvalid : validProgress (IResponseMessage.result event))
      by (apply isProgress_valid; by eexists).
    split; [|split].
    + split; [by intros [e ?]|]. intros [?|[_ Hnv]]; done.
    + done.
    + intros _ _ q Hq H0 H1. rewrite Hq in Hprog. simpl in Hprog.
      apply Qle_bool_iff in H0, H1. rewrite H0, H1 in Hprog. injection Hprog as <-.
      destruct (Task.onProgress task); cbn; rewrite ?app_nil_r; by rewrite ?Hc', ?Hp', ?Ht'.
  - assert (Hnv : ¬ validProgress (IResponseMessage.result event)).
    { intros [n Hn]%isProgress_valid. congruence. }
    split; [|split].
    + split; [by right|by eexists].
    + intros e [= <-]. split; [by eexists|done].
    + intros _ _ q Hq H0 H1. destruct Hnv. by exists q.
Qed.

(** C7. When the terminal response of the running task arrives, its promise
    is fulfilled with [{timeTaken, message, result}] if the response reports
    success and is rejected with the message of the response otherwise;
    [timeTaken] is the time of completion less the recorded start time; and
    the task then holds neither the resolver, nor the rejecter, nor the
    promise. *)
Theorem C7_settlement w event now r task :
  reachable w → runningTask w = Some r → taskList w !! r = Some task →
  IResponseMessage.taskId event = Task.id task →
  IResponseMessage.done event = true →
  let res := onmessage event now w in
  res.1 = Normal tt ∧
  pstate <$> promises res.2 !! r =
    Some (if IResponseMessage.success event then
            Fulfilled {| ITaskResponse.timeTaken := now - Task.startTime task;
                         ITaskResponse.message := IResponseMessage.message event;
                         ITaskResponse.result := IResponseMessage.result event |}
          else Rejected (IResponseMessage.message event)) ∧
  ((∃ v, pstate <$> promises res.2 !! r = Some (Fulfilled v)) ↔
   IResponseMessage.success event = true) ∧
  ∃ task', taskList res.2 !! r = Some task' ∧
           Task.state task' = Completed ∧
           Task.resolve task' = None ∧ Task.reject task' = None ∧
           Task.promise task' = None.
Proof.
  intros Hw Hr Ht Hid Hdone res. subst res.
  pose proof (Inv_reachable w Hw) as HI.
  pose proof (sameTasks_logged event w) as Hlog.
  pose proof (Inv_sameTasks _ _ Hlog HI) as HI'.
  pose proof Hlog as (Ht' & Hr' & _ & _ & _ & Hp' & _ & Hc').
  rewrite (onmessage_running event now w r task Hr Ht).
  rewrite Hid, Z.eqb_refl, Hdone. cbn [negb].
  rewrite <- Hr', <- Ht' in *.
  destruct (completeTask_running event now _ r task HI' Hr Ht)
    as (rs & w1 & Hpr & -> & Hps & Htl & _).
  cbn [fst snd]. rewrite Hps.
  rewrite list_lookup_insert_eq by (by eapply lookup_lt_Some).
  unfold outcome. cbn.
  split; [done|]. split; [done|]. split.
  - destruct (IResponseMessage.success event); split; try done.
    + intros _. by eexists.
    + by intros [v ?].
  - eexists. split; [exact Htl|done].
Qed.

(** C8, as amended. A message that arrives while no task is running is
    dropped: the handler returns normally and the reader is as before,
    except that the log line of verbose mode has been written when verbose
    logging is on. *)
Theorem C8_message_when_idle w event now :
  runningTask w = None →
  onmessage event now w =
  (Normal tt,
   if verboseLogging w then set_console (console w ++ [LogReceived event]) w else w).
Proof. apply onmessage_idle. Qed.

(** ** Settlement and the caller's functions *)

Lemma handlerQuiet_sameTasks w w1 :
  microtasks w = [] → sameTasks w w1 → handlerQuiet w w1.
Proof.
  intros Hm (?&?&?&?&?&Hp&Hmt&Hc). split; [congruence|]. split.
  - intros p pr Hpr _. by rewrite Hp.
  - exists []. rewrite app_nil_r. split; [done|]. intros c Hc'. by apply elem_of_nil in Hc'.
Qed.

Lemma handlerQuiet_spawned action data now w w1 :
  Inv w → microtasks w = [] → sameTasks w w1 →
  handlerQuiet w (spawned action data now w1).
Proof.
  intros HI Hm (?&Hr&?&?&?&Hp&Hmt&Hc).
  assert (Hsp : microtasks (spawned action data now w1) = microtasks w1 ∧
              promises (spawned action data now w1) =
                promises w1 ++ [{| pstate := Pending; reactions := [] |}] ∧
              calls (spawned action data now w1) = calls w1).
  { destruct (runningTask w1) as [r|] eqn:Hr1.
    - by rewrite (spawned_busy _ _ _ _ r Hr1).
    - rewrite (spawned_idle _ _ _ _ Hr1). by destruct (isError data). }
  destruct Hsp as (E1 & E2 & E3). split; [congruence|]. split.
  - intros p pr Hpr _. rewrite E2, Hp. by apply lookup_app_l_Some.
  - exists []. rewrite app_nil_r. split; [congruence|].
    intros c Hc'. by apply elem_of_nil in Hc'.
Qed.

Lemma handlerQuiet_react p r w w1 :
  handlerQuiet w w1 → pendingAt (promises w1) p → handlerQuiet w (reactNow p r w1).
Proof.
  intros (Hm & Hp & new & Hc & Hnew) [rs Hrs]. unfold reactNow. rewrite Hrs. cbn.
  split; [done|]. split; cbn.
  - intros q pr Hq Hne. rewrite list_lookup_insert_ne; [by apply Hp|].
    intros ->. rewrite (Hp q pr Hq Hne) in Hrs. by simplify_eq.
  - by exists new.
Qed.

Lemma handlerQuiet_core w w1 :
  microtasks w = [] → microtasks w1 = microtasks w → promises w1 = promises w →
  calls w1 = calls w → handlerQuiet w w1.
Proof.
  intros Hm Hmt Hp Hc. split; [congruence|]. split.
  - intros p pr Hpr _. by rewrite Hp.
  - exists []. rewrite app_nil_r. split; [done|]. intros c Hc'. by apply elem_of_nil in Hc'.
Qed.

Lemma discard_snd {A} (c : M World A) w : (discard c w).2 = (c w).2.
Proof. unfold discard, bind. by destruct (c w) as [[a|e] w']. Qed.

Lemma discard_fst {A} (c : M World A) w :
  (discard c w).1 = match (c w).1 with Normal _ => Normal tt | Thrown e => Thrown e end.
Proof. unfold discard, bind. by destruct (c w) as [[a|e] w']. Qed.

Lemma held_promise_pending w i task p :
  Inv w → taskList w !! i = Some task → Task.promise task = Some p →
  p = i ∧ pendingAt (promises w) i ∧ Task.state task ≠ Completed.
Proof.
  intros HI Hi Hp. destruct (inv_tasks w HI i task Hi) as [_ _ _ H4 H5 _ _].
  assert (Hs : Task.state task ≠ Completed).
  { intros Hs. destruct (H5 Hs) as [[Hd _] _]. congruence. }
  destruct (H4 Hs) as [[Hh _] Hpend]. split; [congruence|done].
Qed.

Lemma react_summary w i r (c : M World nat) :
  Inv w → microtasks w = [] →
  (c = (let* task := deref i in
        match Task.promise task with
        | Some p => react p r
        | None => ret tt
        end ;;; ret i)) →
  handlerQuiet w (c w).2.
Proof.
  intros HI Hm ->. unfold bind at 1, deref.
  destruct (taskList w !! i) as [task|] eqn:Hi; [|by apply handlerQuiet_core].
  destruct (Task.promise task) as [p|] eqn:Hp; [|by apply handlerQuiet_core].
  destruct (held_promise_pending w i task p HI Hi Hp) as (-> & Hpend & _).
  cbn. apply handlerQuiet_react; [by apply handlerQuiet_core|done].
Qed.

(** A handler either settles the promise of the running task and leaves
    its reaction jobs, or settles nothing and calls at most the progress
    callback of the running task. *)
Lemma handle_summary w e now stack :
  Inv w → microtasks w = [] →
  handlerQuiet w (handle e now stack w).2 ∨ handlerSettles w (handle e now stack w).2.
Proof.
  intros HI Hm. destruct e as [a|i name|i name|i name|event|]; cbn [handle].
  - left. rewrite discard_snd.
    destruct (perform a now stack w) as [r w'] eqn:Hp. cbn [snd].
    destruct (perform_outcome _ _ _ _ _ _ Hp)
      as [(e & -> & Hs)|(action & data & w1 & -> & Hs & [->|(cb & ->)])].
    + by apply handlerQuiet_sameTasks.
    + by apply handlerQuiet_spawned.
    + apply handlerQuiet_react; [by apply handlerQuiet_spawned|].
      assert (Hps : promises (spawned action data now w1) =
                    promises w1 ++ [{| pstate := Pending; reactions := [] |}]).
      { destruct (runningTask w1) as [r|] eqn:Hr1.
        - by rewrite (spawned_busy _ _ _ _ r Hr1).
        - rewrite (spawned_idle _ _ _ _ Hr1). by destruct (isError data). }
      rewrite Hps. eexists. apply lookup_push.
  - left. rewrite discard_snd. by eapply react_summary.
  - left. rewrite discard_snd. by eapply react_summary.
  - left. rewrite discard_snd. by apply handlerQuiet_core.
  - destruct (runningTask w) as [r|] eqn:Hr.
    2: { left. rewrite onmessage_idle by done.
         apply handlerQuiet_sameTasks; [done|apply sameTasks_logged]. }
    destruct (running_task w r HI Hr) as (task & rs & Ht & _ & _ & Hpr).
    pose proof (sameTasks_logged event w) as Hlog.
    pose proof (Inv_sameTasks _ _ Hlog HI) as HI'.
    pose proof Hlog as (Ht' & Hr' & _ & _ & _ & Hp' & Hm' & Hc').
    rewrite (onmessage_running event now w r task Hr Ht).
    destruct (negb _); [left; by apply handlerQuiet_sameTasks|].
    destruct (IResponseMessage.done event).
    + right. rewrite <- Hr', <- Ht' in *.
      destruct (completeTask_running event now _ r task HI' Hr Ht)
        as (rs' & w1 & Hpr' & -> & Hps & _ & Hmt & Hcs & _).
      exists r, task, rs, (outcome event task now).
      rewrite Hp' in Hpr'. assert (rs' = rs) as -> by congruence.
      rewrite Hr', Ht' in *. split; [done|]. split; [done|]. split; [done|].
      split; [apply outcome_settled|]. cbn [snd]. rewrite Hps, Hmt, Hcs, Hp', Hm', Hm, Hc'.
      done.
    + left. destruct (isProgress _) as [n|]; [|by apply handlerQuiet_sameTasks].
      rewrite (updateProgress_eq r n _ task) by (by rewrite Ht'). cbn [snd].
      destruct (Task.onProgress task) as [cb|]; [|by apply handlerQuiet_sameTasks].
      split; [cbn; congruence|]. split; [intros p pr Hp _; cbn; by rewrite Hp'|].
      exists [CalledProgress r cb n]. cbn. rewrite Hc'. split; [done|].
      intros c ->%list_elem_of_singleton. done.
  - erewrite bind_eq by reflexivity.
    destruct (timers w) as [|i rest] eqn:Hti; [left; by apply handlerQuiet_core|].
    erewrite bind_eq by reflexivity.
    pose proof (Inv_set_timers_tail i rest w HI Hti) as HI'.
    destruct (inv_timers w HI i) as (ti & Hi & _); [rewrite Hti; left|].
    unfold timeoutCallback.
    erewrite bind_eq by (unfold deref; cbn; by rewrite Hi).
    destruct (runningTask w) as [r|] eqn:Hr.
    + right. destruct (running_task w r HI Hr) as (task & rs & Ht & _ & _ & Hpr).
      destruct (completeTask_running
                  {| IResponseMessage.success := false;
                     IResponseMessage.message :=
                       errorMessage (RequestMessage.data (Task.requestMessage ti));
                     IResponseMessage.result := RPrim PNull;
                     IResponseMessage.done := true;
                     IResponseMessage.taskId := Task.id ti |}
                  now (set_timers rest w) r task HI' Hr Ht)
        as (rs' & w1 & Hpr' & -> & Hps & _ & Hmt & Hcs & _).
      cbn in Hpr'. assert (rs' = rs) as -> by congruence.
      exists r, task, rs,
        (Rejected (errorMessage (RequestMessage.data (Task.requestMessage ti)))).
      split; [done|]. split; [done|]. split; [done|].
      split; [done|]. cbn [snd]. rewrite Hps, Hmt, Hcs. cbn.
      by rewrite Hm.
    + left. rewrite completeTask_idle by done. by apply handlerQuiet_core.
Qed.

Lemma sameOutcome_refl st : sameOutcome st st.
Proof. by destruct st. Qed.

Lemma sameOutcome_trans a b c : sameOutcome a b → sameOutcome b c → sameOutcome a c.
Proof. destruct a, b, c; simpl; try done; [intros [] []; split|]; congruence. Qed.

(** One reaction job: it touches no promise but its own, keeps the outcome
    of its own, and calls at most one function of the caller, for its own
    promise. *)
Lemma runJob_summary w j :
  (∀ p, p ≠ job_promise j → promises (runJob w j) !! p = promises w !! p) ∧
  (∀ pr, promises w !! job_promise j = Some pr →
     ∃ pr', promises (runJob w j) !! job_promise j = Some pr' ∧
            sameOutcome (pstate pr) (pstate pr')) ∧
  (∃ new, calls (runJob w j) = calls w ++ new ∧
          (∀ c, c ∈ new → invocationTask c = job_promise j) ∧
          ∀ pr, promises w !! job_promise j = Some pr →
            match pstate pr, job_reaction j with
            | Fulfilled v, OnFulfilled (UserCallback name) =>
                new = [CalledThen (job_promise j) name v]
            | Rejected reason, OnRejected name =>
                new = [CalledCatch (job_promise j) name reason]
            | _, _ => new = []
            end).
Proof.
  unfold runJob. destruct (promises w !! job_promise j) as [pr|] eqn:Hp.
  2: { split; [done|]. split; [done|]. exists []. rewrite app_nil_r.
       split; [done|]. split; [|done]. intros c Hc. by apply elem_of_nil in Hc. }
  assert (Hsame : (∀ p, p ≠ job_promise j → promises w !! p = promises w !! p) ∧
    ∀ pr0, Some pr = Some pr0 →
      ∃ pr', promises w !! job_promise j = Some pr' ∧ sameOutcome (pstate pr0) (pstate pr')).
  { split; [done|]. intros pr0 [= <-]. exists pr. split; [done|apply sameOutcome_refl]. }
  assert (Hnil : ∃ new, calls w = calls w ++ new ∧
            (∀ c, c ∈ new → invocationTask c = job_promise j) ∧ new = []).
  { exists []. rewrite app_nil_r. split; [done|]. split; [|done].
    intros c Hc. by apply elem_of_nil in Hc. }
  destruct (pstate pr) as [|v|reason] eqn:Hst;
    destruct (job_reaction j) as [cb|name] eqn:Hreact.
  - destruct Hsame, Hnil as (new & ? & ? & ->). split; [done|]. split; [done|].
    exists []. split; [done|]. split; [done|]. intros pr0 [= <-]. by rewrite Hst.
  - destruct Hsame, Hnil as (new & ? & ? & ->). split; [done|]. split; [done|].
    exists []. split; [done|]. split; [done|]. intros pr0 [= <-]. by rewrite Hst.
  - destruct cb as [f| |decode|name]; cbn.
    + destruct (resultLineCount _); cbn.
      all: destruct Hsame, Hnil as (new & ? & ? & ->); split; [done|]; split; [done|].
      all: exists []; split; [done|]; split; [done|]; intros pr0 [= <-]; by rewrite Hst.
    + destruct Hsame, Hnil as (new & ? & ? & ->). split; [done|]. split; [done|].
      exists []. split; [done|]. split; [done|]. intros pr0 [= <-]. by rewrite Hst.
    + split; [|split].
      * intros p Hne. by rewrite list_lookup_alter_ne.
      * intros pr0 [= <-]. rewrite list_lookup_alter_eq, Hp. cbn.
        eexists. split; [done|]. rewrite Hst. done.
      * destruct Hnil as (new & ? & ? & ->). exists []. split; [done|]. split; [done|].
        intros pr0 [= <-]. by rewrite Hst.
    + destruct Hsame. split; [done|]. split; [done|].
      exists [CalledThen (job_promise j) name v]. split; [done|]. split.
      * by intros c ->%list_elem_of_singleton.
      * intros pr0 [= <-]. by rewrite Hst.
  - destruct Hsame, Hnil as (new & ? & ? & ->). split; [done|]. split; [done|].
    exists []. split; [done|]. split; [done|]. intros pr0 [= <-]. by rewrite Hst.
  - destruct Hsame, Hnil as (new & ? & ? & ->). split; [done|]. split; [done|].
    exists []. split; [done|]. split; [done|]. intros pr0 [= <-]. by rewrite Hst.
  - destruct Hsame. cbn. split; [done|]. split; [done|].
    exists [CalledCatch (job_promise j) name reason]. split; [done|]. split.
    + by intros c ->%list_elem_of_singleton.
    + intros pr0 [= <-]. by rewrite Hst.
Qed.

(** The reaction jobs of one promise, run in order. *)
Lemma runJobs_summary r js : ∀ w,
  Forall (λ j, job_promise j = r) js →
  (∀ p, p ≠ r → promises (foldl runJob w js) !! p = promises w !! p) ∧
  (∀ pr, promises w !! r = Some pr →
     ∃ pr', promises (foldl runJob w js) !! r = Some pr' ∧
            sameOutcome (pstate pr) (pstate pr')) ∧
  ∃ new, calls (foldl runJob w js) = calls w ++ new ∧
         ∀ c, c ∈ new → invocationTask c = r.
Proof.
  induction js as [|j js IH]; intros w Hjs.
  - simpl. split; [done|]. split.
    + intros pr Hpr. exists pr. split; [done|apply sameOutcome_refl].
    + exists []. rewrite app_nil_r. split; [done|]. intros c Hc. by apply elem_of_nil in Hc.
  - apply Forall_cons in Hjs as [Hj Hjs]. simpl.
    destruct (runJob_summary w j) as (H1 & H2 & new1 & Hc1 & Hn1 & _).
    destruct (IH (runJob w j) Hjs) as (I1 & I2 & new2 & Hc2 & Hn2).
    rewrite Hj in *. split; [|split].
    + intros p Hp. by rewrite I1, H1.
    + intros pr Hpr. destruct (H2 pr Hpr) as (pr1 & Hpr1 & Hs1).
      destruct (I2 pr1 Hpr1) as (pr2 & Hpr2 & Hs2).
      exists pr2. split; [done|]. by eapply sameOutcome_trans.
    + exists (new1 ++ new2). rewrite Hc2, Hc1, app_assoc. split; [done|].
      intros c [Hc|Hc]%elem_of_app; [by apply Hn1|by apply Hn2].
Qed.

(** Every reaction registered before settlement is served by its job. *)
Lemma runJobs_deliver r js : ∀ w pr,
  Forall (λ j, job_promise j = r) js →
  promises w !! r = Some pr →
  (∀ name reason, pstate pr = Rejected reason →
     {| job_promise := r; job_reaction := OnRejected name |} ∈ js →
     CalledCatch r name reason ∈ calls (foldl runJob w js)) ∧
  (∀ name v, pstate pr = Fulfilled v →
     {| job_promise := r; job_reaction := OnFulfilled (UserCallback name) |} ∈ js →
     ∃ v', CalledThen r name v' ∈ calls (foldl runJob w js) ∧
           ITaskResponse.message v' = ITaskResponse.message v ∧
           ITaskResponse.timeTaken v' = ITaskResponse.timeTaken v).
Proof.
  induction js as [|j js IH]; intros w pr Hjs Hpr.
  { split; intros; by match goal with H : _ ∈ [] |- _ => apply elem_of_nil in H end. }
  apply Forall_cons in Hjs as [Hj Hjs]. simpl.
  destruct (runJob_summary w j) as (_ & H2 & new1 & Hc1 & _ & Hnew1).
  rewrite Hj in *. destruct (H2 pr Hpr) as (pr1 & Hpr1 & Hs1).
  specialize (Hnew1 pr Hpr).
  destruct (IH (runJob w j) pr1 Hjs Hpr1) as [IHr IHf].
  destruct (runJobs_summary r js (runJob w j) Hjs) as (_ & _ & new2 & Hc2 & _).
  split.
  - intros name reason Hst [Heq|Hin]%elem_of_cons.
    + subst j. rewrite Hst in Hnew1. cbn in Hnew1. rewrite Hc2, Hc1, Hnew1.
      rewrite !elem_of_app, list_elem_of_singleton. tauto.
    + apply IHr; [|done]. rewrite Hst in Hs1.
      destruct (pstate pr1); simpl in Hs1; [done| done |congruence].
  - intros name v Hst [Heq|Hin]%elem_of_cons.
    + subst j. rewrite Hst in Hnew1. cbn in Hnew1. exists v. split; [|done].
      rewrite Hc2, Hc1, Hnew1. rewrite !elem_of_app, list_elem_of_singleton. tauto.
    + rewrite Hst in Hs1. destruct (pstate pr1) as [|v1|] eqn:Hst1; try done.
      destruct Hs1 as [Hm1 Ht1].
      destruct (IHf name v1 eq_refl Hin) as (v' & Hv' & Hm' & Ht').
      exists v'. split; [done|]. split; congruence.
Qed.

Lemma elem_of_jobsFor p st rs r :
  r ∈ rs → reacts st r = true →
  {| job_promise := p; job_reaction := r |} ∈ jobsFor p st rs.
Proof.
  intros Hin Hr. unfold jobsFor. apply list_elem_of_In, in_map, filter_In.
  split; [by apply list_elem_of_In|done].
Qed.

Lemma jobsFor_promise p st rs : Forall (λ j, job_promise j = p) (jobsFor p st rs).
Proof.
  unfold jobsFor. apply Forall_forall. intros j Hj%list_elem_of_In%in_map_iff.
  by destruct Hj as (r & <- & _).
Qed.

(** C3, as amended. The promise of a task is pending until the task
    completes and settled from then on, and once it has settled nothing
    changes the outcome again; [then] and [catch] called on a completed task
    do nothing at all, so an observer registered after settlement is never
    called; no function of the caller, the progress observer included, is
    called for a completed task any more; and the observers that were
    registered before the terminal response are called with the outcome
    when it arrives. *)
Theorem C3_settles_once w :
  reachable w →
  (∀ i task, taskList w !! i = Some task → Task.state task ≠ Completed →
     pendingAt (promises w) i) ∧
  (∀ i task, taskList w !! i = Some task → Task.state task = Completed →
     settledAt (promises w) i ∧
     ∀ e now stack,
       promises (step e now stack w) !! i = promises w !! i ∧
       (∀ name, e = Then i name ∨ e = Catch i name → step e now stack w = w) ∧
       ∃ new, calls (step e now stack w) = calls w ++ new ∧
              ∀ c, c ∈ new → invocationTask c ≠ i) ∧
  (∀ r task rs event now stack,
     runningTask w = Some r → taskList w !! r = Some task →
     promises w !! r = Some {| pstate := Pending; reactions := rs |} →
     IResponseMessage.taskId event = Task.id task →
     IResponseMessage.done event = true →
     let w' := step (Message event) now stack w in
     (IResponseMessage.success event = false →
      ∀ name, OnRejected name ∈ rs →
        CalledCatch r name (IResponseMessage.message event) ∈ calls w') ∧
     (IResponseMessage.success event = true →
      ∀ name, OnFulfilled (UserCallback name) ∈ rs →
        ∃ v, CalledThen r name v ∈ calls w' ∧
             ITaskResponse.message v = IResponseMessage.message event ∧
             ITaskResponse.timeTaken v = (now - Task.startTime task)%Z)).
Proof.
  intros Hw. pose proof (Inv_reachable w Hw) as HI.
  pose proof (microtasks_reachable w Hw) as Hm.
  split.
  { intros i task Hi Hs.
    by destruct (ti_live _ _ _ (inv_tasks w HI i task Hi) Hs) as [_ Hp]. }
  split.
  - intros i task Hi Hs.
    destruct (inv_tasks w HI i task Hi) as [_ _ _ _ H5 H6 _].
    destruct (H5 Hs) as [(Hd & _ & _) Hset]. split; [done|].
    assert (Hnr : runningTask w ≠ Some i).
    { intros Hr%H6. congruence. }
    assert (Hnoop : ∀ e name, e = Then i name ∨ e = Catch i name →
              ∀ now stack, (handle e now stack w).2 = w).
    { intros e name [-> | ->] now stack; cbn [handle]; rewrite discard_snd.
      all: unfold then_, catch; erewrite bind_eq by (unfold deref; by rewrite Hi).
      all: by rewrite Hd. }
    intros e now stack. unfold step.
    destruct (handle_summary w e now stack HI Hm)
      as [(Hq & Hps & new & Hc & Hnew)|(r & tr & rs & st & Hr & Htr & Hpr & Hst & Hps & Hmt & Hc)].
    + rewrite runMicrotasks_quiet by done. split; [|split].
      * destruct Hset as (pr & Hpr & Hne). rewrite Hpr. by apply Hps.
      * intros name He. by eapply Hnoop.
      * exists new. split; [done|]. intros c Hin Heq. apply Hnr.
        rewrite <- Heq. by apply Hnew.
    + assert (Hne : i ≠ r) by congruence.
      unfold runMicrotasks. rewrite Hmt.
      destruct (runJobs_summary r (jobsFor r st rs)
                  (set_microtasks [] (handle e now stack w).2) (jobsFor_promise r st rs))
        as (H1 & _ & new & Hcs & Hnew).
      split; [|split].
      * rewrite H1 by done. cbn. rewrite Hps. by rewrite list_lookup_insert_ne.
      * intros name He. exfalso. rewrite (Hnoop e name He) in Hps.
        apply (f_equal (λ ps, ps !! r)) in Hps. cbn in Hps.
        rewrite list_lookup_insert_eq, Hpr in Hps by (by eapply lookup_lt_Some).
        by simplify_eq.
      * exists new. rewrite Hcs. cbn. rewrite Hc. split; [done|].
        intros c Hin. rewrite (Hnew c Hin). congruence.
  - intros r task rs event now stack Hr Ht Hpr Hid Hdone w'. subst w'.
    pose proof (sameTasks_logged event w) as Hlog.
    pose proof (Inv_sameTasks _ _ Hlog HI) as HI'.
    pose proof Hlog as (Ht' & Hr' & _ & _ & _ & Hp' & Hm' & Hc').
    unfold step. cbn [handle].
    rewrite (onmessage_running event now w r task Hr Ht).
    rewrite Hid, Z.eqb_refl, Hdone. cbn [negb].
    rewrite <- Hr', <- Ht' in *.
    destruct (completeTask_running event now _ r task HI' Hr Ht)
      as (rs' & w1 & Hpr' & -> & Hps & _ & Hmt & _).
    rewrite Hp' in Hpr'. assert (rs' = rs) as -> by congruence.
    cbn [snd]. unfold runMicrotasks. rewrite Hmt, Hm', Hm. cbn [app].
    assert (Hlook : promises (set_microtasks [] w1) !! r =
              Some {| pstate := outcome event task now; reactions := [] |}).
    { cbn. rewrite Hps, Hp'. apply list_lookup_insert_eq. by eapply lookup_lt_Some. }
    destruct (runJobs_deliver r (jobsFor r (outcome event task now) rs)
                (set_microtasks [] w1) _ (jobsFor_promise _ _ _) Hlook) as [Hrej Hful].
    unfold outcome in *. split.
    + intros Hs name Hin. rewrite Hs in *. apply Hrej; [done|].
      by apply elem_of_jobsFor.
    + intros Hs name Hin. rewrite Hs in *.
      destruct (Hful name _ eq_refl) as (v & Hv & Hmsg & Htime);
        [by apply elem_of_jobsFor|].
      exists v. done.
Qed.

(** ** What a turn never undoes *)

Lemma sameRequests_refl l : sameRequests l l.
Proof. intros i task Hi. by exists task. Qed.

Lemma sameRequests_trans l1 l2 l3 :
  sameRequests l1 l2 → sameRequests l2 l3 → sameRequests l1 l3.
Proof.
  intros H12 H23 i task Hi. destruct (H12 i task Hi) as (t2 & H2 & E2).
  destruct (H23 i t2 H2) as (t3 & H3 & E3). exists t3. split; [done|congruence].
Qed.

Lemma sameRequests_push l x : sameRequests l (l ++ [x]).
Proof. intros i task Hi. exists task. split; [by apply lookup_app_l_Some|done]. Qed.

Lemma sameRequests_insert l i t t0 :
  l !! i = Some t0 → Task.requestMessage t = Task.requestMessage t0 →
  sameRequests l (<[i := t]> l).
Proof.
  intros Hi E j task Hj. destruct (decide (j = i)) as [->|Hne].
  - exists t. split; [apply list_lookup_insert_eq; by eapply lookup_lt_Some|].
    congruence.
  - exists task. by rewrite list_lookup_insert_ne.
Qed.

Lemma sameRequests_alter (f : Task.t → Task.t) l i :
  (∀ t, Task.requestMessage (f t) = Task.requestMessage t) →
  sameRequests l (alter f i l).
Proof.
  intros Hf. destruct (l !! i) as [t0|] eqn:Hi.
  - rewrite (alter_lookup _ _ _ _ Hi). by eapply sameRequests_insert.
  - rewrite alter_None by done. apply sameRequests_refl.
Qed.

Lemma sameOutcome_settled st st' : sameOutcome st st' → st ≠ Pending → st' ≠ Pending.
Proof. by destruct st, st'. Qed.

Lemma keptSettled_refl ps : keptSettled ps ps.
Proof. intros i pr Hi _. exists pr. split; [done|apply sameOutcome_refl]. Qed.

Lemma keptSettled_trans p1 p2 p3 :
  keptSettled p1 p2 → keptSettled p2 p3 → keptSettled p1 p3.
Proof.
  intros H12 H23 i pr Hi Hne. destruct (H12 i pr Hi Hne) as (pr2 & H2 & E2).
  destruct (H23 i pr2 H2) as (pr3 & H3 & E3); [by eapply sameOutcome_settled|].
  exists pr3. split; [done|by eapply sameOutcome_trans].
Qed.

Lemma keptSettled_push ps x : keptSettled ps (ps ++ [x]).
Proof.
  intros i pr Hi _. exists pr. split; [by apply lookup_app_l_Some|apply sameOutcome_refl].
Qed.

Lemma keptSettled_insert ps i pr0 pr1 :
  ps !! i = Some pr0 → (pstate pr0 ≠ Pending → sameOutcome (pstate pr0) (pstate pr1)) →
  keptSettled ps (<[i := pr1]> ps).
Proof.
  intros Hi Hs j pr Hj Hne. destruct (decide (j = i)) as [->|Hn].
  - exists pr1. split; [apply list_lookup_insert_eq; by eapply lookup_lt_Some|].
    simplify_eq. by apply Hs.
  - exists pr. rewrite list_lookup_insert_ne by done. split; [done|apply sameOutcome_refl].
Qed.

Lemma later_refl w : later w w.
Proof. split; [apply sameRequests_refl|apply keptSettled_refl]. Qed.

Lemma later_trans w1 w2 w3 : later w1 w2 → later w2 w3 → later w1 w3.
Proof.
  intros [A1 B1] [A2 B2].
  split; [by eapply sameRequests_trans|by eapply keptSettled_trans].
Qed.

Lemma later_same w w' :
  taskList w' = taskList w → promises w' = promises w → later w w'.
Proof. intros Ht Hp. split; rewrite ?Ht, ?Hp; [apply sameRequests_refl|apply keptSettled_refl]. Qed.

Lemma loadFileAt_later w w' p : later w w' → loadFileAt w p → loadFileAt w' p.
Proof.
  intros [Hr _] (task & Ht & Hl). destruct (Hr p task Ht) as (task' & Ht' & E).
  exists task'. split; [done|]. unfold isLoadFile in *. by rewrite E.
Qed.

Lemma loadFileFulfilled_later w w' :
  later w w' → loadFileFulfilled w → loadFileFulfilled w'.
Proof.
  intros Hl (i & task & Ht & Hlf & pr & v & Hp & Hst).
  destruct (loadFileAt_later w w' i Hl) as (task' & Ht' & Hlf'); [by exists task|].
  exists i, task'. split; [done|]. split; [done|].
  destruct Hl as [_ Hk]. destruct (Hk i pr Hp) as (pr' & Hp' & Hs); [by rewrite Hst|].
  rewrite Hst in Hs. destruct (pstate pr') as [|v'|] eqn:Hst'; try done.
  by exists pr', v'.
Qed.

Lemma Loaded_ext w w' :
  Loaded w → later w w' →
  (file w' = None ∨ file w' = file w) →
  (∀ p pr' r, promises w' !! p = Some pr' → r ∈ reactions pr' → loadReaction r →
     ∃ pr, promises w !! p = Some pr ∧ r ∈ reactions pr) →
  (∀ j, j ∈ microtasks w' → loadReaction (job_reaction j) →
     j ∈ microtasks w ∨
     ∃ pr, promises w !! job_promise j = Some pr ∧ job_reaction j ∈ reactions pr) →
  Loaded w'.
Proof.
  intros [L1 L2 L3] Hl Hf Hr Hj. split.
  - intros Hne. apply (loadFileFulfilled_later w); [done|]. apply L1.
    destruct Hf as [Hf|Hf]; congruence.
  - intros p pr' r Hp Hin Hlr. destruct (Hr p pr' r Hp Hin Hlr) as (pr & Hp0 & Hin0).
    apply (loadFileAt_later w); [done|]. by eapply L2.
  - intros j Hin Hlr. apply (loadFileAt_later w); [done|].
    destruct (Hj j Hin Hlr) as [H|(pr & Hp & Hr0)]; [by apply L3|by eapply L2].
Qed.

Lemma Loaded_same w w' :
  taskList w' = taskList w → promises w' = promises w →
  microtasks w' = microtasks w → (file w' = None ∨ file w' = file w) →
  Loaded w → Loaded w'.
Proof.
  intros Ht Hp Hm Hf HL. eapply Loaded_ext; [done|by apply later_same|done|..].
  - intros p pr' r Hp' Hin _. exists pr'. by rewrite <- Hp.
  - intros j Hin _. left. by rewrite <- Hm.
Qed.

Lemma elem_of_jobsFor_inv j p st rs :
  j ∈ jobsFor p st rs → job_promise j = p ∧ job_reaction j ∈ rs.
Proof.
  unfold jobsFor. intros Hin. apply list_elem_of_In, in_map_iff in Hin.
  destruct Hin as (r & <- & Hr). apply filter_In in Hr as [Hr _].
  split; [done|]. by apply list_elem_of_In.
Qed.

Lemma later_spawned action data now w : later w (spawned action data now w).
Proof.
  destruct (runningTask w) as [r|] eqn:Hr.
  - rewrite (spawned_busy _ _ _ _ r Hr).
    split; cbn; [apply sameRequests_push|apply keptSettled_push].
  - rewrite (spawned_idle _ _ _ _ Hr).
    split; cbn; [apply sameRequests_push|].
    destruct (isError data); cbn; apply keptSettled_push.
Qed.

Lemma Loaded_spawned action data now w :
  Loaded w → Loaded (spawned action data now w).
Proof.
  intros HL. eapply Loaded_ext; [done|apply later_spawned|..].
  - right. destruct (runningTask w) as [r|] eqn:Hr.
    + by rewrite (spawned_busy _ _ _ _ r Hr).
    + rewrite (spawned_idle _ _ _ _ Hr). cbn. by destruct (isError data).
  - assert (Hp : promises (spawned action data now w) =
                 promises w ++ [{| pstate := Pending; reactions := [] |}]).
    { destruct (runningTask w) as [r|] eqn:Hr.
      + by rewrite (spawned_busy _ _ _ _ r Hr).
      + rewrite (spawned_idle _ _ _ _ Hr). cbn. by destruct (isError data). }
    rewrite Hp. intros p pr' r Hl Hin _.
    apply lookup_push_Some in Hl as [Hl|[_ ->]]; [by exists pr'|].
    cbn in Hin. by apply elem_of_nil in Hin.
  - assert (Hm : microtasks (spawned action data now w) = microtasks w).
    { destruct (runningTask w) as [r|] eqn:Hr.
      + by rewrite (spawned_busy _ _ _ _ r Hr).
      + rewrite (spawned_idle _ _ _ _ Hr). cbn. by destruct (isError data). }
    rewrite Hm. intros j Hin _. by left.
Qed.

Lemma later_reactNow p r w : later w (reactNow p r w).
Proof.
  unfold reactNow. destruct (promises w !! p) as [pr|] eqn:Hp; [|apply later_refl].
  destruct (pstate pr) eqn:Hst; [|by apply later_same..].
  split; cbn; [apply sameRequests_refl|].
  eapply keptSettled_insert; [done|]. by rewrite Hst.
Qed.

Lemma Loaded_reactNow p r w :
  Loaded w → (loadReaction r → loadFileAt w p) → Loaded (reactNow p r w).
Proof.
  intros HL Hr. pose proof (later_reactNow p r w) as Hl. revert Hl.
  unfold reactNow. destruct (promises w !! p) as [pr|] eqn:Hp; [|done].
  destruct HL as [L1 L2 L3].
  destruct (pstate pr) eqn:Hst; intros Hl.
  - split; cbn.
    + intros Hne. eapply loadFileFulfilled_later; [exact Hl|by apply L1].
    + intros q pr' r0 Hq Hin Hlr. destruct (decide (q = p)) as [->|Hne].
      * rewrite list_lookup_insert_eq in Hq by (by eapply lookup_lt_Some).
        injection Hq as <-. cbn in Hin. apply elem_of_app in Hin as [Hin|Hin].
        -- by eapply L2.
        -- apply list_elem_of_singleton in Hin as ->. by apply Hr.
      * rewrite list_lookup_insert_ne in Hq by done. by eapply L2.
    + done.
  - split; cbn -[jobsFor]; [done|done|].
    intros j Hin Hlr. apply elem_of_app in Hin as [Hin|Hin]; [by apply L3|].
    apply elem_of_jobsFor_inv in Hin as [<- Hin].
    apply list_elem_of_singleton in Hin. rewrite Hin in Hlr. by apply Hr.
  - split; cbn -[jobsFor]; [done|done|].
    intros j Hin Hlr. apply elem_of_app in Hin as [Hin|Hin]; [by apply L3|].
    apply elem_of_jobsFor_inv in Hin as [<- Hin].
    apply list_elem_of_singleton in Hin. rewrite Hin in Hlr. by apply Hr.
Qed.

Lemma later_dispatched i task now w :
  taskList w !! i = Some task → later w (dispatched i task now w).
Proof.
  intros Hi. split; cbn.
  - by eapply sameRequests_insert.
  - destruct (isError _); apply keptSettled_refl.
Qed.

Lemma Loaded_dispatched i task now w :
  taskList w !! i = Some task → Loaded w → Loaded (dispatched i task now w).
Proof.
  intros Hi HL. eapply Loaded_ext; [done|by apply later_dispatched|..].
  - right. unfold dispatched. cbn. by destruct (isError _).
  - unfold dispatched. cbn. intros p pr' r Hp Hin _. exists pr'.
    by destruct (isError _).
  - unfold dispatched. cbn. intros j Hin _. left. by destruct (isError _).
Qed.

Lemma later_retired r task st rs w :
  taskList w !! r = Some task →
  promises w !! r = Some {| pstate := Pending; reactions := rs |} →
  later w (retired r task st rs w).
Proof.
  intros Ht Hp. split; cbn.
  - by eapply sameRequests_insert.
  - by eapply keptSettled_insert.
Qed.

Lemma Loaded_retired r task st rs w :
  taskList w !! r = Some task →
  promises w !! r = Some {| pstate := Pending; reactions := rs |} →
  Loaded w → Loaded (retired r task st rs w).
Proof.
  intros Ht Hp HL. eapply Loaded_ext; [done|by apply later_retired|by right|..]; cbn -[jobsFor].
  - intros p pr' r0 Hq Hin _. destruct (decide (p = r)) as [->|Hne].
    + rewrite list_lookup_insert_eq in Hq by (by eapply lookup_lt_Some).
      injection Hq as <-. cbn in Hin. by apply elem_of_nil in Hin.
    + rewrite list_lookup_insert_ne in Hq by done. by exists pr'.
  - intros j Hin _. apply elem_of_app in Hin as [Hin|Hin]; [by left|].
    apply elem_of_jobsFor_inv in Hin as [-> Hin]. right. by eexists.
Qed.

(** The three ways [completeTask] can go. *)
Lemma completeTask_cases response now w :
  Inv w →
  ∃ w', completeTask response now w = (Normal tt, w') ∧
    (runningTask w = None ∧ w' = w ∨
     ∃ r task rs,
       runningTask w = Some r ∧ taskList w !! r = Some task ∧
       promises w !! r = Some {| pstate := Pending; reactions := rs |} ∧
       let w1 := retired r task (outcome response task now) rs w in
       (w' = w1 ∨
        ∃ q rest tq, queuedTaskList w = q :: rest ∧ taskList w1 !! q = Some tq ∧
                     w' = dispatched q tq now (set_queuedTaskList rest w1))).
Proof.
  intros HI. destruct (runningTask w) as [r|] eqn:Hr.
  - destruct (running_task w r HI Hr) as (task & rs & Ht & Hs & (Hp & Hres & Hrej) & Hpr).
    rewrite (completeTask_eq r r task) by done.
    rewrite (finished_eq r task _ rs) by done.
    set (w1 := retired r task (outcome response task now) rs w).
    assert (HI1 : Inv w1) by (apply Inv_retired; try done; apply outcome_settled).
    destruct (queuedTaskList w) as [|q rest] eqn:Hq.
    + rewrite runNextTask_nil by done. exists w1. split; [done|]. right.
      exists r, task, rs. repeat split; try done. by left.
    + assert (Hlt : q < length (taskList w1)).
      { apply (inv_queue w1 HI1). cbn. rewrite Hq. left. }
      destruct (lookup_lt_is_Some_2 _ _ Hlt) as [tq Htq].
      rewrite (runNextTask_cons now w1 q rest tq) by done.
      eexists. split; [done|]. right. exists r, task, rs. repeat split; try done.
      right. by exists q, rest, tq.
  - rewrite completeTask_idle by done. exists w. split; [done|by left].
Qed.

Lemma advance_completeTask response now : advance (completeTask response now).
Proof.
  intros w HI HL.
  destruct (completeTask_cases response now w HI) as (w' & -> & [[_ ->]|H]).
  { split; [done|apply later_refl]. }
  destruct H as (r & task & rs & Hr & Ht & Hp & [->|(q & rest & tq & Hq & Htq & ->)]); cbn [snd].
  - split; [by apply Loaded_retired|by apply later_retired].
  - set (w1 := retired r task (outcome response task now) rs w) in *.
    assert (HL1 : Loaded w1) by (by apply Loaded_retired).
    assert (Hl1 : later w w1) by (by apply later_retired).
    assert (HL2 : Loaded (set_queuedTaskList rest w1)).
    { eapply Loaded_same; [..|exact HL1]; try done. by right. }
    split; [by apply Loaded_dispatched|].
    eapply later_trans; [exact Hl1|].
    eapply later_trans; [|by apply later_dispatched]. by apply later_same.
Qed.

Lemma advance_ret {A} (a : A) : advance (ret a).
Proof. intros w _ HL. split; [done|apply later_refl]. Qed.

Lemma advance_throw {A} (e : exn) : advance (@throw World A e).
Proof. intros w _ HL. split; [done|apply later_refl]. Qed.

Lemma advance_gets {A} (f : World → A) : advance (gets f).
Proof. intros w _ HL. split; [done|apply later_refl]. Qed.

Lemma advance_bind {A B} (c : M World A) (k : A → M World B) :
  keeps c → advance c → (∀ a, advance (k a)) → advance (bind c k).
Proof.
  intros Hk Hc Hka w HI HL. unfold bind.
  specialize (Hk w HI). destruct (Hc w HI HL) as [HL1 Hl1].
  destruct (c w) as [[a|e] w1]; [|done].
  destruct (Hka a w1 Hk HL1) as [HL2 Hl2]. split; [done|by eapply later_trans].
Qed.

Lemma advance_modify (f : World → World) :
  (∀ w, taskList (f w) = taskList w ∧ promises (f w) = promises w ∧
        microtasks (f w) = microtasks w ∧ (file (f w) = None ∨ file (f w) = file w)) →
  advance (modify f).
Proof.
  intros Hf w _ HL. destruct (Hf w) as (Ht & Hp & Hm & Hfile). cbn.
  split; [by eapply Loaded_same|by apply later_same].
Qed.

Lemma keeps_same (f : World → World) :
  (∀ w, taskList (f w) = taskList w ∧ runningTask (f w) = runningTask w ∧
        queuedTaskList (f w) = queuedTaskList w ∧ promises (f w) = promises w ∧
        worker (f w) = worker w ∧ timers (f w) = timers w) →
  keeps (modify f).
Proof.
  intros Hf. apply keeps_modify. intros w HI.
  destruct (Hf w) as (? & ? & ? & ? & ? & ?). by eapply Inv_ext; [..|done].
Qed.

Lemma advance_newTask action data now : advance (newTask action data now).
Proof.
  intros w _ HL. rewrite newTask_eq. split; [by apply Loaded_spawned|apply later_spawned].
Qed.

Lemma advance_newTask_then action data now cb :
  (loadReaction (OnFulfilled cb) → action = "loadFile") →
  advance (let* task := newTask action data now in then_ task cb).
Proof.
  intros Hcb w HI HL. rewrite newTask_then. cbn [snd]. split.
  - apply Loaded_reactNow; [by apply Loaded_spawned|]. intros Hlr.
    destruct (spawned_lookup action data now w) as (task & Ht & _ & Hreq & _).
    rewrite (inv_promises w HI). exists task. split; [done|].
    unfold isLoadFile. rewrite Hreq. cbn. by apply Hcb.
  - eapply later_trans; [apply later_spawned|apply later_reactNow].
Qed.

Lemma advance_react i r (c : M World nat) :
  ¬ loadReaction r →
  (c = (let* task := deref i in
        match Task.promise task with
        | Some p => react p r
        | None => ret tt
        end ;;; ret i)) →
  advance c.
Proof.
  intros Hr -> w HI HL. unfold bind, deref.
  destruct (taskList w !! i) as [task|]; [|split; [done|apply later_refl]].
  destruct (Task.promise task) as [p|]; cbn; [|split; [done|apply later_refl]].
  split; [by apply Loaded_reactNow|apply later_reactNow].
Qed.

Lemma advance_progress i cb : advance (progress i cb).
Proof.
  intros w HI HL. cbn. split.
  - eapply Loaded_ext; [done| |by right|..]; cbn.
    + split; cbn; [by apply sameRequests_alter|apply keptSettled_refl].
    + intros p pr' r Hp Hin _. by exists pr'.
    + intros j Hin _. by left.
  - split; cbn; [by apply sameRequests_alter|apply keptSettled_refl].
Qed.

Lemma advance_marshalConfig stack config : advance (marshalConfig stack config).
Proof.
  intros w _ HL. destruct (marshalConfig stack config w) as [r w'] eqn:Hm.
  destruct (marshalConfig_frame _ _ _ _ _ Hm) as (_ & -> & _). cbn.
  split; [|by apply later_same]. eapply Loaded_same; [..|exact HL]; try done. by right.
Qed.

Lemma advance_deref i : advance (deref i).
Proof. intros w _ HL. unfold deref. destruct (taskList w !! i); (split; [done|apply later_refl]). Qed.

Lemma advance_updateProgress i n : advance (updateProgress i n).
Proof.
  apply advance_bind; [apply keeps_deref|apply advance_deref|].
  intros task. destruct (Task.onProgress task); [|apply advance_ret].
  apply advance_modify. intros w. cbn. repeat split; by right.
Qed.

Lemma advance_onmessage event now : advance (onmessage event now).
Proof.
  apply advance_bind; [apply keeps_gets|apply advance_gets|]. intros verbose.
  apply advance_bind.
  { destruct verbose; [|apply keeps_ret]. by apply keeps_same. }
  { destruct verbose; [|apply advance_ret].
    apply advance_modify. intros w. cbn. repeat split; by right. }
  intros _. apply advance_bind; [apply keeps_gets|apply advance_gets|].
  intros [r|]; [|apply advance_ret].
  apply advance_bind; [apply keeps_deref|apply advance_deref|]. intros task.
  destruct (negb _); [apply advance_throw|].
  destruct (IResponseMessage.done event); [apply advance_completeTask|].
  destruct (isProgress _); [apply advance_updateProgress|apply advance_throw].
Qed.

Lemma keeps_newTask_then action data now cb :
  keeps (let* task := newTask action data now in then_ task cb).
Proof. apply keeps_bind; [apply keeps_newTask|]. intros i. apply keeps_then. Qed.

Lemma advance_perform a now stack : advance (perform a now stack).
Proof.
  destruct a; cbn.
  - apply advance_newTask.
  - apply advance_bind.
    { by apply keeps_same. }
    { apply advance_modify. intros w. cbn. repeat split; by left. }
    intros _. apply advance_bind.
    { destruct (truthy config); [|apply keeps_ret].
      apply keeps_bind; [apply keeps_marshalConfig|]. intros; apply keeps_ret. }
    { destruct (truthy config); [|apply advance_ret].
      apply advance_bind; [apply keeps_marshalConfig|apply advance_marshalConfig|].
      intros; apply advance_ret. }
    intros c. by apply advance_newTask_then.
  - apply advance_newTask.
  - apply advance_bind; [by apply keeps_same| |intros; apply advance_newTask].
    apply advance_modify. intros w. cbn. repeat split; by right.
  - apply advance_bind; [apply keeps_gets|apply advance_gets|].
    intros [f|]; [|apply advance_newTask].
    apply advance_bind; [by apply keeps_same| |].
    { apply advance_modify. intros w. cbn. repeat split; by right. }
    intros _. apply advance_newTask_then. by intros [f' [=]].
  - apply advance_bind; [apply keeps_gets|apply advance_gets|].
    intros [f|]; [|apply advance_newTask].
    apply advance_newTask_then. by intros [f' [=]].
  - apply advance_newTask.
  - apply advance_bind; [apply keeps_gets|apply advance_gets|].
    intros [f|]; [|apply advance_newTask].
    apply advance_bind; [apply keeps_marshalConfig|apply advance_marshalConfig|].
    intros; apply advance_newTask.
  - apply advance_bind; [apply keeps_marshalConfig|apply advance_marshalConfig|].
    intros; apply advance_newTask.
Qed.

Lemma advance_handle e now stack : advance (handle e now stack).
Proof.
  destruct e; cbn; unfold discard.
  - apply advance_bind; [apply keeps_perform|apply advance_perform|intros; apply advance_ret].
  - apply advance_bind; [apply keeps_then| |intros; apply advance_ret].
    eapply advance_react; [|reflexivity]. by intros [f [=]].
  - apply advance_bind; [apply keeps_catch| |intros; apply advance_ret].
    eapply advance_react; [|reflexivity]. by intros [f [=]].
  - apply advance_bind; [apply keeps_progress|apply advance_progress|intros; apply advance_ret].
  - apply advance_onmessage.
  - intros w HI HL. unfold bind, gets. destruct (timers w) as [|i rest] eqn:Ht.
    { split; [done|apply later_refl]. }
    cbn. pose proof (Inv_set_timers_tail i rest w HI Ht) as HI'.
    assert (HL' : Loaded (set_timers rest w)).
    { eapply Loaded_same; [..|exact HL]; try done. by right. }
    assert (Hl : later w (set_timers rest w)) by (by apply later_same).
    revert HI' HL' Hl. generalize (set_timers rest w). intros w' HI' HL' Hl.
    destruct (advance_bind (deref i) (λ task, completeTask
                {| IResponseMessage.success := false;
                   IResponseMessage.message :=
                     errorMessage (RequestMessage.data (Task.requestMessage task));
                   IResponseMessage.result := RPrim PNull;
                   IResponseMessage.done := true;
                   IResponseMessage.taskId := Task.id task |} now)
                (keeps_deref i) (advance_deref i)
                (λ task, advance_completeTask _ now) w' HI' HL') as [H1 H2].
    split; [exact H1|]. eapply later_trans; [exact Hl|exact H2].
Qed.

Lemma later_runJob w j : later w (runJob w j).
Proof.
  destruct (runJob_sameScheduler w j) as (Ht & _).
  destruct (runJob_summary w j) as (Hother & Hown & _).
  split; [rewrite Ht; apply sameRequests_refl|].
  intros i pr Hi _. destruct (decide (i = job_promise j)) as [->|Hne].
  - by apply Hown.
  - exists pr. rewrite Hother by done. split; [done|apply sameOutcome_refl].
Qed.

Lemma Loaded_runJob w j :
  Loaded w → (loadReaction (job_reaction j) → loadFileAt w (job_promise j)) →
  Loaded (runJob w j).
Proof.
  intros HL Hj. pose proof (later_runJob w j) as Hl. revert Hl. unfold runJob.
  destruct (promises w !! job_promise j) as [pr|] eqn:Hp; [|done].
  destruct (pstate pr) as [|v|reason] eqn:Hst, (job_reaction j) as [cb|name];
    try done.
  - destruct cb as [f| |decode|name]; cbn; try done.
    + destruct (resultLineCount _); [|done]. intros Hl.
      destruct HL as [L1 L2 L3]. split; cbn; [|done..].
      intros _. destruct Hj as (task & Ht & Hlf); [by exists f|].
      exists (job_promise j), task. split; [done|]. split; [done|]. by exists pr, v.
    + intros Hl. eapply Loaded_ext; [done|exact Hl|by right|..]; cbn.
      * intros p pr' r Hq Hin Hlr. rewrite (alter_lookup _ _ _ _ Hp) in Hq.
        destruct (decide (p = job_promise j)) as [->|Hne].
        -- rewrite list_lookup_insert_eq in Hq by (by eapply lookup_lt_Some).
           injection Hq as <-. by exists pr.
        -- rewrite list_lookup_insert_ne in Hq by done. by exists pr'.
      * intros j' Hin _. by left.
    + intros _. eapply Loaded_same; [..|exact HL]; try done. by right.
  - intros _. eapply Loaded_same; [..|exact HL]; try done. by right.
Qed.

Lemma Loaded_runMicrotasks w : Loaded w → Loaded (runMicrotasks w) ∧ later w (runMicrotasks w).
Proof.
  intros HL. unfold runMicrotasks.
  assert (HL0 : Loaded (set_microtasks [] w)).
  { destruct HL as [L1 L2 L3]. split; cbn; [done|done|].
    intros j Hin. by apply elem_of_nil in Hin. }
  assert (Hjs : ∀ j, j ∈ microtasks w → loadReaction (job_reaction j) →
                     loadFileAt (set_microtasks [] w) (job_promise j)).
  { intros j Hin Hlr. by apply (ld_jobs w HL). }
  assert (Hl0 : later w (set_microtasks [] w)) by (by apply later_same).
  revert HL0 Hjs Hl0. generalize (set_microtasks [] w). clear HL.
  induction (microtasks w) as [|j js IH]; intros w0 HL0 Hjs Hl0; [done|].
  cbn. apply IH.
  - apply Loaded_runJob; [done|]. intros Hlr. apply Hjs; [left|done].
  - intros j' Hin Hlr. eapply loadFileAt_later; [apply later_runJob|].
    apply Hjs; [by right|done].
  - eapply later_trans; [exact Hl0|apply later_runJob].
Qed.

Lemma Loaded_init h : Loaded (init h).
Proof.
  split; cbn; [done|..].
  - intros p pr r Hp. by rewrite lookup_nil in Hp.
  - intros j Hin. by apply elem_of_nil in Hin.
Qed.

(** A turn keeps the account of [file], and undoes nothing. *)
Lemma Loaded_step e now stack w :
  Inv w → Loaded w → Loaded (step e now stack w) ∧ later w (step e now stack w).
Proof.
  intros HI HL. destruct (advance_handle e now stack w HI HL) as [H1 H2].
  destruct (Loaded_runMicrotasks _ H1) as [H3 H4].
  split; [exact H3|]. by eapply later_trans.
Qed.

Lemma Loaded_reachable w : reachable w → Loaded w.
Proof.
  induction 1 as [h|w e now stack Hw IH]; [apply Loaded_init|].
  apply Loaded_step; [by apply Inv_reachable|done].
Qed.

Lemma reachable_run turns : ∀ w, reachable w → reachable (run turns w).
Proof.
  induction turns as [|[[e now] stack] turns IH]; intros w Hw; [done|].
  cbn. apply IH. by constructor.
Qed.

Lemma later_run turns : ∀ w, reachable w → later w (run turns w).
Proof.
  induction turns as [|[[e now] stack] turns IH]; intros w Hw; [apply later_refl|].
  cbn. eapply later_trans; [|apply IH; by constructor].
  apply Loaded_step; [by apply Inv_reachable|by apply Loaded_reachable].
Qed.

(** Before any [loadFile] has completed successfully, no file is loaded. *)
Lemma file_None w : reachable w → ¬ loadFileFulfilled w → file w = None.
Proof.
  intros Hw Hno. destruct (file w) eqn:Hf; [|done].
  exfalso. apply Hno. apply (ld_file w (Loaded_reachable w Hw)). by rewrite Hf.
Qed.

Lemma promises_spawned action data now w :
  promises (spawned action data now w) =
  promises w ++ [{| pstate := Pending; reactions := [] |}].
Proof.
  destruct (runningTask w) as [r|] eqn:Hr.
  - by rewrite (spawned_busy _ _ _ _ r Hr).
  - rewrite (spawned_idle _ _ _ _ Hr). cbn. by destruct (isError data).
Qed.

Lemma microtasks_spawned action data now w :
  microtasks (spawned action data now w) = microtasks w.
Proof.
  destruct (runningTask w) as [r|] eqn:Hr.
  - by rewrite (spawned_busy _ _ _ _ r Hr).
  - rewrite (spawned_idle _ _ _ _ Hr). cbn. by destruct (isError data).
Qed.

(** The turn in which the running task completes. *)
Lemma settling_turn response now w r task rs :
  Inv w → microtasks w = [] → runningTask w = Some r → taskList w !! r = Some task →
  promises w !! r = Some {| pstate := Pending; reactions := rs |} →
  let w' := runMicrotasks (completeTask response now w).2 in
  (completeTask response now w).1 = Normal tt ∧
  (∃ pr', promises w' !! r = Some pr' ∧
          sameOutcome (outcome response task now) (pstate pr')) ∧
  (IResponseMessage.success response = false →
   ∀ name, OnRejected name ∈ rs →
     CalledCatch r name (IResponseMessage.message response) ∈ calls w') ∧
  (IResponseMessage.success response = true →
   ∀ name, OnFulfilled (UserCallback name) ∈ rs →
     ∃ v, CalledThen r name v ∈ calls w' ∧
          ITaskResponse.message v = IResponseMessage.message response ∧
          ITaskResponse.timeTaken v = (now - Task.startTime task)%Z).
Proof.
  intros HI Hm Hr Ht Hpr w'. subst w'.
  destruct (completeTask_running response now w r task HI Hr Ht)
    as (rs' & w1 & Hpr' & -> & Hps & _ & Hmt & _).
  assert (rs' = rs) as -> by congruence.
  cbn [fst snd]. unfold runMicrotasks. rewrite Hmt, Hm. cbn [app].
  assert (Hlook : promises (set_microtasks [] w1) !! r =
            Some {| pstate := outcome response task now; reactions := [] |}).
  { cbn. rewrite Hps. apply list_lookup_insert_eq. by eapply lookup_lt_Some. }
  destruct (runJobs_deliver r (jobsFor r (outcome response task now) rs)
              (set_microtasks [] w1) _ (jobsFor_promise _ _ _) Hlook) as [Hrej Hful].
  destruct (runJobs_summary r (jobsFor r (outcome response task now) rs)
              (set_microtasks [] w1) (jobsFor_promise _ _ _)) as (_ & Hown & _).
  split; [done|]. split; [exact (Hown _ Hlook)|].
  unfold outcome in *. split.
  - intros Hs name Hin. rewrite Hs in *. apply Hrej; [done|].
    by apply elem_of_jobsFor.
  - intros Hs name Hin. rewrite Hs in *.
    destruct (Hful name _ eq_refl) as (v & Hv & Hmsg & Htime);
      [by apply elem_of_jobsFor|].
    exists v. done.
Qed.

(** ** A worker that only answers *)

Lemma answered_reachable w : answered w → reachable w.
Proof. induction 1; by constructor. Qed.

Lemma answered_run turns : ∀ w, answered w → answeredRun turns w → answered (run turns w).
Proof.
  induction turns as [|[[e now] stack] turns IH]; intros w Hw Hr; [done|].
  destruct Hr as [He Hr]. cbn. apply IH; [by constructor|done].
Qed.

Lemma errorRunning_ext w w' :
  runningTask w' = runningTask w →
  (∀ i, Task.requestMessage <$> taskList w' !! i =
        Task.requestMessage <$> taskList w !! i) →
  errorRunning w' = errorRunning w.
Proof.
  intros Hr Hreq. unfold errorRunning. rewrite Hr.
  destruct (runningTask w) as [r|]; [|done]. specialize (Hreq r).
  destruct (taskList w' !! r) as [t'|], (taskList w !! r) as [t|]; try done.
  cbn in Hreq. injection Hreq as Hreq. unfold errorTask. by rewrite Hreq.
Qed.

Lemma localOutcome_same task task' st st' :
  Task.requestMessage task' = Task.requestMessage task →
  sameOutcome st st' → localOutcome task st → localOutcome task' st'.
Proof.
  intros Hreq Hs [->| ->]; unfold localOutcome; rewrite Hreq.
  - left. by destruct st'.
  - right. destruct st'; try done. cbn in Hs. by rewrite Hs.
Qed.

Lemma Timed_ext w w' :
  timers w' = timers w → runningTask w' = runningTask w →
  (∀ i, Task.requestMessage <$> taskList w' !! i =
        Task.requestMessage <$> taskList w !! i) →
  (∀ i pr', promises w' !! i = Some pr' →
     ∃ pr, promises w !! i = Some pr ∧ sameOutcome (pstate pr) (pstate pr')) →
  Timed w → Timed w'.
Proof.
  intros Ht Hr Hreq Hst [T1 T2]. split.
  - rewrite Ht, T1. symmetry. by apply errorRunning_ext.
  - intros i task' pr' Hi He Hp. specialize (Hreq i). rewrite Hi in Hreq.
    destruct (taskList w !! i) as [task|] eqn:Hi0; [|done].
    cbn in Hreq. injection Hreq as Hreq.
    destruct (Hst i pr' Hp) as (pr & Hp0 & Hs).
    eapply localOutcome_same; [done|exact Hs|].
    apply (T2 i task pr); try done. unfold errorTask in *. by rewrite <- Hreq.
Qed.

Lemma Timed_same w w' :
  timers w' = timers w → runningTask w' = runningTask w →
  taskList w' = taskList w → promises w' = promises w → Timed w → Timed w'.
Proof.
  intros Ht Hr Hl Hp. apply Timed_ext; try done.
  - intros i. by rewrite Hl.
  - intros i pr' Hi. exists pr'. rewrite <- Hp. split; [done|apply sameOutcome_refl].
Qed.

Lemma Timed_sameTasks w w' : sameTasks w w' → Timed w → Timed w'.
Proof. intros (?&?&?&?&?&?&?&?). by apply Timed_same. Qed.

Lemma Timed_init h : Timed (init h).
Proof. split; [done|]. intros i task pr Hi. cbn in Hi. by rewrite lookup_nil in Hi. Qed.

Lemma Timed_reactNow p r w : Timed w → Timed (reactNow p r w).
Proof.
  unfold reactNow. destruct (promises w !! p) as [pr|] eqn:Hp; [|done].
  destruct (pstate pr) eqn:Hst; [|by apply Timed_same..].
  apply Timed_ext; try done. cbn. intros i pr' Hi.
  destruct (decide (i = p)) as [->|Hne].
  - rewrite list_lookup_insert_eq in Hi by (by eapply lookup_lt_Some).
    injection Hi as <-. exists pr. split; [done|]. by rewrite Hst.
  - rewrite list_lookup_insert_ne in Hi by done. exists pr'.
    split; [done|apply sameOutcome_refl].
Qed.

Lemma requests_alter (f : Task.t → Task.t) (l : list Task.t) (i j : nat) :
  (∀ t, Task.requestMessage (f t) = Task.requestMessage t) →
  Task.requestMessage <$> alter f i l !! j = Task.requestMessage <$> l !! j.
Proof.
  intros Hf. destruct (decide (j = i)) as [->|Hne].
  - rewrite list_lookup_alter_eq. destruct (l !! i); cbn; [by rewrite Hf|done].
  - by rewrite list_lookup_alter_ne.
Qed.

Lemma requests_insert (l : list Task.t) (i : nat) t t0 (j : nat) :
  l !! i = Some t0 → Task.requestMessage t = Task.requestMessage t0 →
  Task.requestMessage <$> <[i := t]> l !! j = Task.requestMessage <$> l !! j.
Proof.
  intros Hi Hreq. destruct (decide (j = i)) as [->|Hne].
  - rewrite list_lookup_insert_eq by (by eapply lookup_lt_Some). rewrite Hi. cbn.
    by rewrite Hreq.
  - by rewrite list_lookup_insert_ne.
Qed.

Lemma errorRunning_idle w : runningTask w = None → errorRunning w = [].
Proof. intros H. unfold errorRunning. by rewrite H. Qed.

Lemma errorsLocal_push w w' t :
  Inv w → errorsLocal w →
  taskList w' = taskList w ++ [t] →
  promises w' = promises w ++ [{| pstate := Pending; reactions := [] |}] →
  errorsLocal w'.
Proof.
  intros HI T2 Hl Hps i task pr Hi He Hp. rewrite Hl in Hi. rewrite Hps in Hp.
  apply lookup_push_Some in Hi as [Hi|[-> ->]].
  - apply lookup_push_Some in Hp as [Hp|[-> ->]]; [by eapply T2|].
    apply lookup_lt_Some in Hi. rewrite (inv_promises w HI) in Hi. lia.
  - apply lookup_push_Some in Hp as [Hp|[_ ->]]; [|by left].
    apply lookup_lt_Some in Hp. rewrite (inv_promises w HI) in Hp. lia.
Qed.

Lemma Timed_spawned action data now w :
  Inv w → Timed w → Timed (spawned action data now w).
Proof.
  intros HI [T1 T2]. split.
  - destruct (runningTask w) as [r|] eqn:Hr.
    + rewrite (spawned_busy _ _ _ _ r Hr).
      cbn. rewrite T1. unfold errorRunning. cbn. rewrite Hr.
      pose proof (inv_running w HI r Hr) as Hlt.
      by rewrite lookup_app_l.
    + rewrite (spawned_idle _ _ _ _ Hr).
      unfold errorRunning. rewrite errorRunning_idle in T1 by done.
      destruct (isError data) eqn:He; cbn; rewrite lookup_push; unfold errorTask;
        cbn; rewrite He, ?T1; done.
  - destruct (runningTask w) as [r|] eqn:Hr.
    + rewrite (spawned_busy _ _ _ _ r Hr). by eapply errorsLocal_push.
    + rewrite (spawned_idle _ _ _ _ Hr).
      eapply errorsLocal_push; [done..| |]; by destruct (isError data).
Qed.

Lemma Timed_retired r task st rs w :
  runningTask w = Some r → taskList w !! r = Some task →
  promises w !! r = Some {| pstate := Pending; reactions := rs |} →
  timers w = [] →
  (errorTask task = true → localOutcome task st) →
  errorsLocal w →
  Timed (retired r task st rs w).
Proof.
  intros Hr Ht Hp Htm Hst T2. split; [done|].
  intros i t pr Hi He Hpi. cbn in Hi, Hpi.
  destruct (decide (i = r)) as [->|Hne].
  - rewrite list_lookup_insert_eq in Hi by (by eapply lookup_lt_Some).
    rewrite list_lookup_insert_eq in Hpi by (by eapply lookup_lt_Some).
    injection Hi as <-. injection Hpi as <-. by apply Hst.
  - rewrite list_lookup_insert_ne in Hi by done.
    rewrite list_lookup_insert_ne in Hpi by done. by eapply T2.
Qed.

Lemma Timed_dispatched q rest tq now w :
  runningTask w = None → taskList w !! q = Some tq →
  Timed w → Timed (dispatched q tq now (set_queuedTaskList rest w)).
Proof.
  intros Hr Hq [T1 T2]. rewrite errorRunning_idle in T1 by done.
  pose proof (lookup_lt_Some _ _ _ Hq) as Hlt. split.
  - unfold dispatched, errorRunning, errorTask.
    destruct (isError _) eqn:He; cbn; rewrite list_lookup_insert_eq by done;
      cbn; rewrite He, ?T1; done.
  - intros i t pr Hi He Hp.
    assert (Hp' : promises w !! i = Some pr).
    { revert Hp. unfold dispatched. by destruct (isError _). }
    assert (Hi' : taskList (dispatched q tq now (set_queuedTaskList rest w)) =
                  <[q := Task.run now tq]> (taskList w)) by done.
    rewrite Hi' in Hi. destruct (decide (i = q)) as [->|Hne].
    + rewrite list_lookup_insert_eq in Hi by done. injection Hi as <-.
      by apply (T2 q tq pr).
    + rewrite list_lookup_insert_ne in Hi by done. by eapply T2.
Qed.

Lemma Timed_completeTask response now w :
  Inv w → timers w = [] → errorsLocal w →
  (∀ r task, runningTask w = Some r → taskList w !! r = Some task →
             errorTask task = true →
             localOutcome task (outcome response task now)) →
  Timed (completeTask response now w).2.
Proof.
  intros HI Htm T2 Hout.
  destruct (completeTask_cases response now w HI) as (w' & -> & [[Hr ->]|H]); cbn [snd].
  { split; [|done]. by rewrite Htm, errorRunning_idle. }
  destruct H as (r & task & rs & Hr & Ht & Hp & H). cbv zeta in H.
  assert (HT1 : Timed (retired r task (outcome response task now) rs w)).
  { apply Timed_retired; try done. intros He. by apply (Hout r task). }
  destruct H as [->|(q & rest & tq & Hq & Htq & ->)]; [done|].
  by apply Timed_dispatched.
Qed.

Lemma Timed_runJob w j : Timed w → Timed (runJob w j).
Proof.
  destruct (runJob_sameScheduler w j) as (Ht & Hr & _ & _ & Htm & _).
  destruct (runJob_summary w j) as (Hother & Hown & _).
  apply Timed_ext; try done.
  - intros i. by rewrite Ht.
  - intros i pr' Hi. destruct (decide (i = job_promise j)) as [->|Hne].
    + destruct (promises w !! job_promise j) as [pr|] eqn:Hp.
      * destruct (Hown pr eq_refl) as (pr2 & Hp2 & Hs).
        exists pr. split; [done|]. by simplify_eq.
      * exfalso. revert Hi. unfold runJob. by rewrite Hp, Hp.
    + rewrite Hother in Hi by done. exists pr'. split; [done|apply sameOutcome_refl].
Qed.

Lemma Timed_runMicrotasks w : Timed w → Timed (runMicrotasks w).
Proof.
  intros HT. unfold runMicrotasks.
  assert (HT0 : Timed (set_microtasks [] w)) by (by apply (Timed_same w)).
  revert HT0. generalize (set_microtasks [] w). clear HT.
  induction (microtasks w) as [|j js IH]; intros w0 HT0; [done|].
  cbn. apply IH. by apply Timed_runJob.
Qed.

(** The request of the running task, if the message answers a request. *)
Lemma solicited_running w event r task :
  Inv w → solicited w (Message event) →
  runningTask w = Some r → taskList w !! r = Some task →
  IResponseMessage.taskId event = Task.id task →
  errorTask task = false.
Proof.
  intros HI (m & Hin & Hid) Hr Ht Heq.
  destruct (inv_worker w HI m Hin) as (j & tj & Hj & -> & Herr & _).
  destruct (inv_tasks w HI j tj Hj) as [Hidj Hreqj _ _ _ _ _].
  destruct (inv_tasks w HI r task Ht) as [Hidr _ _ _ _ _ _].
  rewrite Hreqj, Hidj, Heq, Hidr in Hid.
  assert (j = r) as -> by (injection Hid; lia).
  assert (tj = task) as -> by congruence. done.
Qed.

Lemma Timed_step e now stack w :
  Inv w → Timed w → solicited w e → Timed (step e now stack w).
Proof.
  intros HI HT Hsol. apply Timed_runMicrotasks.
  destruct e as [a|i name|i name|i name|event|]; cbn [handle].
  - rewrite discard_snd.
    destruct (perform a now stack w) as [r w'] eqn:Hp. cbn [snd].
    destruct (perform_outcome _ _ _ _ _ _ Hp)
      as [(e & -> & Hs)|(action & data & w1 & -> & Hs & [->|(cb & ->)])].
    + by apply (Timed_sameTasks w).
    + apply Timed_spawned; [by apply (Inv_sameTasks w)|by apply (Timed_sameTasks w)].
    + apply Timed_reactNow.
      apply Timed_spawned; [by apply (Inv_sameTasks w)|by apply (Timed_sameTasks w)].
  - rewrite discard_snd. unfold then_, bind at 1, deref.
    destruct (taskList w !! i) as [task|]; [|done].
    destruct (Task.promise task) as [p|]; cbn; [by apply Timed_reactNow|done].
  - rewrite discard_snd. unfold catch, bind at 1, deref.
    destruct (taskList w !! i) as [task|]; [|done].
    destruct (Task.promise task) as [p|]; cbn; [by apply Timed_reactNow|done].
  - rewrite discard_snd. cbn. apply (Timed_ext w); try done; cbn.
    + intros j. by apply requests_alter.
    + intros j pr' Hj. exists pr'. split; [done|apply sameOutcome_refl].
  - pose proof (sameTasks_logged event w) as Hlog.
    pose proof (Timed_sameTasks _ _ Hlog HT) as HT'.
    pose proof (Inv_sameTasks _ _ Hlog HI) as HI'.
    pose proof Hlog as (Hl & Hr' & _ & Hwk & _).
    destruct (runningTask w) as [r|] eqn:Hr; [|rewrite onmessage_idle by done; exact HT'].
    pose proof (inv_running w HI r Hr) as Hlt.
    destruct (lookup_lt_is_Some_2 _ _ Hlt) as [task Ht].
    rewrite (onmessage_running event now w r task Hr Ht).
    destruct (Z.eqb_spec (IResponseMessage.taskId event) (Task.id task)) as [Heq|Hne];
      cbn [negb]; [|done].
    destruct (IResponseMessage.done event).
    + destruct HT' as [T1 T2].
      pose proof (solicited_running w event r task HI Hsol Hr Ht Heq) as Hne.
      apply Timed_completeTask; try done.
      * rewrite T1. unfold errorRunning. rewrite Hr', Hl, Ht. by rewrite Hne.
      * intros r' task' Hr2 Ht2 He. rewrite Hr' in Hr2. rewrite Hl in Ht2.
        simplify_eq. congruence.
    + destruct (isProgress _); [|done].
      rewrite (updateProgress_eq r n _ task) by (by rewrite Hl).
      cbn [snd]. destruct (Task.onProgress task); [|done].
      by apply (Timed_same (logged event w)).
  - unfold bind at 1, gets. destruct (timers w) as [|i rest] eqn:Htm; [done|].
    unfold bind at 1, modify. unfold timeoutCallback.
    destruct HT as [T1 T2]. rewrite Htm in T1. unfold errorRunning in T1.
    destruct (runningTask w) as [r|] eqn:Hr; [|done].
    destruct (taskList w !! r) as [task|] eqn:Ht; [|done].
    destruct (errorTask task) eqn:He; [|done]. injection T1 as -> ->.
    assert (Hd : deref r (set_timers [] w) = (Normal task, set_timers [] w)).
    { unfold deref. cbn. by rewrite Ht. }
    rewrite (bind_eq _ _ _ _ _ Hd).
    apply Timed_completeTask; try done.
    + by apply (Inv_set_timers_tail r [] w).
    + intros r' task' Hr2 Ht2 _. cbn in Hr2, Ht2. simplify_eq.
      right. done.
Qed.

Lemma Timed_answered w : answered w → Timed w.
Proof.
  induction 1 as [h|w e now stack Hw IH Hsol]; [apply Timed_init|].
  apply Timed_step; [by apply Inv_reachable, answered_reachable|done..].
Qed.

(** C5. A call of [getLines] made before any [loadFile] has completed
    successfully does not throw: it returns a new task whose request data is
    the error with the message [noFileYet], and whose promise is still
    pending when the turn of the call ends.  The request of that task is not
    posted, in that turn or in any later one; [runTask] sets a zero-delay
    timer for it instead (at once when no task is running), and the turn in
    which that timer runs, the task being the running one, rejects the
    promise with exactly that message and calls the rejection observers
    registered by then with it.  With a worker that only answers the
    requests it was posted, the promise is never settled in any other way,
    and while the task runs its timer is the only one, so that the next
    timer turn is that turn. *)
Theorem C5_getLines_before_load w start count decode now stack :
  reachable w → ¬ loadFileFulfilled w →
  let n := length (taskList w) in
  let w1 := step (Call (GetLines start count decode)) now stack w in
  (getLines start count decode now w).1 = Normal n ∧
  (∃ task, taskList w1 !! n = Some task ∧
           RequestMessage.data (Task.requestMessage task) = ErrorData noFileYet ∧
           RequestMessage.taskId (Task.requestMessage task) = Some (Z.of_nat (n + 1))) ∧
  length (taskList w1) = S n ∧
  promises w1 !! n = Some {| pstate := Pending; reactions := [] |} ∧
  worker w1 = worker w ∧
  (runningTask w = None → runningTask w1 = Some n ∧ timers w1 = timers w ++ [n]) ∧
  (∀ turns,
     let w2 := run turns w1 in
     (∀ m, m ∈ worker w2 → RequestMessage.taskId m ≠ Some (Z.of_nat (n + 1))) ∧
     (∀ rest rs now' stack',
        timers w2 = n :: rest → runningTask w2 = Some n →
        promises w2 !! n = Some {| pstate := Pending; reactions := rs |} →
        let w3 := step Timeout now' stack' w2 in
        (handle Timeout now' stack' w2).1 = Normal tt ∧
        pstate <$> promises w3 !! n = Some (Rejected noFileYet) ∧
        ∀ name, OnRejected name ∈ rs → CalledCatch n name noFileYet ∈ calls w3)) ∧
  (answered w →
   ∀ turns, answeredRun turns w1 →
     let w2 := run turns w1 in
     (∃ pr, promises w2 !! n = Some pr ∧
            (pstate pr = Pending ∨ pstate pr = Rejected noFileYet)) ∧
     (runningTask w2 = Some n → timers w2 = [n])).
Proof.
  intros Hw Hno n w1.
  pose proof (Inv_reachable w Hw) as HI.
  pose proof (microtasks_reachable w Hw) as Hm.
  pose proof (file_None w Hw Hno) as Hf.
  assert (Hcall : getLines start count decode now w =
                  (Normal n, spawned "getLines" (ErrorData noFileYet) now w)).
  { unfold getLines. erewrite bind_eq by reflexivity. rewrite Hf. apply newTask_eq. }
  assert (Hw1 : w1 = spawned "getLines" (ErrorData noFileYet) now w).
  { subst w1. unfold step. cbn [handle perform]. rewrite discard_snd, Hcall. cbn [snd].
    apply runMicrotasks_quiet. by rewrite microtasks_spawned. }
  assert (Hr1 : reachable w1) by (by constructor).
  pose proof (Inv_reachable w1 Hr1) as HI1.
  destruct (spawned_lookup "getLines" (ErrorData noFileYet) now w)
    as (task & Ht & _ & Hreq & Hid).
  fold n in Ht. rewrite <- Hw1 in Ht.
  assert (Hdata : RequestMessage.data (Task.requestMessage task) = ErrorData noFileYet)
    by (by rewrite Hreq).
  assert (Htid : RequestMessage.taskId (Task.requestMessage task) = Some (Z.of_nat (n + 1))).
  { rewrite Hreq. cbn. rewrite (nextId_inv w HI). do 2 f_equal. subst n. lia. }
  split; [by rewrite Hcall|]. split; [by exists task|].
  split; [rewrite Hw1; apply length_spawned|].
  split.
  { rewrite Hw1, promises_spawned. subst n. rewrite <- (inv_promises w HI).
    apply lookup_push. }
  split.
  { rewrite Hw1. destruct (runningTask w) as [r|] eqn:Hr.
    - by rewrite (spawned_busy _ _ _ _ r Hr).
    - by rewrite (spawned_idle _ _ _ _ Hr). }
  split.
  { intros Hr. rewrite Hw1. by rewrite (spawned_idle _ _ _ _ Hr). }
  split.
  { intros turns w2.
      assert (Hr2 : reachable w2) by (by apply reachable_run).
      pose proof (Inv_reachable w2 Hr2) as HI2.
      destruct (later_run turns w1 Hr1) as [Hreqs _].
      destruct (Hreqs n task Ht) as (task2 & Ht2 & Hreq2). fold w2 in Ht2.
      split.
      - intros m Hin Heq.
        destruct (inv_worker w2 HI2 m Hin) as (j & tj & Hj & -> & Herr & _).
        destruct (inv_tasks w2 HI2 j tj Hj) as [Hidj Hreqj _ _ _ _ _].
        rewrite Hreqj, Hidj in Heq.
        assert (j = n) as -> by (injection Heq; lia).
        assert (tj = task2) as -> by congruence.
        rewrite Hreq2, Hdata in Herr. done.
      - intros rest rs now' stack' Htm Hrun Hpr w3. subst w3.
        assert (Hd : deref n (set_timers rest w2) = (Normal task2, set_timers rest w2)).
        { unfold deref. cbn. by rewrite Ht2. }
        assert (Hh : handle Timeout now' stack' w2 =
                     completeTask
                       {| IResponseMessage.success := false;
                          IResponseMessage.message :=
                            errorMessage (RequestMessage.data (Task.requestMessage task2));
                          IResponseMessage.result := RPrim PNull;
                          IResponseMessage.done := true;
                          IResponseMessage.taskId := Task.id task2 |}
                       now' (set_timers rest w2)).
        { cbn [handle]. unfold bind at 1, gets. rewrite Htm.
          unfold bind at 1, modify. unfold timeoutCallback.
          by rewrite (bind_eq _ _ _ _ _ Hd). }
        unfold step. rewrite Hh. clear Hh.
        pose proof (Inv_set_timers_tail n rest w2 HI2 Htm) as HI3.
        destruct (settling_turn
                    {| IResponseMessage.success := false;
                       IResponseMessage.message :=
                         errorMessage (RequestMessage.data (Task.requestMessage task2));
                       IResponseMessage.result := RPrim PNull;
                       IResponseMessage.done := true;
                       IResponseMessage.taskId := Task.id task2 |}
                    now' (set_timers rest w2) n task2 rs HI3)
          as (H1 & (pr' & Hpr' & Hout) & Hrej & _); try done.
        { cbn. by apply microtasks_reachable. }
        rewrite Hreq2, Hdata in *. cbn [errorMessage] in *.
        split; [done|]. split.
        + rewrite Hpr'. cbn. unfold outcome in Hout. cbn in Hout.
          destruct (pstate pr'); try done. by rewrite Hout.
        + intros name Hin. by apply Hrej. }
  intros Ha turns Hturns w2.
  assert (Ha1 : answered w1) by (by constructor).
  pose proof (answered_run turns w1 Ha1 Hturns) as Ha2. fold w2 in Ha2.
  pose proof (Inv_reachable w2 (answered_reachable w2 Ha2)) as HI2.
  destruct (Timed_answered w2 Ha2) as [T1 T2].
  destruct (later_run turns w1 Hr1) as [Hreqs _].
  destruct (Hreqs n task Ht) as (task2 & Ht2 & Hreq2). fold w2 in Ht2.
  assert (He2 : errorTask task2 = true) by (by unfold errorTask; rewrite Hreq2, Hdata).
  split.
  - assert (Hlt : n < length (promises w2)).
    { rewrite (inv_promises w2 HI2). by eapply lookup_lt_Some. }
    destruct (lookup_lt_is_Some_2 _ _ Hlt) as [pr Hpr]. exists pr. split; [done|].
    pose proof (T2 n task2 pr Ht2 He2 Hpr) as Hloc. unfold localOutcome in Hloc.
    by rewrite Hreq2, Hdata in Hloc.
  - intros Hrun. rewrite T1. unfold errorRunning. by rewrite Hrun, Ht2, He2.
Qed.

(** ** The objects of the page *)

Lemma heapKept_refl w : heapKept w w.
Proof. unfold heapKept. by rewrite take_ge. Qed.

Lemma heapKept_trans w1 w2 w3 : heapKept w1 w2 → heapKept w2 w3 → heapKept w1 w3.
Proof.
  unfold heapKept. intros H12 H23.
  assert (Hle : length (jsheap w1) ≤ length (jsheap w2)).
  { apply (f_equal length) in H12. rewrite length_take in H12. lia. }
  transitivity (take (length (jsheap w1)) (take (length (jsheap w2)) (jsheap w3))).
  - rewrite take_take. f_equal. lia.
  - by rewrite H23.
Qed.

Lemma heapKept_same w w' : jsheap w' = jsheap w → heapKept w w'.
Proof. intros H. unfold heapKept. rewrite H. by rewrite take_ge. Qed.

Lemma frames_ret {A} (a : A) : frames (ret a).
Proof. intros w. apply heapKept_refl. Qed.

Lemma frames_throw {A} (e : exn) : frames (@throw World A e).
Proof. intros w. apply heapKept_refl. Qed.

Lemma frames_gets {A} (f : World → A) : frames (gets f).
Proof. intros w. apply heapKept_refl. Qed.

Lemma frames_bind {A B} (c : M World A) (k : A → M World B) :
  frames c → (∀ a, frames (k a)) → frames (bind c k).
Proof.
  intros Hc Hk w. unfold bind. specialize (Hc w).
  destruct (c w) as [[a|e] w1]; [|done].
  eapply heapKept_trans; [exact Hc|apply Hk].
Qed.

Lemma frames_modify (f : World → World) :
  (∀ w, jsheap (f w) = jsheap w) → frames (modify f).
Proof. intros Hf w. apply heapKept_same. cbn. apply Hf. Qed.

Lemma frames_deref i : frames (deref i).
Proof. intros w. unfold deref. destruct (taskList w !! i); apply heapKept_refl. Qed.

Lemma frames_marshalConfig stack config : frames (marshalConfig stack config).
Proof.
  intros w. destruct (marshalConfig stack config w) as [r w'] eqn:Hm.
  by destruct (marshalConfig_frame _ _ _ _ _ Hm) as (H & _).
Qed.

Lemma jsheap_settleNow p st w : jsheap (settleNow p st w) = jsheap w.
Proof.
  unfold settleNow. destruct (promises w !! p) as [pr|]; [|done].
  by destruct (pstate pr).
Qed.

Lemma jsheap_reactNow p r w : jsheap (reactNow p r w) = jsheap w.
Proof.
  unfold reactNow. destruct (promises w !! p) as [pr|]; [|done].
  by destruct (pstate pr).
Qed.

Create HintDb frames discriminated.
#[local] Hint Resolve frames_ret frames_throw frames_gets frames_deref
  frames_marshalConfig : frames.
#[local] Hint Resolve jsheap_settleNow jsheap_reactNow : frames.

(** One step through the text of a handler. *)
Ltac frame_step :=
  first
    [ solve [auto with frames]
    | apply frames_modify; intros ?; solve [reflexivity | auto with frames]
    | apply frames_bind; [|intros ?]
    | match goal with
      | |- frames (match ?x with _ => _ end) => destruct x
      end ].

Ltac frame_all := repeat frame_step.

Lemma frames_newTask action data now : frames (newTask action data now).
Proof.
  unfold newTask, newTaskId, newTxtReaderTask, runTask, postMessage, setTimeout,
    updateTask.
  frame_all.
Qed.

Lemma frames_then i cb : frames (then_ i cb).
Proof. unfold then_, react. frame_all. Qed.

Lemma frames_catch i cb : frames (catch i cb).
Proof. unfold catch, react. frame_all. Qed.

Lemma frames_progress i cb : frames (progress i cb).
Proof. unfold progress, updateTask. frame_all. Qed.

Lemma frames_completeTask response now : frames (completeTask response now).
Proof.
  unfold completeTask, complete, callSettler, settle, runNextTask, runTask,
    postMessage, setTimeout, updateTask.
  frame_all.
Qed.

#[local] Hint Resolve frames_newTask frames_then frames_catch frames_progress
  frames_completeTask : frames.

Lemma frames_onmessage event now : frames (onmessage event now).
Proof. unfold onmessage, updateProgress. frame_all. Qed.

Lemma frames_perform a now stack : frames (perform a now stack).
Proof.
  destruct a; unfold perform, sniffLines, loadFile, setChunkSize, enableVerbose,
    getLines2, getLines, getSporadicLines, iterateLines, iterateSporadicLines.
  all: frame_all.
Qed.

Lemma frames_handle e now stack : frames (handle e now stack).
Proof.
  pose proof frames_onmessage. pose proof frames_perform.
  destruct e; unfold handle, discard, timeoutCallback.
  all: frame_all.
Qed.

Lemma heapKept_step e now stack w : heapKept w (step e now stack w).
Proof.
  unfold step. eapply heapKept_trans; [apply frames_handle|].
  apply heapKept_same. by destruct (runMicrotasks_sameScheduler (handle e now stack w).2)
    as (_ & _ & _ & _ & _ & H & _).
Qed.

(** ** A call with a config that is a tree *)




(** C10. A call of a public method leaves every object of the page as it
    was: [getItertorConfigMessage] is given the result of [cloneDeep], so
    what it rewrites are objects made during the call.  In particular a
    property of the caller's config that held a function before the call
    of [loadFile], [iterateLines] or [iterateSporadicLines] still holds that
    function afterwards, and the scope the message refers to is not one of
    the caller's objects. *)
Theorem C10_config_untouched a now stack w :
  let w' := (perform a now stack w).2 in
  take (length (jsheap w)) (jsheap w') = jsheap w ∧
  (∀ l o, jsheap w !! l = Some o → jsheap w' !! l = Some o) ∧
  (∀ obj k src, getProp (jsheap w) obj k = VFun src →
                getProp (jsheap w') obj k = VFun src) ∧
  (∀ config m w1, marshalConfig stack config w = (Normal m, w1) →
     take (length (jsheap w)) (jsheap w1) = jsheap w ∧
     fresh (length (jsheap w)) (msg_scope m)).
Proof.
  intros w'. pose proof (frames_perform a now stack w) as Hk.
  fold w' in Hk. unfold heapKept in Hk.
  assert (Hl : ∀ l o, jsheap w !! l = Some o → jsheap w' !! l = Some o).
  { intros l o Hl. rewrite <- Hk in Hl. by apply lookup_take_Some in Hl as [Hl _]. }
  split; [done|]. split; [done|]. split.
  - intros obj k src. unfold getProp. destruct obj as [p|f|l]; try done.
    destruct (jsheap w !! l) as [o|] eqn:Ho; [|done].
    by rewrite (Hl l o Ho).
  - intros config m w1 Hm.
    destruct (marshalConfig_frame _ _ _ _ _ Hm) as (H1 & _ & H2).
    split; [done|]. by apply H2.
Qed.

(** C4, as amended. For a config whose scope is a tree (an object literal
    without sharing), [getItertorConfigMessage] returns the source text of
    [eachLine] in the field [eachLine], a reference to the scope, and in
    [functionMap] the access paths of the functions inside the scope, depth
    first and in property order; [eachLine] itself has no entry there.  On
    the heap every function inside the scope has been replaced in place by
    its source text, nested objects included, and every other value is as it
    was; the config's own [eachLine] is still the function.  Without a scope
    the message gets a new empty object and an empty [functionMap]. *)
Theorem C4_closure_marshalling (c : IIteratorConfig) stack pre post :
  1 ≤ stack →
  (∀ fs, scope c = Some fs → wf (TObj fs) ∧ height (TObj fs) ≤ stack) →
  let h := pre ++ layout (configTree c) (length pre) ++ post in
  getItertorConfigMessage stack (VRef (length pre)) h =
  match scope c with
  | Some fs =>
      (Normal {| msg_eachLine := eachLine c;
                 msg_scope := VRef (S (length pre));
                 msg_functionMap :=
                   flat_map (λ kc, paths kc.2 (accessPath "" kc.1)) fs |},
       pre ++ layout (TObj [("eachLine", TFun (eachLine c));
                            ("scope", TObj (map (λ kc, (kc.1, marshal kc.2)) fs))])
                (length pre) ++ post)
  | None =>
      (Normal {| msg_eachLine := eachLine c;
                 msg_scope := VRef (length h);
                 msg_functionMap := [] |},
       h ++ [[]])
  end.
Proof.
  intros Hstack Hscope h.
  pose proof (getItertorConfigMessage_layout c stack pre post Hstack Hscope) as H.
  cbv zeta in H. fold h in H. rewrite H. unfold marshalledConfigTree.
  by destruct (scope c).
Qed.

(** ** Requests that go out and requests that do not *)







(** ** The theorems at work on the runs of [Scenario] *)

Lemma reachable_start : reachable Scenario.start.
Proof. constructor. Qed.

Lemma reachable_busy : reachable Scenario.busy.
Proof. apply reachable_run, reachable_start. Qed.

Lemma reachable_waiting : reachable Scenario.waiting.
Proof. apply reachable_run, reachable_busy. Qed.

Lemma reachable_settled : reachable Scenario.settled.
Proof. apply reachable_run, reachable_busy. Qed.

Lemma reachable_verbose : reachable Scenario.verbose.
Proof. apply reachable_run, reachable_start. Qed.

(** With one task running and one queued, there is one Running task, and
    the terminal response dispatches the queued one and posts its request. *)
Lemma C1_witness :
  reachable Scenario.waiting ∧
  (∀ i j ti tj,
     taskList Scenario.waiting !! i = Some ti →
     taskList Scenario.waiting !! j = Some tj →
     Task.state ti = Running → Task.state tj = Running → i = j) ∧
  let w' := (completeTask (Scenario.answer 1 true) 5 Scenario.waiting).2 in
  runningTask w' = Some 1 ∧ queuedTaskList w' = [] ∧ length (worker w') = 2.
Proof.
  pose proof (C1_single_flight Scenario.waiting reachable_waiting)
    as (H1 & _ & H3 & _).
  split; [exact reachable_waiting|]. split; [exact H1|].
  destruct (H3 (Scenario.answer 1 true) 5%Z 0 1 [] _ eq_refl eq_refl eq_refl)
    as (Ha & Hb & _ & _ & Hc).
  split; [exact Ha|]. split; [exact Hb|]. cbv zeta in Hc. rewrite Hc. reflexivity.
Defined.

(** The two tasks of [Scenario.waiting] have the ids 1 and 2, and a third
    call makes the task with id 3. *)
Lemma C2_witness :
  reachable Scenario.waiting ∧
  (∀ i task, taskList Scenario.waiting !! i = Some task →
     Task.id task = Z.of_nat (i + 1) ∧
     RequestMessage.taskId (Task.requestMessage task) = Some (Z.of_nat (i + 1))) ∧
  ∃ task,
    taskList (perform EnableVerbose 3 0 Scenario.waiting).2 !! 2 = Some task ∧
    Task.id task = 3%Z.
Proof.
  pose proof (C2_task_ids Scenario.waiting reachable_waiting) as (H1 & H2).
  split; [exact reachable_waiting|]. split; [exact H1|].
  destruct (perform EnableVerbose 3 0 Scenario.waiting) as [r w'] eqn:Hp.
  pose proof (H2 EnableVerbose 3%Z 0 r w' Hp) as H.
  assert (r = Normal 2) as -> by (by vm_compute in Hp; injection Hp as <- _).
  destruct H as (_ & _ & task & Ht & Hid & _). by exists task.
Defined.

(** Once the first task of [Scenario.settled] has settled, [then] and
    [catch] on it leave the reader as it is, and the observers registered
    before were called when the response came. *)
Lemma C3_witness :
  reachable Scenario.settled ∧
  settledAt (promises Scenario.settled) 0 ∧
  step (Then 0 11) 6 0 Scenario.settled = Scenario.settled ∧
  step (Catch 0 12) 6 0 Scenario.settled = Scenario.settled.
Proof.
  pose proof (C3_settles_once Scenario.settled reachable_settled) as (_ & H1 & _).
  destruct (H1 0 _ eq_refl eq_refl) as (Hs & He).
  split; [exact reachable_settled|]. split; [exact Hs|]. split.
  - destruct (He (Then 0 11) 6%Z 0) as (_ & H & _). apply (H 11). by left.
  - destruct (He (Catch 0 12) 6%Z 0) as (_ & H & _). apply (H 12). by right.
Defined.

(** The fulfilment observer 11 is registered after the task has been
    fulfilled: nothing is registered, and no later turn calls it. *)
Lemma C3_late_observer_is_dropped :
  pstate <$> promises Scenario.settled !! 0 =
    Some (Fulfilled {| ITaskResponse.timeTaken := 5;
                       ITaskResponse.message := "done";
                       ITaskResponse.result := RPrim PNull |}) ∧
  step (Then 0 11) 6 0 Scenario.settled = Scenario.settled ∧
  calls (run [(Then 0 11, 6%Z, 0); (Timeout, 7%Z, 0);
              (Message (Scenario.answer 1 true), 8%Z, 0)] Scenario.settled) =
    [CalledThen 0 7 {| ITaskResponse.timeTaken := 5;
                       ITaskResponse.message := "done";
                       ITaskResponse.result := RPrim PNull |}].
Proof. by vm_compute. Qed.

(** The scope of the example on a page of its own. *)
Lemma C4_witness :
  getItertorConfigMessage 3 (VRef 0) Scenario.page =
  (Normal {| msg_eachLine := Example.f_src;
             msg_scope := VRef 1;
             msg_functionMap := [accessPath (accessPath "" "util") "double"] |},
   [[("eachLine", VFun Example.f_src); ("scope", VRef 1)];
    [("util", VRef 2); ("factor", VPrim Example.three)];
    [("double", VPrim (PStr Example.g_src))]]).
Proof.
  assert (Hwf : ∀ fs, scope Scenario.config = Some fs →
                      wf (TObj fs) ∧ height (TObj fs) ≤ 3).
  { intros fs [= <-]. split; [|vm_compute; lia].
    simpl. repeat split; by apply (bool_decide_unpack _). }
  exact (C4_closure_marshalling Scenario.config 3 [] [] (le_S _ _ (le_S _ _ (le_n 1))) Hwf).
Defined.

(** The [functionMap] of the example has one path, the one of
    [scope.util.double], and no path for [eachLine]. *)
Lemma C4_example_has_one_path :
  match (getItertorConfigMessage 3 (VRef 0) (layout Example.config 0)).1 with
  | Normal m =>
      msg_functionMap m = [accessPath (accessPath "" "util") "double"] ∧
      length (msg_functionMap m) = 1 ∧
      msg_eachLine m = Example.f_src
  | Thrown _ => False
  end.
Proof. by vm_compute. Qed.

(** [getLines] on a new reader: the call returns task 0, nothing is posted,
    its timer is the only one, and the timer turn rejects with the message
    and calls the observer that was registered in between. *)
Lemma C5_witness :
  ¬ loadFileFulfilled Scenario.start ∧
  let w1 := step (Call (GetLines (Finite 0) (Finite 10) true)) 0 0 Scenario.start in
  let w2 := run [(Catch 0 8, 1%Z, 0)] w1 in
  let w3 := step Timeout 2 0 w2 in
  worker w1 = [] ∧ timers w2 = [0] ∧
  pstate <$> promises w3 !! 0 = Some (Rejected noFileYet) ∧
  CalledCatch 0 8 noFileYet ∈ calls w3.
Proof.
  assert (Hno : ¬ loadFileFulfilled Scenario.start).
  { intros (i & task & Ht & _). cbn in Ht. by rewrite lookup_nil in Ht. }
  split; [exact Hno|].
  pose proof (C5_getLines_before_load Scenario.start (Finite 0) (Finite 10) true 0%Z 0
                reachable_start Hno) as (_ & _ & _ & _ & Hwk & _ & Hlater & Hans).
  destruct (Hlater [(Catch 0 8, 1%Z, 0)]) as (_ & Hfire).
  destruct (Hfire [] [OnRejected 8] 2%Z 0 eq_refl eq_refl eq_refl) as (_ & Hp & Hc).
  destruct (Hans (answered_init []) [(Catch 0 8, 1%Z, 0)] (conj I I)) as (_ & Htm).
  split; [exact Hwk|]. split; [exact (Htm eq_refl)|]. split; [exact Hp|].
  apply Hc. left.
Defined.

(** While the first task of [Scenario.busy] runs, a report of 50 percent
    reaches its progress observer, and a response for task 2 is fatal. *)
Lemma C6_witness :
  reachable Scenario.busy ∧
  calls (onmessage (Scenario.report 1 50) 3 Scenario.busy).2 =
    [CalledProgress 0 9 (Finite 50)] ∧
  ∃ e, (onmessage (Scenario.report 2 50) 3 Scenario.busy).1 = Thrown e.
Proof.
  split; [exact reachable_busy|]. split.
  - destruct (C6_protocol_errors Scenario.busy (Scenario.report 1 50) 3%Z 0 _
                reachable_busy eq_refl eq_refl) as (_ & _ & H).
    destruct (H eq_refl eq_refl 50%Q eq_refl) as (_ & Hc & _); [done..|].
    exact Hc.
  - destruct (C6_protocol_errors Scenario.busy (Scenario.report 2 50) 3%Z 0 _
                reachable_busy eq_refl eq_refl) as (H & _).
    apply H. left. done.
Defined.

(** The first task of [Scenario.busy] is rejected with the message of a
    failed terminal response. *)
Lemma C7_witness :
  reachable Scenario.busy ∧
  pstate <$> promises (onmessage (Scenario.answer 1 false) 5 Scenario.busy).2 !! 0 =
    Some (Rejected "failed").
Proof.
  split; [exact reachable_busy|].
  destruct (C7_settlement Scenario.busy (Scenario.answer 1 false) 5%Z 0 _
              reachable_busy eq_refl eq_refl eq_refl eq_refl) as (_ & H & _).
  exact H.
Defined.

(** A message to a new reader is dropped. *)
Lemma C8_witness :
  runningTask Scenario.start = None ∧
  onmessage (Scenario.answer 1 true) 0 Scenario.start = (Normal tt, Scenario.start).
Proof.
  split; [reflexivity|].
  exact (C8_message_when_idle Scenario.start (Scenario.answer 1 true) 0%Z eq_refl).
Defined.

(** With verbose logging on, a message that arrives while no task is
    running is written to the console. *)
Lemma C8_verbose_message_is_logged :
  runningTask Scenario.verbose = None ∧
  console (onmessage (Scenario.answer 7 true) 9 Scenario.verbose).2 =
    console Scenario.verbose ++ [LogReceived (Scenario.answer 7 true)] ∧
  length (console (onmessage (Scenario.answer 7 true) 9 Scenario.verbose).2) = 2 ∧
  length (console Scenario.verbose) = 1.
Proof. by vm_compute. Qed.


(** [loadFile] with the config of the example: the caller's
    [scope.util.double] is still the function, and the clone the message
    refers to holds its source text. *)
Lemma loadFile_example :
  let w := step (Call (LoadFile (FileObject "a.txt") (VRef 0))) 0 4 (init Scenario.page) in
  take 3 (jsheap w) = Scenario.page ∧
  getProp (jsheap w) (VRef 2) "double" = VFun Example.g_src ∧
  getProp (jsheap w) (VRef 5) "double" = VPrim (PStr Example.g_src) ∧
  length (worker w) = 1.
Proof. by vm_compute. Qed.
